(** * PyAmesp: the AMESP input/output codec of [PyAmesp/amesp.py]

    A shallow embedding of the module's reader and writer functions, and
    the properties of its specification checked against them.

    Conventions of the embedding.
    - A transcript is a [string] over the code points U+0000..U+00FF.
    - A Python call that may raise is a [result]: [Ok v] or [Raise e].
    - [re.findall] is a backtracking matcher over the patterns of the
      module (module [Re]); the patterns are transcribed item by item.
    - Floating-point numbers, the [%]-formatting of numbers and the ASE
      collaborators (units, periodic table, xyz reader and writer) are the
      interface [Runtime]; the functions of the module are written over any
      runtime, and [QRuntime] (exact rationals) is used to run them.
    - The keyword dictionary [kw] that the writer pops keys from lives in
      a [store] of dictionary objects addressed by location. *)

From Stdlib Require Import ZArith QArith Ascii String DecimalString.
From Stdlib Require Import DecimalPos DecimalZ.
From stdpp Require Import base option list strings.

Set Default Proof Using "Type".

(* ===================================================================== *)
(** ** Python values, exceptions and built-ins *)
(* ===================================================================== *)

Module Py.

(** The exception classes that the module and its collaborators raise. *)
Inductive exn : Type :=
| IndexError | ValueError | TypeError | KeyError
| StopIteration | AttributeError | OverflowError.

Inductive result (A : Type) : Type :=
| Ok (a : A)
| Raise (e : exn).
Arguments Ok {A} a.
Arguments Raise {A} e.

#[export] Instance result_ret : MRet result := λ A a, Ok a.
#[export] Instance result_bind : MBind result := λ A B f m,
  match m with Ok a => f a | Raise e => Raise e end.
#[export] Instance result_fmap : FMap result := λ A B f m,
  match m with Ok a => Ok (f a) | Raise e => Raise e end.

Definition of_option {A} (e : exn) (o : option A) : result A :=
  match o with Some a => Ok a | None => Raise e end.

Definition LF : ascii := "010"%char.

Definition code (c : ascii) : nat := nat_of_ascii c.

(** [str.isspace] on U+0000..U+00FF; the class [\s] of [re] is the same. *)
Definition isspace (c : ascii) : bool :=
  let n := code c in
  ((9 <=? n) && (n <=? 13)) || ((28 <=? n) && (n <=? 32))
  || (n =? 133) || (n =? 160).

(** The class [\d] of [re]: the decimal digits. *)
Definition isdecimal (c : ascii) : bool :=
  let n := code c in (48 <=? n) && (n <=? 57).

(** The class [\w] of [re]: [str.isalnum] or the underscore. *)
Definition isword (c : ascii) : bool :=
  let n := code c in
  isdecimal c || ((65 <=? n) && (n <=? 90)) || ((97 <=? n) && (n <=? 122))
  || (n =? 95) || (n =? 170) || (n =? 178) || (n =? 179) || (n =? 181)
  || (n =? 185) || (n =? 186) || ((188 <=? n) && (n <=? 190))
  || ((192 <=? n) && (n <=? 214)) || ((216 <=? n) && (n <=? 246))
  || (248 <=? n).

(** [s.split(c)]: the pieces between the occurrences of [c]; never empty. *)
Fixpoint split_on (c : ascii) (s : string) : list string :=
  match s with
  | EmptyString => [EmptyString]
  | String a s' =>
      if Ascii.eqb a c then EmptyString :: split_on c s'
      else match split_on c s' with
           | w :: ws => String a w :: ws
           | [] => [String a EmptyString]
           end
  end.

(** [s.split()]: the maximal runs of non-whitespace characters.  [cur] is
    the run being read, [None] between two runs. *)
Fixpoint split_ws_from (cur : option string) (s : string) : list string :=
  match s with
  | EmptyString => match cur with Some w => [w] | None => [] end
  | String a s' =>
      if isspace a
      then match cur with
           | Some w => w :: split_ws_from None s'
           | None => split_ws_from None s'
           end
      else split_ws_from (Some (default EmptyString cur +:+ String a EmptyString)) s'
  end.

Definition split (s : string) : list string := split_ws_from None s.

(** [sep.join(l)] *)
Fixpoint join (sep : string) (l : list string) : string :=
  match l with
  | [] => EmptyString
  | [x] => x
  | x :: l' => x +:+ sep +:+ join sep l'
  end.

Definition NL : string := String LF EmptyString.

(** [sub in s] *)
Fixpoint contains (sub s : string) : bool :=
  String.prefix sub s ||
  match s with
  | EmptyString => false
  | String _ s' => contains sub s'
  end.

(** [l[i]] for an integer [i]: negative indices count from the end. *)
Definition getitem {A} (l : list A) (i : Z) : result A :=
  let n := Z.of_nat (length l) in
  if (0 <=? i)%Z then of_option IndexError (l !! Z.to_nat i)
  else if (- n <=? i)%Z then of_option IndexError (l !! Z.to_nat (n + i))
  else Raise IndexError.

(** [l[:n]] *)
Definition upto {A} (n : nat) (l : list A) : list A := take n l.

(** ['%d' % z] for an integer [z]. *)
Definition dec (z : Z) : string := NilZero.string_of_int (Z.to_int z).

(** The characters of [s], as [for c in s] yields them. *)
Definition chars (s : string) : list string :=
  (λ c, String c EmptyString) <$> list_ascii_of_string s.

Fixpoint spaces (n : nat) : string :=
  match n with O => EmptyString | S n' => String " " (spaces n') end.

(** ['%-ws' % s] and ['%ws' % s]: padding to the width [w]. *)
Definition ljust (w : nat) (s : string) : string :=
  s +:+ spaces (w - String.length s).
Definition rjust (w : nat) (s : string) : string :=
  spaces (w - String.length s) +:+ s.

End Py.
Export Py.

(* ===================================================================== *)
(** ** The fragment of [re] that the module's patterns use *)
(* ===================================================================== *)

Module Re.

(** A pattern is a sequence of items.  Every quantifier of the module's
    patterns ([\s*], [\s+], [\d+], [\w+], [.*?]) applies to a character
    class, and every group is a plain capturing group. *)
Inductive item : Type :=
| Lit (c : ascii)                                  (* a literal character *)
| Rep (greedy : bool) (lo : nat) (cs : ascii → bool) (* cs{lo,} or cs{lo,}? *)
| GOpen                                            (* ( *)
| GClose.                                          (* ) *)

Definition pattern := list item.

Definition lit (s : string) : pattern := Lit <$> list_ascii_of_string s.

Definition star (cs : ascii → bool) : item := Rep true 0 cs.
Definition plus (cs : ascii → bool) : item := Rep true 1 cs.
Definition lazy_star (cs : ascii → bool) : item := Rep false 0 cs.

(** [.] without and with [re.S] *)
Definition dot (c : ascii) : bool := negb (Ascii.eqb c LF).
Definition dotall (c : ascii) : bool := true.

(** The groups closed so far (latest first) and the text of the group
    being read. *)
Record caps : Type := Caps { closed : list string; opened : option string }.

Definition feed (c : ascii) (st : caps) : caps :=
  Caps (closed st) ((λ w, w +:+ String c EmptyString) <$> opened st).
Definition open_group (st : caps) : caps := Caps (closed st) (Some EmptyString).
Definition close_group (st : caps) : caps :=
  Caps (default EmptyString (opened st) :: closed st) None.

Definition outcome : Type := list string * string.

(** A quantified class followed by the continuation [k] of the pattern.
    A greedy quantifier tries one more character before it tries [k]; a
    lazy one tries [k] first. *)
Fixpoint rep (greedy : bool) (cs : ascii → bool)
    (k : string → caps → option outcome)
    (lo : nat) (s : string) (st : caps) : option outcome :=
  match lo with
  | S lo' =>
      match s with
      | String c s' => if cs c then rep greedy cs k lo' s' (feed c st) else None
      | EmptyString => None
      end
  | O =>
      if greedy then
        match s with
        | String c s' =>
            if cs c then
              match rep greedy cs k O s' (feed c st) with
              | Some r => Some r
              | None => k s st
              end
            else k s st
        | EmptyString => k s st
        end
      else
        match k s st with
        | Some r => Some r
        | None =>
            match s with
            | String c s' => if cs c then rep greedy cs k O s' (feed c st) else None
            | EmptyString => None
            end
        end
  end.

(** The first way (in backtracking order) to match [p] at the start of
    [s]: the groups, in pattern order, and the text after the match. *)
Fixpoint match_here (p : pattern) : string → caps → option outcome :=
  match p with
  | [] => λ s st, Some (reverse (closed st), s)
  | Lit c :: p' => λ s st,
      match s with
      | String a s' => if Ascii.eqb a c then match_here p' s' (feed a st) else None
      | EmptyString => None
      end
  | Rep greedy lo cs :: p' => rep greedy cs (match_here p') lo
  | GOpen :: p' => λ s st, match_here p' s (open_group st)
  | GClose :: p' => λ s st, match_here p' s (close_group st)
  end.

(** The scan of [re.findall]: leftmost matches, none overlapping; after a
    match the scan resumes where the match ended.  [skip] counts the
    characters of the last match that are still to be passed. *)
Fixpoint scan (p : pattern) (s : string) (skip : nat) : list (list string) :=
  match skip with
  | S n => match s with String _ s' => scan p s' n | EmptyString => [] end
  | O =>
      match match_here p s (Caps [] None) with
      | Some (gs, rest) =>
          gs :: match s with
                | String _ s' =>
                    scan p s' (String.length s - String.length rest - 1)
                | EmptyString => []
                end
      | None => match s with String _ s' => scan p s' 0 | EmptyString => [] end
      end
  end.

(** [re.findall(p, text)] for a pattern with several groups: the tuples
    of groups. *)
Definition findall_groups (p : pattern) (text : string) : list (list string) :=
  scan p text 0.

(** [re.findall(p, text)] for a pattern with one group: the group. *)
Definition findall (p : pattern) (text : string) : list string :=
  (λ gs, default EmptyString (head gs)) <$> findall_groups p text.

End Re.
Export Re.

(* ===================================================================== *)
(** ** The runtime: NumPy floats, number formatting and ASE data *)
(* ===================================================================== *)

(** What the module takes from Python, NumPy and ASE.  [None] and [Raise]
    stand for the exception the operation raises. *)
Class Runtime : Type := {
  float : Type;
  float_of_str : string → option float;   (* float(s); None: ValueError *)
  float_of_int : Z → float;               (* float(z) *)
  fmul : float → float → float;           (* x * y *)
  fdiv : float → float → float;           (* x / y *)
  fsum : list float → float;              (* ndarray.sum() *)
  Hartree : float;                        (* ase.units.Hartree *)
  Bohr : float;                           (* ase.units.Bohr *)
  pct_f : float → string;                 (* '%f' % x *)
  pct_22_15f : float → string;            (* '%22.15f' % x *)
  pct_d_float : float → result string;    (* '%d' % x *)
  round_int : float → result Z;           (* int(round(x)) *)
  atomic_number : string → option nat;    (* ase.data.atomic_numbers[s] *)
}.

Section Amesp.
Context {RT : Runtime}.

(** *** ASE structures *)

(** [ase.Atoms]: the symbols, the positions, and the optional arrays of
    initial charges and initial magnetic moments. *)
Record Atoms : Type := mkAtoms {
  symbols : list string;
  positions : list (float * float * float);
  initial_charges : option (list float);
  initial_magmoms : option (list float);
}.

Definition row3 (r : list float) : option (float * float * float) :=
  match r with [x; y; z] => Some (x, y, z) | _ => None end.

(** [Atoms(symbols, positions)]: [KeyError] for a symbol that is not in
    the periodic table, [ValueError] for positions that are not one row of
    three numbers per symbol. *)
Definition Atoms_init (syms : list string) (pos : list (list float))
  : result Atoms :=
  _ ← mapM (λ s, of_option KeyError (atomic_number s)) syms;
  if negb (length pos =? length syms) then Raise ValueError
  else
    rows ← mapM (λ r, of_option ValueError (row3 r)) pos;
    Ok (mkAtoms syms rows None None).

(** [atoms.get_initial_charges()] and [atoms.get_initial_magnetic_moments()]:
    zeros when the array was never set. *)
Definition get_initial_charges (a : Atoms) : list float :=
  default (replicate (length (symbols a)) (float_of_int 0)) (initial_charges a).
Definition get_initial_magnetic_moments (a : Atoms) : list float :=
  default (replicate (length (symbols a)) (float_of_int 0)) (initial_magmoms a).

(** *** NumPy conversions *)

(** [np.array(l, float)] for a list of strings. *)
Definition np_float1 (l : list string) : result (list float) :=
  mapM (λ s, of_option ValueError (float_of_str s)) l.

(** [np.array(rows, float)] for a list of lists of strings: the rows must
    have one length. *)
Definition np_float2 (rows : list (list string)) : result (list (list float)) :=
  match rows with
  | [] => Ok []
  | r :: _ =>
      if forallb (λ r', length r' =? length r) rows
      then mapM np_float1 rows
      else Raise ValueError
  end.

(** *** The xyz reader of ASE *)

(** [StringIO(initial)]: an absent initial value is the empty text. *)
Definition StringIO (initial : option string) : string :=
  default EmptyString initial.

(** [fd.readlines()], without the line terminators. *)
Definition readlines (s : string) : list string :=
  let l := split_on LF s in
  match reverse l with
  | EmptyString :: l' => reverse l'
  | _ => l
  end.

(** [int(s)] for a line of text. *)
Definition py_int (s : string) : result Z :=
  match split s with
  | [w] =>
      let digits := match w with
                    | String "-" d => d | String "+" d => d | _ => w end in
      match NilEmpty.uint_of_string digits, digits with
      | Some u, String _ _ =>
          Ok (match w with
              | String "-" _ => - Z.of_uint u
              | _ => Z.of_uint u
              end)%Z
      | _, _ => Raise ValueError
      end
  | _ => Raise ValueError
  end.

Definition lower_char (c : ascii) : ascii :=
  let n := code c in
  if (65 <=? n) && (n <=? 90) then ascii_of_nat (n + 32) else c.
Definition upper_char (c : ascii) : ascii :=
  let n := code c in
  if (97 <=? n) && (n <=? 122) then ascii_of_nat (n - 32) else c.
Fixpoint lower (s : string) : string :=
  match s with
  | EmptyString => EmptyString
  | String c s' => String (lower_char c) (lower s')
  end.
(** [s.lower().capitalize()] *)
Definition capitalized (s : string) : string :=
  match lower s with
  | EmptyString => EmptyString
  | String c s' => String (upper_char c) s'
  end.

(** One atom line of an xyz frame: [symbol, x, y, z = line.split()[:4]]. *)
Definition xyz_atom_line (line : string) : result (string * list float) :=
  match take 4 (split line) with
  | [symbol; x; y; z] =>
      x ← of_option ValueError (float_of_str x);
      y ← of_option ValueError (float_of_str y);
      z ← of_option ValueError (float_of_str z);
      Ok (capitalized symbol, [x; y; z])
  | _ => Raise ValueError
  end.

(** Where [read_xyz] of [ase.io.xyz] stands in a frame. *)
Inductive xyz_state : Type :=
| AtHeader
| AtComment (natoms : Z)
| InBody (todo : nat) (syms : list string) (pos : list (list float)).

(** [read_xyz]: the frames of the text, line by line.  A frame is the
    number of atoms, a comment line, and one line per atom. *)
Fixpoint read_xyz_lines (st : xyz_state) (images : list Atoms)
    (ls : list string) : result (list Atoms) :=
  match ls with
  | [] =>
      match st with
      | AtHeader => Ok images
      | AtComment _ | InBody _ _ _ => Raise IndexError
      end
  | line :: ls' =>
      match st with
      | AtHeader =>
          natoms ← py_int line;
          read_xyz_lines (AtComment natoms) images ls'
      | AtComment natoms =>
          match Z.to_nat natoms with
          | O => a ← Atoms_init [] [];
                 read_xyz_lines AtHeader (images ++ [a]) ls'
          | S n => read_xyz_lines (InBody (S n) [] []) images ls'
          end
      | InBody todo syms pos =>
          '(s, r) ← xyz_atom_line line;
          match todo with
          | S (S n) => read_xyz_lines (InBody (S n) (syms ++ [s]) (pos ++ [r])) images ls'
          | _ => a ← Atoms_init (syms ++ [s]) (pos ++ [r]);
                 read_xyz_lines AtHeader (images ++ [a]) ls'
          end
      end
  end.

(** [ase.io.read(fd, format='xyz')]: the last frame of the text;
    [StopIteration] when the text has no frame. *)
Definition io_read_xyz (content : string) : result Atoms :=
  images ← read_xyz_lines AtHeader [] (readlines content);
  of_option StopIteration (last images).

(** [ase.io.write(fd, images, format='xyz')]: the lines written, for the
    frames of [images]. *)
Definition xyz_frame_lines (a : Atoms) : list string :=
  [dec (Z.of_nat (length (symbols a))); EmptyString]
  ++ zip_with (λ s '(x, y, z),
         ljust 2 s +:+ " " +:+ pct_22_15f x +:+ " " +:+ pct_22_15f y
         +:+ " " +:+ pct_22_15f z)
       (symbols a) (positions a).
Definition io_write_xyz (images : list Atoms) : list string :=
  images ≫= xyz_frame_lines.

(* ===================================================================== *)
(** ** The input reader: [parse_xyz], [parse_zmat], [read_aip] *)
(* ===================================================================== *)

(** ['>xyz\s+\d+\s+\d+' + '\s*\n(.*?)\n\s*end'], with [re.S] *)
Definition pattern_xyz : pattern :=
  lit ">xyz" ++ [plus isspace; plus isdecimal; plus isspace; plus isdecimal]
  ++ [star isspace; Lit LF; GOpen; lazy_star dotall; GClose; Lit LF;
      star isspace] ++ lit "end".

(** ['>coord\s*\n(.*?)\n\s*end'], with [re.S] *)
Definition pattern_coord : pattern :=
  lit ">coord" ++ [star isspace; Lit LF; GOpen; lazy_star dotall; GClose;
                   Lit LF; star isspace] ++ lit "end".

(** ['>zmat\s+\d+\s+\d+' + '\s*\n(.*?)\n\s*end'], with [re.S] *)
Definition pattern_zmat : pattern :=
  lit ">zmat" ++ [plus isspace; plus isdecimal; plus isspace; plus isdecimal]
  ++ [star isspace; Lit LF; GOpen; lazy_star dotall; GClose; Lit LF;
      star isspace] ++ lit "end".

Definition parse_xyz (text : string) : result Atoms :=
  let xyz_text := findall pattern_xyz text in
  let xyz_text :=
    match xyz_text with
    | [xyz_text] =>
        let natoms := length (split_on LF xyz_text) in
        (* transform into xyz then parse *)
        Some (dec (Z.of_nat natoms) +:+ NL +:+ NL +:+ xyz_text)
    | _ => None
    end in
  io_read_xyz (StringIO xyz_text).

(** [ase.io.zmatrix.parse_zmatrix(zmat, defs=coord)], a collaborator. *)
Variable parse_zmatrix : option string → string → result Atoms.

Definition parse_zmat (text : string) : result Atoms :=
  let coord := findall pattern_coord text in
  let coord :=
    match coord with
    | [coord] =>
        join NL ((λ c, join "=" (take 2 (split c))) <$> split_on LF coord)
    | _ => EmptyString
    end in
  let zmat := findall pattern_zmat text in
  let zmat := match zmat with [zmat] => Some zmat | _ => None end in
  parse_zmatrix zmat coord.

(** [read_aip]: the structure of an input transcript, or [None]. *)
Definition read_aip (text : string) : result (option Atoms) :=
  if contains ">xyz" text then Some <$> parse_xyz text
  else if contains ">zmat" text then Some <$> parse_zmat text
  else Ok None.

(* ===================================================================== *)
(** ** The output section extractors *)
(* ===================================================================== *)

(** ['Current Geometry\(angstroms\):' + '\n\s*\n(.*?)\n\s*\n'], [re.S] *)
Definition pattern_aop_xyz : pattern :=
  lit "Current Geometry(angstroms):"
  ++ [Lit LF; star isspace; Lit LF; GOpen; lazy_star dotall; GClose;
      Lit LF; star isspace; Lit LF].

(** ['\w+ charges:\n\s*\n(.*?)\n\s*' + 'Sum of \w+ charges'], [re.S] *)
Definition pattern_charge : pattern :=
  [plus isword] ++ lit " charges:"
  ++ [Lit LF; star isspace; Lit LF; GOpen; lazy_star dotall; GClose;
      Lit LF; star isspace]
  ++ lit "Sum of " ++ [plus isword] ++ lit " charges".

(** ['Spin densities:\n\s*\n(.*?)\n\s*\n'], [re.S] *)
Definition pattern_spin : pattern :=
  lit "Spin densities:"
  ++ [Lit LF; star isspace; Lit LF; GOpen; lazy_star dotall; GClose;
      Lit LF; star isspace; Lit LF].

(** ['Dipole moment \(.*?\):\n' + '\s*X=\s*(.*?)' + '\s*Y=\s*(.*?)'
     + '\s*Z=\s*(.*?)' + '\s*Tot='], [re.S] *)
Definition pattern_dipole : pattern :=
  lit "Dipole moment (" ++ [lazy_star dotall] ++ lit "):" ++ [Lit LF]
  ++ [star isspace] ++ lit "X="
  ++ [star isspace; GOpen; lazy_star dotall; GClose]
  ++ [star isspace] ++ lit "Y="
  ++ [star isspace; GOpen; lazy_star dotall; GClose]
  ++ [star isspace] ++ lit "Z="
  ++ [star isspace; GOpen; lazy_star dotall; GClose]
  ++ [star isspace] ++ lit "Tot=".

(** ['ETot =\s*(.*?)\s*Ekin'], without [re.S] *)
Definition pattern_energy : pattern :=
  lit "ETot =" ++ [star isspace; GOpen; lazy_star dot; GClose; star isspace]
  ++ lit "Ekin".

(** ['Cartesian Gradient \(.*?\):\n' + '\s*x\s*y\s*z\n(.*?)\n\s*\n'], [re.S] *)
Definition pattern_gradient : pattern :=
  lit "Cartesian Gradient (" ++ [lazy_star dotall] ++ lit "):" ++ [Lit LF]
  ++ [star isspace; Lit "x"; star isspace; Lit "y"; star isspace; Lit "z";
      Lit LF; GOpen; lazy_star dotall; GClose; Lit LF; star isspace; Lit LF].

(** ['Cartesian Force \(.*?\):\n' + '\s*x\s*y\s*z\n(.*?)\n\s*\n'], [re.S] *)
Definition pattern_force : pattern :=
  lit "Cartesian Force (" ++ [lazy_star dotall] ++ lit "):" ++ [Lit LF]
  ++ [star isspace; Lit "x"; star isspace; Lit "y"; star isspace; Lit "z";
      Lit LF; GOpen; lazy_star dotall; GClose; Lit LF; star isspace; Lit LF].

(** [[x.split()[0] for x in xyz.split('\n')]] *)
Definition first_tokens (block : string) : result (list string) :=
  mapM (λ x, getitem (split x) 0) (split_on LF block).

(** [[c.split()[-1] for c in block.split('\n')]] *)
Definition last_tokens (block : string) : result (list string) :=
  mapM (λ c, getitem (split c) (-1)) (split_on LF block).

(** [[x.split()[1:] for x in block.split('\n')]] *)
Definition tail_tokens (block : string) : list (list string) :=
  (λ x, drop 1 (split x)) <$> split_on LF block.

Definition parse_aop_xyz (text : string)
  : result (list (list string) * list (list (list float))) :=
  let xyz_array := findall pattern_aop_xyz text in
  element ← mapM first_tokens xyz_array;
  position ← mapM (λ xyz, np_float2 (tail_tokens xyz)) xyz_array;
  Ok (element, position).

(** [v * c] for an array [v] and a unit [c] *)
Definition times (c : float) (v : list float) : list float :=
  (λ x, fmul x c) <$> v.

(** [[None for i in range(n)]] *)
Definition absent {A} (n : nat) : list (option A) := replicate n None.

Definition parse_aop_charge (text : string) (n : nat)
  : result (list (option (list float))) :=
  let charge_array := findall pattern_charge text in
  charge_array ← mapM (λ charge, last_tokens charge ≫= np_float1) charge_array;
  let charge_array := upto (n + 1) charge_array in
  if length charge_array =? 0 then Ok (absent n)
  else Ok (Some <$> charge_array).

Definition parse_aop_spin (text : string) (n : nat)
  : result (list (option (list float))) :=
  let spin_array := findall pattern_spin text in
  spin_array ← mapM (λ spin, last_tokens spin ≫= np_float1) spin_array;
  let spin_array := upto (n + 1) spin_array in
  if length spin_array =? 0 then Ok (absent n)
  else Ok (Some <$> spin_array).

Definition parse_aop_dipole (text : string) (n : nat)
  : result (list (list float)) :=
  let dipole := findall_groups pattern_dipole text in
  dipole ← mapM (λ d, v ← np_float1 d; Ok (times Bohr v)) dipole;
  let dipole := upto (n + 1) dipole in
  Ok dipole.

Definition parse_aop_energy (text : string) (n : nat) : result (list float) :=
  let energy := findall pattern_energy text in
  energy ← np_float1 energy;
  let energy := times Hartree energy in
  let energy := upto (n + 1) energy in
  Ok energy.

(** [x*Hartree/Bohr] and [x*Hartree/Bohr*(-1)], entry by entry *)
Definition force_units (x : float) : float := fdiv (fmul x Hartree) Bohr.
Definition gradient_units (x : float) : float :=
  fmul (fdiv (fmul x Hartree) Bohr) (float_of_int (-1)).

Definition scale (f : float → float) (m : list (list float))
  : list (list float) := (λ r : list float, f <$> r) <$> m.

Definition parse_aop_gradient (text : string) (n : nat)
  : result (list (option (list (list float)))) :=
  let force_data := findall pattern_gradient text in
  if 0 <? length force_data then
    force_data ← mapM (λ force,
        m ← np_float2 (tail_tokens force);
        Ok (scale gradient_units m)) force_data;
    let force_data := upto (n + 1) force_data in
    Ok (Some <$> force_data)
  else Ok (absent n).

Definition parse_aop_force (text : string)
  : result (option (list (list float))) :=
  let force_data := findall pattern_force text in
  match force_data with
  | force :: _ =>
      m ← np_float2 (tail_tokens force);
      Ok (Some (scale force_units m))
  | [] => Ok None
  end.

(* ===================================================================== *)
(** ** The trajectory assembler: [iread_aop], [read_aop];
       the calculator: [Amesp.read_results] *)
(* ===================================================================== *)

(** The [results] dictionary that [iread_aop] builds for an image. *)
Record Results : Type := mkResults {
  energy : float;
  forces : option (list (list float));
  dipole : list float;
  charges : option (list float);
  magmoms : option (list float);
}.

(** An [Atoms] object with its calculator's results. *)
Record Image : Type := mkImage { atoms : Atoms; results : Results }.

Definition iread_aop (text : string) : result (list Image) :=
  (* xyz *)
  '(element, position) ← parse_aop_xyz text;
  let nimage := length element in
  charge ← parse_aop_charge text nimage;
  magmom ← parse_aop_spin text nimage;
  dipole ← parse_aop_dipole text nimage;
  energy ← parse_aop_energy text nimage;
  force ← parse_aop_gradient text nimage;
  mapM (λ i,
      el ← getitem element (Z.of_nat i);
      pos ← getitem position (Z.of_nat i);
      atoms ← Atoms_init el pos;
      e ← getitem energy (Z.of_nat i);
      f ← getitem force (Z.of_nat i);
      d ← getitem dipole (Z.of_nat i);
      c ← getitem charge (Z.of_nat i);
      m ← getitem magmom (Z.of_nat i);
      Ok (mkImage atoms (mkResults e f d c m)))
    (seq 0 nimage).

Definition read_aop (text : string) (index : Z) : result Image :=
  images ← iread_aop text;
  getitem images index.

(** The [results] dictionary that [Amesp.read_results] fills. *)
Record CalcResults : Type := mkCalcResults {
  calc_charge : option (list float);
  calc_magmoms : option (list float);
  calc_dipole : list float;
  calc_energy : float;
  calc_forces : option (list (list float));
}.

Definition read_results (text : string) : result CalcResults :=
  '(element, position) ← parse_aop_xyz text;
  let nimage := length element in
  charge ← parse_aop_charge text nimage ≫= (λ l, getitem l (-1));
  magmoms ← parse_aop_spin text nimage ≫= (λ l, getitem l (-1));
  dipole ← parse_aop_dipole text nimage ≫= (λ l, getitem l (-1));
  energy ← parse_aop_energy text nimage ≫= (λ l, getitem l (-1));
  forces ← parse_aop_force text;
  Ok (mkCalcResults charge magmoms dipole energy forces).

(* ===================================================================== *)
(** ** Parameter values and the store of keyword dictionaries *)
(* ===================================================================== *)

(** The values of a parameter set.  A dictionary keeps its items in
    insertion order.  Nested lists and mappings are values: the writer
    reads them and never updates one in place ([kv[k1] = v1] and
    [text += keywords] update a dictionary and a list that the writer
    itself creates); the dictionary that it does update, [kw], is an object
    of the store. *)
#[warnings="-register-all"]
Inductive value : Type :=
| VNone
| VStr (s : string)
| VFloat (x : float)
| VBool (b : bool)
| VInt (z : Z)
| VList (l : list value)
| VDict (d : list (string * value)).

Abbreviation pydict := (list (string * value)) (only parsing).

Inductive pytype : Type := Tstr | Tfloat | Tbool | Tint | Tlist | Tdict | TNoneType.

Definition type_of (v : value) : pytype :=
  match v with
  | VNone => TNoneType | VStr _ => Tstr | VFloat _ => Tfloat
  | VBool _ => Tbool | VInt _ => Tint | VList _ => Tlist | VDict _ => Tdict
  end.

Definition pytype_eqb (a b : pytype) : bool :=
  match a, b with
  | Tstr, Tstr | Tfloat, Tfloat | Tbool, Tbool | Tint, Tint
  | Tlist, Tlist | Tdict, Tdict | TNoneType, TNoneType => true
  | _, _ => false
  end.

(** [isinstance(v, t)]: [bool] is a subclass of [int]. *)
Definition isinstance (v : value) (t : pytype) : bool :=
  pytype_eqb (type_of v) t
  || (pytype_eqb (type_of v) Tbool && pytype_eqb t Tint).

(** [k in d], [d.get(k)], [d.pop(k)] and [d[k] = v] *)
Definition dict_in (k : string) (d : pydict) : bool :=
  existsb (λ kv, String.eqb (fst kv) k) d.
Fixpoint dict_get (k : string) (d : pydict) : option value :=
  match d with
  | [] => None
  | (k', v) :: d' => if String.eqb k' k then Some v else dict_get k d'
  end.
Fixpoint dict_del (k : string) (d : pydict) : pydict :=
  match d with
  | [] => []
  | (k', v) :: d' => if String.eqb k' k then d' else (k', v) :: dict_del k d'
  end.
Fixpoint dict_set {V} (k : string) (v : V) (d : list (string * V))
  : list (string * V) :=
  match d with
  | [] => [(k, v)]
  | (k', v') :: d' =>
      if String.eqb k' k then (k, v) :: d' else (k', v') :: dict_set k v d'
  end.

(** The dictionary objects that are alive, by location. *)
Abbreviation loc := nat (only parsing).
Abbreviation store := (list pydict) (only parsing).

(** A computation that reads and updates the store and may raise. *)
Definition Prog (A : Type) : Type := store → result A * store.

Definition ret {A} (a : A) : Prog A := λ σ, (Ok a, σ).
Definition raise {A} (e : exn) : Prog A := λ σ, (Raise e, σ).
Definition bind {A B} (m : Prog A) (f : A → Prog B) : Prog B := λ σ,
  match m σ with
  | (Ok a, σ') => f a σ'
  | (Raise e, σ') => (Raise e, σ')
  end.
Definition lift {A} (r : result A) : Prog A := λ σ, (r, σ).
#[global] Instance prog_ret : MRet Prog := @ret.
#[global] Instance prog_bind : MBind Prog := λ A B f m, bind m f.

Definition deref (l : loc) (σ : store) : pydict := default [] (σ !! l).

(** A new dictionary object with the items [d]. *)
Definition alloc (d : pydict) : Prog loc := λ σ, (Ok (length σ), σ ++ [d]).

(** [deepcopy(kw)]: a new object with copies of the items. *)
Definition deepcopy (kw : loc) : Prog loc := λ σ, alloc (deref kw σ) σ.

(** [**p] at a call: a new object with the items of [p]. *)
Definition collect_kwargs (p : loc) : Prog loc := λ σ, alloc (deref p σ) σ.

(** [k in kw] *)
Definition kw_in (k : string) (kw : loc) : Prog bool := λ σ,
  (Ok (dict_in k (deref kw σ)), σ).
(** [kw.get(k)] *)
Definition kw_get (k : string) (kw : loc) : Prog value := λ σ,
  (Ok (default VNone (dict_get k (deref kw σ))), σ).
(** [kw.pop(k)] *)
Definition kw_pop (k : string) (kw : loc) : Prog value := λ σ,
  match dict_get k (deref kw σ) with
  | Some v => (Ok v, <[kw := dict_del k (deref kw σ)]> σ)
  | None => (Raise KeyError, σ)
  end.
(** [kw.items()] *)
Definition kw_items (kw : loc) : Prog pydict := λ σ, (Ok (deref kw σ), σ).

(* ===================================================================== *)
(** ** The input writer *)
(* ===================================================================== *)

(** ['%d' % v] *)
Definition pct_d (v : value) : result string :=
  match v with
  | VInt z => Ok (dec z)
  | VBool b => Ok (dec (if b then 1 else 0))
  | VFloat x => pct_d_float x
  | _ => Raise TypeError
  end.

(** The argument [atoms] of the writer: a structure, or a list of them. *)
Inductive structure : Type :=
| One (a : Atoms)
| Images (l : list Atoms).

Definition write_xyz (atoms : structure) (kw : loc) : Prog string :=
  has_charge ← kw_in "charge" kw;
  charge ←
    (if has_charge : bool then kw_pop "charge" kw
     else match atoms with
          | One a => ret (VFloat (fsum (get_initial_charges a)))
          | Images _ => raise AttributeError
          end);
  has_mult ← kw_in "mult" kw;
  mult ←
    (if has_mult : bool then kw_pop "mult" kw
     else match atoms with
          | One a =>
              mult ← lift (round_int (fsum (get_initial_magnetic_moments a)));
              ret (VInt (Z.abs mult + 1))
          | Images _ => raise AttributeError
          end);
  let written :=
    io_write_xyz (match atoms with One a => [a] | Images l => l end) in
  let text := (λ line, line +:+ NL) <$> drop 2 written in
  charge ← lift (pct_d charge);
  mult ← lift (pct_d mult);
  let text := [">xyz " +:+ charge +:+ " " +:+ mult +:+ NL] ++ text ++ ["end"] in
  ret (join EmptyString text).

Definition write_job (kw : loc) : Prog string :=
  let text := [] in
  has_npara ← kw_in "npara" kw;
  text ←
    (if has_npara : bool then
       npara ← kw_pop "npara" kw;
       npara ← lift (pct_d npara);
       ret (text ++ ["% npara " +:+ npara])
     else ret text);
  has_maxcore ← kw_in "maxcore" kw;
  text ←
    (if has_maxcore : bool then
       maxcore ← kw_get "maxcore" kw;
       maxcore ← lift (pct_d maxcore);
       ret (text ++ ["% maxcore " +:+ maxcore])
     else ret text);
  ret (join NL text).

(** The items that [text += v] appends. *)
Definition iterate (v : value) : result (list value) :=
  match v with
  | VList l => Ok l
  | VStr s => Ok (VStr <$> chars s)
  | VDict d => Ok ((λ kv, VStr (fst kv)) <$> d)
  | _ => Raise TypeError
  end.

(** [sep.join(l)] for a list of values: every item must be a string. *)
Definition join_values (sep : string) (l : list value) : result string :=
  l ← mapM (λ v, match v with VStr s => Ok s | _ => Raise TypeError end) l;
  Ok (join sep l).

Definition write_keywords (properties : option (list string)) (kw : loc)
  : Prog string :=
  has_keywords ← kw_in "keywords" kw;
  keywords ←
    (if has_keywords : bool then kw_pop "keywords" kw
     else ret (VList [VStr "pbe0"; VStr "def2-svp"]));
  let text := [VStr "!"] in
  more ← lift (iterate keywords);
  let text := text ++ more in
  lift (join_values " " text).

(** parse key-value pair in parameter blocks *)
Definition kv_fmt (k : string) (v : value) : option string :=
  if isinstance v Tstr then
    match v with VStr s => Some (" " +:+ k +:+ " " +:+ s) | _ => None end
  else if isinstance v Tfloat then
    match v with VFloat x => Some (" " +:+ k +:+ " " +:+ pct_f x) | _ => None end
  else if isinstance v Tbool then
    match v with
    | VBool b => Some (" " +:+ k +:+ " " +:+ (if b then "on" else "off"))
    | _ => None
    end
  else if isinstance v Tint then
    match v with VInt z => Some (" " +:+ k +:+ " " +:+ dec z) | _ => None end
  else None.

(** [isinstance(v1, (str, bool, int, float))] *)
Definition is_scalar (v : value) : bool :=
  isinstance v Tstr || isinstance v Tbool || isinstance v Tint
  || isinstance v Tfloat.

(** The first loop of [write_dict]: the blocks and their scalar items. *)
Definition collect_blocks (items : pydict) : list (string * pydict) :=
  foldl (λ block '(k0, v0),
      match v0 with
      | VDict d =>
          let kv := foldl (λ kv '(k1, v1),
                       if is_scalar v1 then dict_set k1 v1 kv else kv) [] d in
          if 0 <? length kv then dict_set k0 kv block else block
      | _ => block
      end) [] items.

(** The second loop of [write_dict]: the lines of the blocks. *)
Definition block_lines (block : list (string * pydict)) : list string :=
  '(k0, v0) ← block;
  let kv_text := omap (λ '(k1, v1), kv_fmt k1 v1) v0 in
  [">" +:+ k0; join NL kv_text; "end"].

Definition write_dict (kw : loc) : Prog string :=
  items ← kw_items kw;
  let block := collect_blocks items in
  if 0 <? length block then ret (join NL (block_lines block))
  else ret EmptyString.

Definition write_aip (atoms : structure) (properties : option (list string))
    (kw : loc) : Prog string :=
  let atoms :=
    match atoms with
    | One a => One a
    | Images l =>
        if 1 <? length l then
          match last l with Some a => One a | None => Images l end
        else Images l
    end in
  kw ← deepcopy kw;
  (* job control *)
  job ← write_job kw;
  (* keywords *)
  keywords ← write_keywords properties kw;
  (* block *)
  block ← write_dict kw;
  (* molecular structure *)
  xyz ← write_xyz atoms kw;
  (* blank filter *)
  let text :=
    filter (λ t, 0 < String.length t) [job; keywords; block; xyz] in
  ret (join NL text).

(** The names that the call [write_aip(fd, atoms, properties=properties,
    **p)] of [Amesp.write_input] binds itself: the parameters [fd] and
    [atoms] of [write_aip] by position, [properties] by keyword. *)
Definition bound_names : list string := ["fd"; "atoms"; "properties"].

(** A parameter set with one of these names as a key: the call would have
    two values for the name. *)
Definition collides (items : pydict) : bool :=
  existsb (λ name, dict_in name items) bound_names.

(** [write_aip(fd, atoms, properties=properties, **p)]: a call with two
    values for a name raises [TypeError] before the body of [write_aip]
    runs; otherwise the keyword arguments are collected in a new dictionary
    [kw].  The decorator [writer] of ASE is taken to hand the arguments on
    as it receives them; the names of its own parameters are outside this
    model. *)
Definition write_input (atoms : structure) (properties : option (list string))
    (p : loc) : Prog string :=
  items ← kw_items p;
  if collides items then raise TypeError
  else
    kw ← collect_kwargs p;
    write_aip atoms properties kw.

(* ===================================================================== *)
(** ** What a writer step may do to the store *)
(* ===================================================================== *)

(** [m] keeps the number of objects and updates no object but [w]. *)
Definition confined {A} (w : loc) (m : Prog A) : Prop :=
  ∀ σ, length (m σ).2 = length σ ∧ ∀ l, l ≠ w → (m σ).2 !! l = σ !! l.

(** [m1] on the object [w1] and [m2] on the object [w2] have one outcome
    and leave equal objects whenever they start from equal objects. *)
Definition agree {A} (w1 w2 : loc) (m1 m2 : Prog A) : Prop :=
  ∀ σ1 σ2, σ1 !! w1 = σ2 !! w2 →
    (m1 σ1).1 = (m2 σ2).1 ∧ (m1 σ1).2 !! w1 = (m2 σ2).2 !! w2.

(* ===================================================================== *)
(** ** The named blocks as the specification words them *)
(* ===================================================================== *)

(** A dictionary has one item per key. *)
Definition unique_keys {V} (d : list (string * V)) : Prop := NoDup d.*1.

(** The parameter set is well formed: one item per key, also inside each
    nested mapping. *)
Definition well_formed (items : pydict) : Prop :=
  unique_keys items ∧
  Forall (λ kv, match kv.2 with VDict d => unique_keys d | _ => True end)
    items.

(** A block: [>name], one formatted line per key that the value
    formatter renders, [end]. *)
Definition spec_block (name : string) (d : pydict) : list string :=
  [">" +:+ name; join NL (omap (λ '(k, v), kv_fmt k v) d); "end"].

(** The scalar items of a mapping, in order. *)
Definition scalar_items (d : pydict) : pydict :=
  filter (λ kv, is_scalar kv.2 = true) d.

(** The named-block group: a block for every parameter whose value is a
    mapping with at least one key that the formatter renders, in the
    order of the parameter set. *)
Definition spec_block_lines (items : pydict) : list string :=
  '(k0, v0) ← items;
  match v0 with
  | VDict d =>
      if 0 <? length (omap (λ '(k, v), kv_fmt k v) d)
      then spec_block k0 d else []
  | _ => []
  end.

Definition spec_blocks (items : pydict) : string :=
  join NL (spec_block_lines items).

End Amesp.

Arguments Atoms : clear implicits.
Arguments value : clear implicits.

Abbreviation pydict := (list (string * value _)) (only parsing).
Abbreviation loc := nat (only parsing).
Abbreviation store := (list (list (string * value _))) (only parsing).

(* ===================================================================== *)
(** ** A runtime over exact rationals *)
(* ===================================================================== *)

Module QRuntime.

(** The value and the number of the leading decimal digits of [s], and
    the text after them. *)
Fixpoint digits (acc : Z) (n : nat) (s : string) : Z * nat * string :=
  match s with
  | String c s' =>
      if isdecimal c
      then digits (10 * acc + Z.of_nat (code c - 48)) (S n) s'
      else (acc, n, s)
  | EmptyString => (acc, n, s)
  end.

Definition signed (s : string) : bool * string :=
  match s with
  | String "-" s' => (true, s')
  | String "+" s' => (false, s')
  | _ => (false, s)
  end.

(** The exponent part of a literal, [e] or [E] and a signed integer;
    nothing else may follow. *)
Definition exponent (s : string) : option Z :=
  match s with
  | EmptyString => Some 0%Z
  | String c s' =>
      if Ascii.eqb c "e" || Ascii.eqb c "E" then
        let '(neg, s'') := signed s' in
        match digits 0 0 s'' with
        | (v, S _, EmptyString) => Some (if neg then - v else v)%Z
        | _ => None
        end
      else None
  end.

Definition pow10 (n : Z) : Z := (10 ^ n)%Z.

(** [m * 10^e] *)
Definition scaled (m e : Z) : Q :=
  if (0 <=? e)%Z then inject_Z (m * pow10 e)
  else Qred (Qmake m (Z.to_pos (pow10 (- e)))).

(** [float(s)] for a decimal literal: a sign, digits with an optional
    fraction, an optional exponent. *)
Definition parse_float (s : string) : option Q :=
  let '(neg, s) := signed s in
  let '(ip, n1, s) := digits 0 0 s in
  let '(m, n2, s) :=
    match s with
    | String "." s' => let '(m, n2, s'') := digits ip 0 s' in (m, n2, s'')
    | _ => (ip, 0, s)
    end in
  if (n1 + n2 =? 0)%nat then None
  else
    e ← exponent s;
    Some (scaled (if neg then - m else m) (e - Z.of_nat n2)).

(** The integer nearest to [q], ties to even. *)
Definition round_half_even (q : Q) : Z :=
  let n := Qnum q in
  let d := Zpos (Qden q) in
  let f := (n / d)%Z in
  let r := (n mod d)%Z in
  match (2 * r ?= d)%Z with
  | Lt => f
  | Gt => (f + 1)%Z
  | Eq => if Z.even f then f else (f + 1)%Z
  end.

Fixpoint zeros (n : nat) : string :=
  match n with O => EmptyString | S n' => String "0" (zeros n') end.

(** ['%.pf' % q]: [p] digits after the point. *)
Definition fixed (p : nat) (q : Q) : string :=
  let neg := (Qnum q <? 0)%Z in
  let m := round_half_even
    (Qmult (Qmake (Z.abs (Qnum q)) (Qden q)) (inject_Z (pow10 (Z.of_nat p)))) in
  let ds := dec m in
  let ds := zeros (S p - String.length ds) +:+ ds in
  let k := String.length ds - p in
  (if neg then "-" else EmptyString)
  +:+ substring 0 k ds
  +:+ (if (p =? 0)%nat then EmptyString else "." +:+ substring k p ds).

(** [ase.data.chemical_symbols] *)
Definition chemical_symbols : list string :=
  ["X"; "H"; "He"; "Li"; "Be"; "B"; "C"; "N"; "O"; "F"; "Ne";
   "Na"; "Mg"; "Al"; "Si"; "P"; "S"; "Cl"; "Ar"; "K"; "Ca";
   "Sc"; "Ti"; "V"; "Cr"; "Mn"; "Fe"; "Co"; "Ni"; "Cu"; "Zn";
   "Ga"; "Ge"; "As"; "Se"; "Br"; "Kr"; "Rb"; "Sr"; "Y"; "Zr";
   "Nb"; "Mo"; "Tc"; "Ru"; "Rh"; "Pd"; "Ag"; "Cd"; "In"; "Sn";
   "Sb"; "Te"; "I"; "Xe"; "Cs"; "Ba"; "La"; "Ce"; "Pr"; "Nd";
   "Pm"; "Sm"; "Eu"; "Gd"; "Tb"; "Dy"; "Ho"; "Er"; "Tm"; "Yb";
   "Lu"; "Hf"; "Ta"; "W"; "Re"; "Os"; "Ir"; "Pt"; "Au"; "Hg";
   "Tl"; "Pb"; "Bi"; "Po"; "At"; "Rn"; "Fr"; "Ra"; "Ac"; "Th";
   "Pa"; "U"; "Np"; "Pu"; "Am"; "Cm"; "Bk"; "Cf"; "Es"; "Fm";
   "Md"; "No"; "Lr"; "Rf"; "Db"; "Sg"; "Bh"; "Hs"; "Mt"; "Ds";
   "Rg"; "Cn"; "Nh"; "Fl"; "Mc"; "Lv"; "Ts"; "Og"].

Fixpoint position_of (s : string) (l : list string) (i : nat) : option nat :=
  match l with
  | [] => None
  | x :: l' => if String.eqb x s then Some i else position_of s l' (S i)
  end.

(** [ase.units]: CODATA 2014 *)
Definition Hartree_eV : Q := Qmake 27211386024367243 1000000000000000.
Definition Bohr_angstrom : Q := Qmake 5291772105638411 10000000000000000.

#[export] Instance runtime : Runtime := {|
  float := Q;
  float_of_str := parse_float;
  float_of_int := inject_Z;
  fmul x y := Qred (Qmult x y);
  fdiv x y := Qred (Qdiv x y);
  fsum l := Qred (foldl Qplus (inject_Z 0) l);
  Hartree := Hartree_eV;
  Bohr := Bohr_angstrom;
  pct_f := fixed 6;
  pct_22_15f x := rjust 22 (fixed 15 x);
  pct_d_float x := Ok (dec (Z.quot (Qnum x) (Zpos (Qden x))));
  round_int x := Ok (round_half_even x);
  atomic_number s := position_of s chemical_symbols 0;
|}.

(** Equality of outcomes is decidable, so that a concrete outcome can be
    checked by evaluation. *)
#[export] Instance exn_eq_dec : EqDecision exn.
Proof. solve_decision. Defined.
#[export] Instance result_eq_dec {A} `{EqDecision A} : EqDecision (result A).
Proof. solve_decision. Defined.
#[export] Instance Q_eq_dec : EqDecision Q.
Proof. solve_decision. Defined.
#[export] Instance Atoms_eq_dec : EqDecision (Atoms runtime).
Proof. solve_decision. Defined.
#[export] Instance Results_eq_dec : EqDecision (@Results runtime).
Proof. solve_decision. Defined.
#[export] Instance Image_eq_dec : EqDecision (@Image runtime).
Proof. solve_decision. Defined.
#[export] Instance CalcResults_eq_dec : EqDecision (@CalcResults runtime).
Proof. solve_decision. Defined.

End QRuntime.

(* ===================================================================== *)
(** ** Sample transcripts and parameter sets *)
(* ===================================================================== *)

Module Samples.
Import QRuntime.

(** The lines of a transcript, joined by line feeds. *)
Definition lines (l : list string) : string := join NL l.

(** An empty line. *)
Definition blank : string := EmptyString.

(** One section of an output transcript each. *)
Definition geometry (z : string) : list string :=
  [" Current Geometry(angstroms):"; blank;
   "  H    0.000000    0.000000    0.000000";
   "  H    0.000000    0.000000    " +:+ z; blank].
Definition mulliken : list string :=
  [" Mulliken charges:"; blank;
   "   1 H    0.100000";
   "   2 H   -0.100000";
   " Sum of Mulliken charges =   0.00000"; blank].
Definition dipole_moment : list string :=
  [" Dipole moment (a.u.):";
   "   X=    0.0000    Y=    0.0000    Z=    0.5000    Tot=    0.5000"; blank].
Definition total_energy : list string :=
  [" ETot =   -1.11750000  Ekin =   1.10000000"; blank].
Definition gradient (g : string) : list string :=
  [" Cartesian Gradient (Hartree/Bohr):";
   "        x        y       z";
   " H  0.0  0.0  " +:+ g;
   " H  0.0  0.0 -" +:+ g; blank; blank].
Definition force : list string :=
  [" Cartesian Force (Hartree/Bohr):";
   "        x        y       z";
   " H  0.0  0.0  2.0";
   " H  0.0  0.0 -2.0"; blank; blank].

(** A single-point output with every section. *)
Definition single_point : string :=
  lines (geometry "0.740000" ++ total_energy ++ mulliken ++ dipole_moment
         ++ gradient "1.0" ++ force).

(** A two-step trajectory with every section at every step. *)
Definition two_steps : string :=
  lines (geometry "0.740000" ++ total_energy ++ mulliken ++ dipole_moment
         ++ gradient "1.0"
         ++ geometry "0.750000" ++ total_energy ++ mulliken ++ dipole_moment
         ++ gradient "3.0" ++ force).

(** A two-step trajectory whose second step prints no charges. *)
Definition two_steps_one_charges : string :=
  lines (geometry "0.740000" ++ total_energy ++ mulliken ++ dipole_moment
         ++ geometry "0.750000" ++ total_energy ++ dipole_moment).

(** Single-point outputs without a dipole section, without an energy
    line, and without charges. *)
Definition no_dipole : string :=
  lines (geometry "0.740000" ++ total_energy ++ mulliken).
Definition no_energy : string :=
  lines (geometry "0.740000" ++ mulliken ++ dipole_moment).
Definition no_charges : string :=
  lines (geometry "0.740000" ++ total_energy ++ dipole_moment).


(** An output without a geometry section. *)
Definition no_geometry : string :=
  lines (total_energy ++ mulliken ++ dipole_moment).

(** Input transcripts. *)
Definition methane_aip : string :=
  lines ["! hf 3-21g"; ">method"; "  eda mayer"; "end"; ">xyz 0 1";
         " C        0.          0.         0.";
         " H        0.629118   0.629118   0.629118";
         " H       -0.629118  -0.629118   0.629118";
         " H        0.629118  -0.629118  -0.629118";
         " H        0.629118   0.629118  -0.629118";
         "end"].
Definition two_regions_aip : string :=
  lines ["! hf 3-21g"; ">xyz 0 1"; " H 0.0 0.0 0.0"; "end";
         ">xyz 0 1"; " H 0.0 0.0 1.0"; "end"].
Definition no_region_aip : string :=
  lines ["! hf 3-21g"; ">xyz"; " H 0.0 0.0 0.0"; "end"].
Definition no_geometry_aip : string :=
  lines ["! hf 3-21g"; ">method"; "  eda mayer"; "end"].
Definition anion_aip : string :=
  lines ["! hf 3-21g"; ">xyz -1 1"; " H 0.0 0.0 0.0"; "end"].
(** A malformed Cartesian header next to a complete internal-coordinate
    region. *)
Definition zmat_and_xyz_aip : string :=
  lines ["! hf 3-21g"; ">xyz 0"; ">zmat 0 1"; " H"; " H 1 0.74"; "end"].

(** Structures and parameter sets. *)
Definition hydrogen_atom : Atoms runtime :=
  mkAtoms ["H"] [(inject_Z 0, inject_Z 0, inject_Z 0)] None None.
Definition anion_parameters : list (string * value runtime) :=
  [("charge", VInt (-1)); ("mult", VInt 1)].
Definition job_parameters : list (string * value runtime) :=
  [("npara", VInt 4); ("maxcore", VInt 1024);
   ("keywords", VList [VStr "hf"; VStr "3-21g"]);
   ("method", VDict [("eda", VStr "mayer"); ("guess", VNone);
                     ("diis", VBool true); ("damp", VFloat (Qmake 1 4));
                     ("maxiter", VInt 50)]);
   ("scf", VDict [("start", VNone)]);
   ("charge", VInt 0); ("mult", VInt 1)].

(** The transcript that the writer produces for [hydrogen_atom] and
    [anion_parameters]. *)
Definition anion_written : string :=
  lines ["! pbe0 def2-svp"; ">xyz -1 1";
         "H       0.000000000000000      0.000000000000000"
         +:+ "      0.000000000000000";
         "end"].

(** The named blocks that the writer produces for [job_parameters]. *)
Definition job_blocks : string :=
  lines [">method"; " eda mayer"; " diis on"; " damp 0.250000";
         " maxiter 50"; "end"].


(** What the extractors and the assembler return for [two_steps]. *)
Definition returned {A} (r : result A) (otherwise : A) : A :=
  match r with Ok a => a | Raise _ => otherwise end.
Definition two_steps_element : list (list string) :=
  Eval vm_compute in (returned (parse_aop_xyz two_steps) ([], [])).1.
Definition two_steps_position : list (list (list Q)) :=
  Eval vm_compute in (returned (parse_aop_xyz two_steps) ([], [])).2.
Definition two_steps_charge : list (option (list Q)) :=
  Eval vm_compute in returned (parse_aop_charge two_steps 2) [].
Definition two_steps_magmom : list (option (list Q)) :=
  Eval vm_compute in returned (parse_aop_spin two_steps 2) [].
Definition two_steps_dipole : list (list Q) :=
  Eval vm_compute in returned (parse_aop_dipole two_steps 2) [].
Definition two_steps_energy : list Q :=
  Eval vm_compute in returned (parse_aop_energy two_steps 2) [].
Definition two_steps_force : list (option (list (list Q))) :=
  Eval vm_compute in returned (parse_aop_gradient two_steps 2) [].
Definition two_steps_images : list (@Image runtime) :=
  Eval vm_compute in returned (iread_aop two_steps) [].
Definition two_steps_results : @CalcResults runtime :=
  Eval vm_compute in
    returned (read_results two_steps)
      (mkCalcResults None None [] (inject_Z 0) None).

(** A z-matrix resolver for the examples: it accepts every region. *)
Definition any_zmatrix (zmat : option string) (defs : string)
  : result (Atoms runtime) :=
  match zmat with
  | Some _ => Ok hydrogen_atom
  | None => Raise TypeError
  end.

End Samples.

(* ===================================================================== *)
(** ** Notions for the properties of the readers and the writer *)
(* ===================================================================== *)

Section Notions.
Context {RT : Runtime}.

(** A structure as [Atoms(symbols, positions)] accepts it: one position
    per symbol, and every symbol in the periodic table. *)
Definition valid_structure (a : Atoms RT) : Prop :=
  length (positions a) = length (symbols a) ∧
  Forall (λ s, is_Some (atomic_number s)) (symbols a).

(** A string in which no character satisfies [p]. *)
Fixpoint free_of (p : ascii → bool) (s : string) : bool :=
  match s with
  | EmptyString => true
  | String a s' => negb (p a) && free_of p s'
  end.

(** A word of [s.split()]: not empty, and without whitespace. *)
Definition token (w : string) : bool :=
  match w with
  | EmptyString => false
  | _ => free_of isspace w
  end.

(** When [m] returns from a store in which the dictionary [w] satisfies
    [P], it has updated no object but [w], and the value returned and the
    dictionary left satisfy [Q]. *)
Definition returns_with {A} (w : loc) (P : pydict → Prop) (m : Prog A)
    (Q : A → pydict → Prop) : Prop :=
  ∀ (σ : store) a σ',
    w < length σ → P (deref w σ) → m σ = (Ok a, σ') →
    σ' = <[w := deref w σ']> σ ∧ Q a (deref w σ').

(** The keys that the writer looks up by name. *)
Definition distinguished : list string :=
  ["npara"; "maxcore"; "keywords"; "charge"; "mult"].

(** An item that the writer can see: one of the distinguished keys, a name
    that the call of [write_aip] binds itself, or a nested mapping. *)
Definition significant (kv : string * value RT) : bool :=
  existsb (String.eqb kv.1) (distinguished ++ bound_names)
  || match kv.2 with VDict _ => true | _ => false end.

Definition significant_items (d : pydict) : pydict :=
  filter (λ kv, significant kv = true) d.

(** [m1] on the object [w1] and [m2] on the object [w2] have one outcome
    and leave objects with equal significant items whenever they start
    from objects with equal significant items. *)
Definition agree_on_significant {A} (w1 w2 : loc) (m1 m2 : Prog A) : Prop :=
  ∀ σ1 σ2,
    significant_items (deref w1 σ1) = significant_items (deref w2 σ2) →
    (m1 σ1).1 = (m2 σ2).1 ∧
    significant_items (deref w1 (m1 σ1).2)
    = significant_items (deref w2 (m2 σ2).2).

(** The number of positions of [s] at which [w] begins. *)
Fixpoint occurrences (w s : string) : nat :=
  (if String.prefix w s then 1 else 0)
  + match s with
    | EmptyString => 0
    | String _ s' => occurrences w s'
    end.

(** [s.lstrip()] *)
Fixpoint lstrip (s : string) : string :=
  match s with
  | EmptyString => EmptyString
  | String c s' => if isspace c then lstrip s' else s
  end.

(** A line that does not begin, after blanks, with [end]. *)
Definition opens_no_end (l : string) : Prop :=
  ∀ rest, String.prefix "end" (lstrip (l +:+ rest)) = false.

(** A number as [\d+] reads it: not empty, decimal digits only. *)
Definition digits (w : string) : bool :=
  match w with
  | EmptyString => false
  | _ => free_of (λ c, negb (isdecimal c)) w
  end.

(** The captures after the characters of [w] were matched. *)
Definition feeds (w : string) (st : caps) : caps :=
  Caps (closed st) ((λ g, g +:+ w) <$> opened st).

(** The pattern after the group of a region: [\n\s*end]. *)
Definition region_end : pattern :=
  [GClose; Lit LF; star isspace] ++ lit "end".

End Notions.

(* ===================================================================== *)
(** ** More sample transcripts and parameter sets *)
(* ===================================================================== *)

Module Cases.
Import QRuntime Samples.

(** An output with two energy lines, the second without a number. *)
Definition second_energy_malformed : string :=
  lines (total_energy ++ [" ETot =   abc  Ekin =   1.10000000"; blank]).

(** The structure of [methane_aip]. *)
Definition methane : Atoms runtime :=
  Eval vm_compute in returned (parse_xyz methane_aip) hydrogen_atom.

(** An input in internal coordinates, with two coordinate definitions. *)
Definition zmat_region : string := lines [" O"; " H 1 r1"; " H 1 r1 2 a1"].
Definition zmat_coord_aip : string :=
  lines ["! hf 3-21g"; ">zmat 0 1"; " O"; " H 1 r1"; " H 1 r1 2 a1"; "end";
         ">coord"; "r1 0.96"; "a1 104.5"; "end"].

(** A second position of the hydrogen atom. *)
Definition moved_hydrogen : Atoms runtime :=
  mkAtoms ["H"] [(inject_Z 0, inject_Z 0, inject_Z 1)] None None.

(** [job_parameters] with two parameters that are no mappings. *)
Definition titled_parameters : list (string * value runtime) :=
  ("title", VStr "water") :: job_parameters ++ [("maxiter", VInt 100)].

(** [job_parameters] with a parameter named like an argument of
    [write_aip]. *)
Definition bound_parameters : list (string * value runtime) :=
  job_parameters ++ [("atoms", VStr "water")].

(** A parameter set whose keywords are one string. *)
Definition bare_keywords : list (string * value runtime) :=
  [("keywords", VStr "b3lyp"); ("charge", VInt 0); ("mult", VInt 1)].

(** The transcript that the writer produces for [hydrogen_atom] and
    [job_parameters]. *)
Definition job_written : string :=
  Eval vm_compute in
    returned (write_input (One hydrogen_atom) None 0 [job_parameters]).1 blank.

(** One optimisation step followed by the final summary: one geometry
    section, two energy lines. *)
Definition step_and_summary : string :=
  lines (geometry "0.740000" ++ total_energy ++ mulliken ++ dipole_moment
         ++ [" ETot =   -1.20000000  Ekin =   1.10000000"; blank]).
Definition step_and_summary_results : @CalcResults runtime :=
  Eval vm_compute in
    returned (read_results step_and_summary)
      (mkCalcResults None None [] (inject_Z 0) None).
Definition step_and_summary_image : @Image runtime :=
  Eval vm_compute in
    returned (read_aop step_and_summary (-1))
      (mkImage hydrogen_atom (mkResults (inject_Z 0) None [] None None)).

(** The last image of [two_steps]. *)
Definition two_steps_last : @Image runtime :=
  Eval vm_compute in
    returned (read_aop two_steps (-1))
      (mkImage hydrogen_atom (mkResults (inject_Z 0) None [] None None)).

(** Parameter sets whose charge, and whose number of processes, is
    text. *)
Definition text_charge : list (string * value runtime) :=
  [("charge", VStr "0"); ("mult", VInt 1)].
Definition text_npara : list (string * value runtime) :=
  [("npara", VStr "4"); ("charge", VInt 0); ("mult", VInt 1)].

(** The transcript that the writer produces for [methane] and
    [job_parameters], and the structure that is read back from it. *)
Definition methane_written : string :=
  Eval vm_compute in
    returned (write_input (One methane) None 0 [job_parameters]).1 blank.
Definition methane_read_back : Atoms runtime :=
  Eval vm_compute in returned (parse_xyz methane_written) hydrogen_atom.

End Cases.

(* ===================================================================== *)
(** ** Properties of the built-ins *)
(* ===================================================================== *)

Section Builtins.

Lemma bind_Ok {A B} (m : result A) (f : A → result B) (b : B) :
  m ≫= f = Ok b ↔ ∃ a, m = Ok a ∧ f a = Ok b.
Proof.
  destruct m as [a|e]; simpl.
  - split; [eauto | intros (a' & [= <-] & ?); done].
  - split; [done | intros (a' & ? & ?); done].
Qed.

Lemma of_option_Ok {A} (e : exn) (o : option A) (a : A) :
  of_option e o = Ok a ↔ o = Some a.
Proof. destruct o; simpl; split; congruence. Qed.

Lemma getitem_nat {A} (l : list A) (i : nat) :
  getitem l (Z.of_nat i) = of_option IndexError (l !! i).
Proof.
  unfold getitem.
  destruct (Z.leb_spec 0 (Z.of_nat i)); [|lia].
  by rewrite Nat2Z.id.
Qed.

Lemma getitem_last {A} (l : list A) :
  getitem l (-1) = of_option IndexError (last l).
Proof.
  unfold getitem. simpl (0 <=? -1)%Z. cbv iota.
  destruct l as [|x l] using rev_ind; [done|].
  rewrite last_snoc, length_app. simpl.
  destruct (Z.leb_spec (- Z.of_nat (length l + 1)) (-1)); [|lia].
  replace (Z.to_nat (Z.of_nat (length l + 1) + -1)) with (length l) by lia.
  by rewrite list_lookup_middle.
Qed.

Lemma getitem_out_of_range {A} (l : list A) (i : Z) :
  (i < - Z.of_nat (length l) ∨ Z.of_nat (length l) <= i)%Z →
  getitem l i = Raise IndexError.
Proof.
  intros Hi. unfold getitem.
  destruct (Z.leb_spec 0 i).
  - rewrite lookup_ge_None_2; [done | lia].
  - destruct (Z.leb_spec (- Z.of_nat (length l)) i); [lia | done].
Qed.

Lemma getitem_in_range {A} (l : list A) (i : Z) :
  (- Z.of_nat (length l) <= i < Z.of_nat (length l))%Z →
  ∃ a, getitem l i = Ok a.
Proof.
  intros Hi. unfold getitem.
  destruct (Z.leb_spec 0 i).
  - destruct (lookup_lt_is_Some_2 l (Z.to_nat i)) as [a Ha]; [lia|].
    exists a. by rewrite Ha.
  - destruct (Z.leb_spec (- Z.of_nat (length l)) i); [|lia].
    destruct (lookup_lt_is_Some_2 l (Z.to_nat (Z.of_nat (length l) + i)))
      as [a Ha]; [lia|].
    exists a. by rewrite Ha.
Qed.

(** [mapM] over [result]: all the calls return, in order. *)
Lemma mapM_Ok {A B} (f : A → result B) (l : list A) (k : list B) :
  mapM f l = Ok k ↔ Forall2 (λ x y, f x = Ok y) l k.
Proof.
  revert k. induction l as [|x l IH]; intros k; simpl.
  - split.
    + intros [= <-]. constructor.
    + intros ->%Forall2_nil_inv_l. done.
  - split.
    + intros (y & Hy & (k' & Hk' & [= <-])%bind_Ok)%bind_Ok.
      constructor; [done|]. by apply IH.
    + intros (y & k' & Hy & Hk' & ->)%Forall2_cons_inv_l.
      apply bind_Ok. exists y. split; [done|].
      apply bind_Ok. exists k'. split; [by apply IH | done].
Qed.

Lemma mapM_Ok_length {A B} (f : A → result B) (l : list A) (k : list B) :
  mapM f l = Ok k → length k = length l.
Proof. intros H%mapM_Ok. symmetry. by eapply Forall2_length. Qed.

Lemma mapM_Ok_lookup {A B} (f : A → result B) l k i (y : B) :
  mapM f l = Ok k → k !! i = Some y → ∃ x : A, l !! i = Some x ∧ f x = Ok y.
Proof.
  intros H%mapM_Ok Hy.
  destruct (Forall2_lookup_r _ _ _ _ _ H Hy) as (x & ? & ?). eauto.
Qed.

Lemma mapM_Ok_lookup_l {A B} (f : A → result B) l k i (x : A) :
  mapM f l = Ok k → l !! i = Some x → ∃ y : B, k !! i = Some y ∧ f x = Ok y.
Proof.
  intros H%mapM_Ok Hx.
  destruct (Forall2_lookup_l _ _ _ _ _ H Hx) as (y & ? & ?). eauto.
Qed.

Lemma mapM_Ok_intro {A B} (f : A → result B) (l : list A) :
  (∀ i x, l !! i = Some x → ∃ y, f x = Ok y) → ∃ k, mapM f l = Ok k.
Proof.
  induction l as [|x l IH]; intros H; simpl; [eauto|].
  destruct (H 0 x eq_refl) as [y Hy].
  destruct IH as [k Hk]; [intros i; apply (H (S i))|].
  exists (y :: k). by rewrite Hy, Hk.
Qed.

(** What the builtins raise. *)
Lemma bind_Raise {A B} (m : result A) (f : A → result B) (e : exn) :
  m ≫= f = Raise e → m = Raise e ∨ ∃ a, m = Ok a ∧ f a = Raise e.
Proof.
  destruct m as [a|e']; simpl; intros H.
  - right. by exists a.
  - left. by injection H as ->.
Qed.

Lemma of_option_Raise {A} (e' : exn) (o : option A) (e : exn) :
  of_option e' o = Raise e → e = e'.
Proof. destruct o; simpl; congruence. Qed.

Lemma getitem_Raise {A} (l : list A) (i : Z) (e : exn) :
  getitem l i = Raise e → e = IndexError.
Proof.
  unfold getitem. destruct (0 <=? i)%Z; [apply of_option_Raise|].
  destruct (_ <=? i)%Z; [apply of_option_Raise | congruence].
Qed.

Lemma mapM_Raise {A B} (f : A → result B) (l : list A) (e : exn) :
  mapM f l = Raise e → ∃ x, f x = Raise e.
Proof.
  induction l as [|x l IH]; simpl; [done|].
  intros [H | (y & _ & [H | (k & _ & H)]%bind_Raise)]%bind_Raise;
    [eauto | eauto | discriminate].
Qed.

End Builtins.

(* ===================================================================== *)
(** ** Properties of the readers *)
(* ===================================================================== *)

Section Readers.
Context {RT : Runtime}.

#[local] Arguments findall : simpl never.
#[local] Arguments findall_groups : simpl never.

(** Splits a hypothesis [m ≫= f = Ok b] into the two returns. *)
Ltac inv_bind H :=
  let a := fresh "a" in
  let Ha := fresh "H" a in
  cbv zeta in H; apply bind_Ok in H; destruct H as (a & Ha & H);
  cbv zeta in H.

Lemma read_aip_without_geometry
    (zm : option string → string → result (Atoms RT)) (text : string) :
  contains ">xyz" text = false → contains ">zmat" text = false →
  read_aip zm text = Ok None.
Proof. intros H1 H2. unfold read_aip. by rewrite H1, H2. Qed.

Lemma parse_xyz_region_count (text : string) :
  length (findall pattern_xyz text) ≠ 1 →
  parse_xyz text = io_read_xyz EmptyString.
Proof.
  intros Hn. unfold parse_xyz.
  destruct (findall pattern_xyz text) as [|x [|y l]]; simpl in *; done.
Qed.

Lemma io_read_xyz_empty : io_read_xyz (RT:=RT) EmptyString = Raise StopIteration.
Proof. reflexivity. Qed.

(** The sequences of the extractors are cut after [n + 1] elements. *)
Lemma length_upto {A} (n : nat) (l : list A) : length (upto n l) ≤ n.
Proof. unfold upto. rewrite length_take. lia. Qed.

Lemma parse_aop_charge_length text n l :
  parse_aop_charge text n = Ok l → length l ≤ n + 1.
Proof.
  unfold parse_aop_charge. intros H. inv_bind H.
  destruct (length (upto (n + 1) a) =? 0); injection H as <-.
  - unfold absent. rewrite length_replicate. lia.
  - rewrite length_fmap. apply length_upto.
Qed.

Lemma parse_aop_spin_length text n l :
  parse_aop_spin text n = Ok l → length l ≤ n + 1.
Proof.
  unfold parse_aop_spin. intros H. inv_bind H.
  destruct (length (upto (n + 1) a) =? 0); injection H as <-.
  - unfold absent. rewrite length_replicate. lia.
  - rewrite length_fmap. apply length_upto.
Qed.

Lemma parse_aop_dipole_length text n l :
  parse_aop_dipole text n = Ok l → length l ≤ n + 1.
Proof.
  unfold parse_aop_dipole. intros H. inv_bind H.
  injection H as <-. apply length_upto.
Qed.

Lemma parse_aop_energy_length text n l :
  parse_aop_energy text n = Ok l → length l ≤ n + 1.
Proof.
  unfold parse_aop_energy. intros H. inv_bind H.
  injection H as <-. apply length_upto.
Qed.

Lemma parse_aop_gradient_length text n l :
  parse_aop_gradient text n = Ok l → length l ≤ n + 1.
Proof.
  unfold parse_aop_gradient. intros H.
  destruct (0 <? length (findall pattern_gradient text)).
  - inv_bind H. injection H as <-. rewrite length_fmap. apply length_upto.
  - injection H as <-. unfold absent. rewrite length_replicate. lia.
Qed.

(** The sequences that are padded: without an occurrence they are [n]
    absent values. *)
Lemma parse_aop_charge_absent text n :
  findall pattern_charge text = [] → parse_aop_charge text n = Ok (absent n).
Proof.
  intros H. unfold parse_aop_charge. rewrite H. simpl.
  unfold upto. by rewrite take_nil.
Qed.

Lemma parse_aop_spin_absent text n :
  findall pattern_spin text = [] → parse_aop_spin text n = Ok (absent n).
Proof.
  intros H. unfold parse_aop_spin. rewrite H. simpl.
  unfold upto. by rewrite take_nil.
Qed.

Lemma parse_aop_gradient_absent text n :
  findall pattern_gradient text = [] → parse_aop_gradient text n = Ok (absent n).
Proof. intros H. unfold parse_aop_gradient. by rewrite H. Qed.

(** The sequences that are not: without an occurrence they are empty. *)
Lemma parse_aop_dipole_empty text n :
  findall_groups pattern_dipole text = [] → parse_aop_dipole text n = Ok [].
Proof.
  intros H. unfold parse_aop_dipole. rewrite H. simpl.
  unfold upto. by rewrite take_nil.
Qed.

Lemma parse_aop_energy_empty text n :
  findall pattern_energy text = [] → parse_aop_energy text n = Ok [].
Proof.
  intros H. unfold parse_aop_energy. rewrite H. simpl.
  unfold upto. by rewrite take_nil.
Qed.

Lemma parse_aop_xyz_length text element position :
  parse_aop_xyz text = Ok (element, position) →
  length element = length (findall pattern_aop_xyz text) ∧
  length position = length (findall pattern_aop_xyz text).
Proof.
  unfold parse_aop_xyz. intros H. inv_bind H. inv_bind H.
  injection H as <- <-.
  split; by eapply mapM_Ok_length.
Qed.

(** *** The exceptions of the extractors *)

Lemma first_tokens_Raise (block : string) (e : exn) :
  first_tokens block = Raise e → e = IndexError.
Proof. by intros (x & H%getitem_Raise)%mapM_Raise. Qed.

Lemma last_tokens_Raise (block : string) (e : exn) :
  last_tokens block = Raise e → e = IndexError.
Proof. by intros (x & H%getitem_Raise)%mapM_Raise. Qed.

Lemma np_float1_Raise (l : list string) (e : exn) :
  np_float1 l = Raise e → e = ValueError.
Proof. by intros (x & H%of_option_Raise)%mapM_Raise. Qed.

Lemma np_float2_Raise (rows : list (list string)) (e : exn) :
  np_float2 rows = Raise e → e = ValueError.
Proof.
  unfold np_float2. destruct rows as [|r rows']; [done|].
  destruct (forallb _ _); [|congruence].
  by intros (x & H%np_float1_Raise)%mapM_Raise.
Qed.

Lemma Atoms_init_Raise (syms : list string) (pos : list (list float)) (e : exn) :
  Atoms_init syms pos = Raise e → e = KeyError ∨ e = ValueError.
Proof.
  unfold Atoms_init.
  intros [(x & H%of_option_Raise)%mapM_Raise | (u & _ & H)]%bind_Raise;
    [eauto|].
  destruct (negb _); [right; congruence|].
  apply bind_Raise in H as [(x & H%of_option_Raise)%mapM_Raise | (? & _ & H)];
    [eauto | discriminate].
Qed.

Lemma parse_aop_xyz_Raise (text : string) (e : exn) :
  parse_aop_xyz text = Raise e → e = IndexError ∨ e = ValueError.
Proof.
  unfold parse_aop_xyz. cbv zeta.
  intros [(x & H%first_tokens_Raise)%mapM_Raise | (el & _ & H)]%bind_Raise;
    [eauto|].
  apply bind_Raise in H as [(x & H%np_float2_Raise)%mapM_Raise | (? & _ & H)];
    [eauto | discriminate].
Qed.

Lemma last_values_Raise (block : string) (e : exn) :
  last_tokens block ≫= np_float1 = Raise e → e = IndexError ∨ e = ValueError.
Proof.
  intros [H%last_tokens_Raise | (l & _ & H%np_float1_Raise)]%bind_Raise; eauto.
Qed.

Lemma parse_aop_charge_Raise (text : string) (n : nat) (e : exn) :
  parse_aop_charge text n = Raise e → e = IndexError ∨ e = ValueError.
Proof.
  unfold parse_aop_charge. cbv zeta.
  intros [(x & H%last_values_Raise)%mapM_Raise | (l & _ & H)]%bind_Raise;
    [done|].
  by destruct (_ =? 0).
Qed.

Lemma parse_aop_spin_Raise (text : string) (n : nat) (e : exn) :
  parse_aop_spin text n = Raise e → e = IndexError ∨ e = ValueError.
Proof.
  unfold parse_aop_spin. cbv zeta.
  intros [(x & H%last_values_Raise)%mapM_Raise | (l & _ & H)]%bind_Raise;
    [done|].
  by destruct (_ =? 0).
Qed.

Lemma parse_aop_dipole_Raise (text : string) (n : nat) (e : exn) :
  parse_aop_dipole text n = Raise e → e = ValueError.
Proof.
  unfold parse_aop_dipole. cbv zeta.
  intros [(x & H)%mapM_Raise | (l & _ & H)]%bind_Raise; [|discriminate].
  by apply bind_Raise in H as [H%np_float1_Raise | (v & _ & H)].
Qed.

Lemma parse_aop_energy_Raise (text : string) (n : nat) (e : exn) :
  parse_aop_energy text n = Raise e → e = ValueError.
Proof.
  unfold parse_aop_energy. cbv zeta.
  by intros [H%np_float1_Raise | (l & _ & H)]%bind_Raise.
Qed.

Lemma parse_aop_gradient_Raise (text : string) (n : nat) (e : exn) :
  parse_aop_gradient text n = Raise e → e = ValueError.
Proof.
  unfold parse_aop_gradient. cbv zeta.
  destruct (0 <? _); [|discriminate].
  intros [(x & H)%mapM_Raise | (l & _ & H)]%bind_Raise; [|discriminate].
  by apply bind_Raise in H as [H%np_float2_Raise | (v & _ & H)].
Qed.

(** *** The trajectory assembler *)

(** What the loop body of [iread_aop] returns for the image [i]. *)
Lemma iread_aop_body_Ok
    (element : list (list string)) (position : list (list (list float)))
    charge magmom (dipoles : list (list float)) (energies : list float) force
    (i : nat) (img : Image) :
  (el ← getitem element (Z.of_nat i);
   pos ← getitem position (Z.of_nat i);
   atoms ← Atoms_init el pos;
   e ← getitem energies (Z.of_nat i);
   f ← getitem force (Z.of_nat i);
   d ← getitem dipoles (Z.of_nat i);
   c ← getitem charge (Z.of_nat i);
   m ← getitem magmom (Z.of_nat i);
   Ok (mkImage atoms (mkResults e f d c m))) = Ok img ↔
  ∃ el pos,
    element !! i = Some el ∧ position !! i = Some pos ∧
    Atoms_init el pos = Ok (atoms img) ∧
    energies !! i = Some (energy (results img)) ∧
    force !! i = Some (forces (results img)) ∧
    dipoles !! i = Some (dipole (results img)) ∧
    charge !! i = Some (charges (results img)) ∧
    magmom !! i = Some (magmoms (results img)).
Proof.
  rewrite !getitem_nat. split.
  - intros H. do 8 inv_bind H. injection H as <-. simpl.
    repeat match goal with
           | H : of_option _ _ = Ok _ |- _ => apply of_option_Ok in H
           end.
    eauto 10.
  - intros (el & pos & -> & -> & Ha & -> & -> & -> & -> & ->). simpl.
    rewrite Ha. simpl. by destruct img as [? []].
Qed.

(** What [iread_aop] returns, in terms of the sequences it assembles. *)
Lemma iread_aop_Ok (text : string) (images : list Image) :
  iread_aop text = Ok images ↔
  ∃ element position charge magmom dipoles energies force,
    parse_aop_xyz text = Ok (element, position) ∧
    parse_aop_charge text (length element) = Ok charge ∧
    parse_aop_spin text (length element) = Ok magmom ∧
    parse_aop_dipole text (length element) = Ok dipoles ∧
    parse_aop_energy text (length element) = Ok energies ∧
    parse_aop_gradient text (length element) = Ok force ∧
    length images = length element ∧
    ∀ i img, images !! i = Some img →
      ∃ el pos,
        element !! i = Some el ∧ position !! i = Some pos ∧
        Atoms_init el pos = Ok (atoms img) ∧
        energies !! i = Some (energy (results img)) ∧
        force !! i = Some (forces (results img)) ∧
        dipoles !! i = Some (dipole (results img)) ∧
        charge !! i = Some (charges (results img)) ∧
        magmom !! i = Some (magmoms (results img)).
Proof.
  unfold iread_aop. split.
  - intros H. inv_bind H. destruct a as [element position].
    do 5 inv_bind H.
    exists element, position, a, a0, a1, a2, a3.
    repeat (split; [done|]).
    split; [by rewrite (mapM_Ok_length _ _ _ H), length_seq|].
    intros i img Hi.
    destruct (mapM_Ok_lookup _ _ _ _ _ H Hi) as (x & Hx & Hbody).
    apply lookup_seq in Hx as [-> _]. simpl in Hbody.
    by apply iread_aop_body_Ok in Hbody.
  - intros (element & position & charge & magmom & dipoles & energies & force
            & -> & Hc & Hm & Hd & He & Hf & Hlen & Himg).
    simpl. rewrite Hc, Hm, Hd, He, Hf. simpl.
    apply mapM_Ok. apply Forall2_same_length_lookup_2.
    + by rewrite length_seq.
    + intros i x img Hx Hi. apply lookup_seq in Hx as [-> _]. simpl.
      apply iread_aop_body_Ok. eauto.
Qed.

(** [iread_aop] returns when every extractor returns a sequence that has
    an element for every image and every structure is valid. *)
Lemma iread_aop_returns (text : string) element position structures
    charge magmom dipole energy force :
  parse_aop_xyz text = Ok (element, position) →
  mapM (λ '(el, pos), Atoms_init el pos) (zip element position)
    = Ok structures →
  parse_aop_charge text (length element) = Ok charge →
  length element ≤ length charge →
  parse_aop_spin text (length element) = Ok magmom →
  length element ≤ length magmom →
  parse_aop_dipole text (length element) = Ok dipole →
  length element ≤ length dipole →
  parse_aop_energy text (length element) = Ok energy →
  length element ≤ length energy →
  parse_aop_gradient text (length element) = Ok force →
  length element ≤ length force →
  ∃ images, iread_aop text = Ok images.
Proof.
  intros Hxyz Hs Hc Hlc Hm Hlm Hd Hld He Hle Hf Hlf.
  destruct (parse_aop_xyz_length _ _ _ Hxyz) as [Hel Hpos].
  unfold iread_aop. rewrite Hxyz. simpl. rewrite Hc, Hm, Hd, He, Hf. simpl.
  apply mapM_Ok_intro. intros i x [-> Hi]%lookup_seq. simpl in *.
  destruct (lookup_lt_is_Some_2 element i) as [el Hel']; [lia|].
  destruct (lookup_lt_is_Some_2 position i) as [pos Hpos']; [lia|].
  destruct (lookup_lt_is_Some_2 charge i) as [c Hc']; [lia|].
  destruct (lookup_lt_is_Some_2 magmom i) as [m Hm']; [lia|].
  destruct (lookup_lt_is_Some_2 dipole i) as [d Hd']; [lia|].
  destruct (lookup_lt_is_Some_2 energy i) as [e He']; [lia|].
  destruct (lookup_lt_is_Some_2 force i) as [f Hf']; [lia|].
  assert (zip element position !! i = Some (el, pos)) as Hz.
  { rewrite lookup_zip_with, Hel'. simpl. by rewrite Hpos'. }
  destruct (mapM_Ok_lookup_l _ _ _ _ _ Hs Hz) as (a & _ & Ha).
  exists (mkImage a (mkResults e f d c m)).
  apply iread_aop_body_Ok. exists el, pos. simpl. done.
Qed.

Lemma covers_indices {A} (l : list A) (k : nat) :
  (∀ i, i < k → is_Some (l !! i)) → k ≤ length l.
Proof.
  intros H. destruct k as [|k]; [lia|].
  destruct (H k) as [x Hx]; [lia|]. apply lookup_lt_Some in Hx. lia.
Qed.

(** [iread_aop] returns only when every extractor returns a sequence that
    has an element for every image and every structure is valid. *)
Lemma iread_aop_returns_only (text : string) (images : list Image) :
  iread_aop text = Ok images →
  ∃ element position charge magmom dipole energy force,
    parse_aop_xyz text = Ok (element, position) ∧
    mapM (λ '(el, pos), Atoms_init el pos) (zip element position)
      = Ok (atoms <$> images) ∧
    parse_aop_charge text (length element) = Ok charge ∧
    length element ≤ length charge ∧
    parse_aop_spin text (length element) = Ok magmom ∧
    length element ≤ length magmom ∧
    parse_aop_dipole text (length element) = Ok dipole ∧
    length element ≤ length dipole ∧
    parse_aop_energy text (length element) = Ok energy ∧
    length element ≤ length energy ∧
    parse_aop_gradient text (length element) = Ok force ∧
    length element ≤ length force.
Proof.
  intros (element & position & charge & magmom & dipole & energy & force
          & Hxyz & Hc & Hm & Hd & He & Hf & Hlen & Himg)%iread_aop_Ok.
  destruct (parse_aop_xyz_length _ _ _ Hxyz) as [Hel Hpos].
  assert (∀ i, i < length element → ∃ img, images !! i = Some img) as Hi.
  { intros i Hlt. apply lookup_lt_is_Some_2. lia. }
  exists element, position, charge, magmom, dipole, energy, force.
  repeat apply conj; try done.
  - apply mapM_Ok. apply Forall2_same_length_lookup_2.
    + rewrite length_zip_with, length_fmap. lia.
    + intros i [el pos] a Hz Ha.
      apply list_lookup_fmap_Some in Ha as (img & -> & Himg').
      destruct (Himg i img Himg') as (el' & pos' & Hel' & Hpos' & Hinit & _).
      rewrite lookup_zip_with, Hel' in Hz. simpl in Hz. rewrite Hpos' in Hz.
      by injection Hz as <- <-.
  - apply covers_indices. intros i [img Himg']%Hi.
    destruct (Himg i img Himg') as (_ & _ & _ & _ & _ & _ & _ & _ & H & _).
    eauto.
  - apply covers_indices. intros i [img Himg']%Hi.
    destruct (Himg i img Himg') as (_ & _ & _ & _ & _ & _ & _ & _ & _ & H).
    eauto.
  - apply covers_indices. intros i [img Himg']%Hi.
    destruct (Himg i img Himg') as (_ & _ & _ & _ & _ & _ & _ & H & _).
    eauto.
  - apply covers_indices. intros i [img Himg']%Hi.
    destruct (Himg i img Himg') as (_ & _ & _ & _ & _ & H & _).
    eauto.
  - apply covers_indices. intros i [img Himg']%Hi.
    destruct (Himg i img Himg') as (_ & _ & _ & _ & _ & _ & H & _).
    eauto.
Qed.

(** The exceptions of [iread_aop]. *)
Lemma iread_aop_Raise (text : string) (e : exn) :
  iread_aop text = Raise e → e = IndexError ∨ e = ValueError ∨ e = KeyError.
Proof.
  unfold iread_aop.
  intros [H%parse_aop_xyz_Raise | ([element position] & _ & H)]%bind_Raise;
    [tauto|].
  cbv zeta in H.
  apply bind_Raise in H as [H%parse_aop_charge_Raise | (charge & _ & H)];
    [tauto|].
  apply bind_Raise in H as [H%parse_aop_spin_Raise | (magmom & _ & H)];
    [tauto|].
  apply bind_Raise in H as [H%parse_aop_dipole_Raise | (dipole & _ & H)];
    [tauto|].
  apply bind_Raise in H as [H%parse_aop_energy_Raise | (energy & _ & H)];
    [tauto|].
  apply bind_Raise in H as [H%parse_aop_gradient_Raise | (force & _ & H)];
    [tauto|].
  apply mapM_Raise in H as (i & H).
  apply bind_Raise in H as [H%getitem_Raise | (el & _ & H)]; [tauto|].
  apply bind_Raise in H as [H%getitem_Raise | (pos & _ & H)]; [tauto|].
  apply bind_Raise in H as [H%Atoms_init_Raise | (a & _ & H)]; [tauto|].
  apply bind_Raise in H as [H%getitem_Raise | (x & _ & H)]; [tauto|].
  apply bind_Raise in H as [H%getitem_Raise | (f & _ & H)]; [tauto|].
  apply bind_Raise in H as [H%getitem_Raise | (d & _ & H)]; [tauto|].
  apply bind_Raise in H as [H%getitem_Raise | (c & _ & H)]; [tauto|].
  apply bind_Raise in H as [H%getitem_Raise | (m & _ & H)]; [tauto|].
  discriminate.
Qed.

(** C4 (as amended).  For a transcript in which the geometry pattern
    matches [k] times: when [iread_aop] returns, it returns exactly [k]
    images and image [i] is the structure of the [i]-th geometry section,
    in transcript order; it does return when every structure is valid
    and every extractor returns a sequence of at least [k] elements, and
    only then; and when it does not return, it raises [IndexError],
    [ValueError] or [KeyError]. *)
Theorem iread_aop_image_count (text : string) :
  let k := length (findall pattern_aop_xyz text) in
  (∀ images, iread_aop text = Ok images →
     length images = k ∧
     ∀ i img, images !! i = Some img →
       ∃ block el pos,
         findall pattern_aop_xyz text !! i = Some block ∧
         first_tokens block = Ok el ∧
         np_float2 (tail_tokens block) = Ok pos ∧
         Atoms_init el pos = Ok (atoms img)) ∧
  (∀ element position structures charge magmom dipole energy force,
     parse_aop_xyz text = Ok (element, position) →
     mapM (λ '(el, pos), Atoms_init el pos) (zip element position)
       = Ok structures →
     parse_aop_charge text k = Ok charge → k ≤ length charge →
     parse_aop_spin text k = Ok magmom → k ≤ length magmom →
     parse_aop_dipole text k = Ok dipole → k ≤ length dipole →
     parse_aop_energy text k = Ok energy → k ≤ length energy →
     parse_aop_gradient text k = Ok force → k ≤ length force →
     ∃ images, iread_aop text = Ok images ∧ length images = k ∧
               atoms <$> images = structures) ∧
  (∀ images, iread_aop text = Ok images →
     ∃ element position charge magmom dipole energy force,
       parse_aop_xyz text = Ok (element, position) ∧
       mapM (λ '(el, pos), Atoms_init el pos) (zip element position)
         = Ok (atoms <$> images) ∧
       parse_aop_charge text k = Ok charge ∧ k ≤ length charge ∧
       parse_aop_spin text k = Ok magmom ∧ k ≤ length magmom ∧
       parse_aop_dipole text k = Ok dipole ∧ k ≤ length dipole ∧
       parse_aop_energy text k = Ok energy ∧ k ≤ length energy ∧
       parse_aop_gradient text k = Ok force ∧ k ≤ length force) ∧
  (∀ e, iread_aop text = Raise e →
     e = IndexError ∨ e = ValueError ∨ e = KeyError) ∧
  ((∃ images, iread_aop text = Ok images) ∨
   (∃ e, iread_aop text = Raise e)).
Proof.
  intros k. split; [|split; [|split; [|split]]].
  - intros images (element & position & charge & magmom & dipole & energy
      & force & Hxyz & _ & _ & _ & _ & _ & Hlen & Himg)%iread_aop_Ok.
    destruct (parse_aop_xyz_length _ _ _ Hxyz) as [Hel _].
    split; [by rewrite Hlen|].
    intros i img Hi.
    destruct (Himg i img Hi) as (el & pos & Hel' & Hpos' & Ha & _).
    unfold parse_aop_xyz in Hxyz. inv_bind Hxyz. inv_bind Hxyz.
    injection Hxyz as <- <-.
    destruct (mapM_Ok_lookup _ _ _ _ _ Ha0 Hel') as (block & Hb & Hfirst).
    destruct (mapM_Ok_lookup _ _ _ _ _ Ha1 Hpos') as (block' & Hb' & Htail).
    rewrite Hb in Hb'. injection Hb' as <-.
    exists block, el, pos. done.
  - intros element position structures charge magmom dipole energy force
      Hxyz Hs Hc Hlc Hm Hlm Hd Hld He Hle Hf Hlf.
    destruct (parse_aop_xyz_length _ _ _ Hxyz) as [Hel Hpos].
    subst k. rewrite <- Hel in *.
    destruct (iread_aop_returns _ _ _ _ _ _ _ _ _
                Hxyz Hs Hc Hlc Hm Hlm Hd Hld He Hle Hf Hlf) as [images Hi].
    exists images. split; [done|].
    apply iread_aop_Ok in Hi
      as (element' & position' & c' & m' & d' & e' & f' & Hxyz' & _ & _ & _
          & _ & _ & Hlen & Himg).
    rewrite Hxyz in Hxyz'. injection Hxyz' as Heq1 Heq2.
    subst element' position'.
    split; [done|].
    apply list_eq_same_length with (length element).
    + apply mapM_Ok_length in Hs. rewrite Hs, length_zip_with. lia.
    + by rewrite length_fmap.
    + intros i a a' _ Ha Ha'.
      apply list_lookup_fmap_Some in Ha as (img & -> & Himg').
      destruct (Himg i img Himg') as (el & pos & Hel' & Hpos' & Hinit & _).
      destruct (mapM_Ok_lookup _ _ _ _ _ Hs Ha') as ([el' pos'] & Hz & Hinit').
      rewrite lookup_zip_with, Hel' in Hz. simpl in Hz. rewrite Hpos' in Hz.
      injection Hz as <- <-. congruence.
  - intros images Hi.
    destruct (iread_aop_returns_only _ _ Hi)
      as (element & position & charge & magmom & dipole & energy & force
          & Hxyz & H).
    destruct (parse_aop_xyz_length _ _ _ Hxyz) as [Hel _].
    subst k. rewrite <- Hel.
    by exists element, position, charge, magmom, dipole, energy, force.
  - apply iread_aop_Raise.
  - destruct (iread_aop text) as [images|e]; eauto.
Qed.

(** Without a geometry section [iread_aop] returns no image, provided the
    other sections parse. *)
Lemma iread_aop_no_section (text : string) charge magmom dipoles energies force :
  findall pattern_aop_xyz text = [] →
  parse_aop_charge text 0 = Ok charge →
  parse_aop_spin text 0 = Ok magmom →
  parse_aop_dipole text 0 = Ok dipoles →
  parse_aop_energy text 0 = Ok energies →
  parse_aop_gradient text 0 = Ok force →
  iread_aop text = Ok [].
Proof.
  intros Hxyz Hc Hm Hd He Hf. unfold iread_aop, parse_aop_xyz.
  rewrite Hxyz. simpl. by rewrite Hc, Hm, Hd, He, Hf.
Qed.

(** C5 (as amended).  [read_aop] with the index [-1] is the last image
    that [iread_aop] returns, and an index outside the range of the images
    returned, in particular every index when no image is returned, fails
    with [IndexError]; no image is returned when the transcript has no
    geometry section and the other extractors return.  When [iread_aop]
    raises, [read_aop] raises the same exception, for every index: the
    exceptions of [read_aop] are [IndexError], [ValueError] and
    [KeyError]. *)
Theorem read_aop_selects_by_index (text : string) :
  read_aop text (-1)
    = (iread_aop text ≫= λ images, of_option IndexError (last images)) ∧
  (∀ images img, iread_aop text = Ok images → last images = Some img →
     read_aop text (-1) = Ok img) ∧
  (∀ images index, iread_aop text = Ok images →
     (index < - Z.of_nat (length images)
      ∨ Z.of_nat (length images) <= index)%Z →
     read_aop text index = Raise IndexError) ∧
  (∀ index, iread_aop text = Ok [] → read_aop text index = Raise IndexError) ∧
  (∀ index charge magmom dipoles energies force,
     findall pattern_aop_xyz text = [] →
     parse_aop_charge text 0 = Ok charge →
     parse_aop_spin text 0 = Ok magmom →
     parse_aop_dipole text 0 = Ok dipoles →
     parse_aop_energy text 0 = Ok energies →
     parse_aop_gradient text 0 = Ok force →
     read_aop text index = Raise IndexError) ∧
  (∀ e index, iread_aop text = Raise e → read_aop text index = Raise e) ∧
  (∀ e index, read_aop text index = Raise e →
     e = IndexError ∨ e = ValueError ∨ e = KeyError).
Proof.
  assert (∀ index, iread_aop text = Ok [] →
            read_aop text index = Raise IndexError) as Hempty.
  { intros index H. unfold read_aop. rewrite H. simpl.
    apply getitem_out_of_range. simpl. lia. }
  assert (∀ e index, read_aop text index = Raise e →
            e = IndexError ∨ e = ValueError ∨ e = KeyError) as Hclass.
  { intros e index
      [H%iread_aop_Raise | (images & _ & H%getitem_Raise)]%bind_Raise; tauto. }
  unfold read_aop. repeat apply conj.
  - destruct (iread_aop text) as [images|e]; simpl; [|done].
    apply getitem_last.
  - intros images img -> Hl. simpl. by rewrite getitem_last, Hl.
  - intros images index -> Hi. simpl. by apply getitem_out_of_range.
  - exact Hempty.
  - intros index charge magmom dipoles energies force Hxyz Hc Hm Hd He Hf.
    apply Hempty. by eapply iread_aop_no_section.
  - by intros e index ->.
  - exact Hclass.
Qed.



(** C10.  When the transcript contains the substring [>xyz], [read_aip]
    is [parse_xyz], whatever follows the substring and whatever the
    z-matrix resolver would return: the internal-coordinate form is not
    consulted. *)
Theorem read_aip_dispatches_on_substring
    (zm zm' : option string → string → result (Atoms RT)) (text : string) :
  contains ">xyz" text = true →
  read_aip zm text = Some <$> parse_xyz text ∧
  read_aip zm text = read_aip zm' text.
Proof. intros H. unfold read_aip. by rewrite H. Qed.

End Readers.

(* ===================================================================== *)
(** ** Properties of the writer *)
(* ===================================================================== *)

Section Writer.
Context {RT : Runtime}.

(** *** Steps that are confined to the working dictionary *)

Lemma confined_ret {A} (w : loc) (a : A) : confined w (mret a : Prog A).
Proof. intros σ. done. Qed.

Lemma confined_raise {A} (w : loc) (e : exn) : confined w (raise e : Prog A).
Proof. intros σ. done. Qed.

Lemma confined_lift {A} (w : loc) (r : result A) : confined w (lift r).
Proof. intros σ. done. Qed.

Lemma confined_bind {A B} (w : loc) (m : Prog A) (f : A → Prog B) :
  confined w m → (∀ a, confined w (f a)) → confined w (m ≫= f).
Proof.
  intros Hm Hf σ. unfold mbind, prog_bind, bind.
  destruct (Hm σ) as [Hlen Hl]. destruct (m σ) as [[a|e] σ'] eqn:E; simpl in *.
  - destruct (Hf a σ') as [Hlen' Hl']. split; [congruence|].
    intros l Hne. rewrite Hl', Hl; done.
  - done.
Qed.

Lemma confined_kw_in (w : loc) (k : string) : confined w (kw_in k w).
Proof. intros σ. done. Qed.

Lemma confined_kw_get (w : loc) (k : string) : confined w (kw_get k w).
Proof. intros σ. done. Qed.

Lemma confined_kw_items (w : loc) : confined w (kw_items w).
Proof. intros σ. done. Qed.

Lemma confined_kw_pop (w : loc) (k : string) : confined w (kw_pop k w).
Proof.
  intros σ. unfold kw_pop. destruct (dict_get k (deref w σ)); simpl; [|done].
  split; [by rewrite length_insert|].
  intros l Hne. by rewrite list_lookup_insert_ne.
Qed.

(** Runs through a writer function, one step at a time. *)
Ltac confined_steps :=
  cbv zeta;
  repeat first
    [ apply confined_ret | apply confined_raise | apply confined_lift
    | apply confined_kw_in | apply confined_kw_get | apply confined_kw_pop
    | apply confined_kw_items
    | apply confined_bind; [|intros ?]
    | match goal with
      | |- confined _ (if ?b then _ else _) => destruct b
      | |- confined _ (match ?a with _ => _ end) => destruct a
      end ].

Lemma confined_write_job (w : loc) : confined w (write_job w).
Proof. unfold write_job. confined_steps. Qed.

Lemma confined_write_keywords properties (w : loc) :
  confined w (write_keywords properties w).
Proof. unfold write_keywords. confined_steps. Qed.

Lemma confined_write_dict (w : loc) : confined w (write_dict w).
Proof. unfold write_dict. confined_steps. Qed.

Lemma confined_write_xyz atoms (w : loc) : confined w (write_xyz atoms w).
Proof. unfold write_xyz. confined_steps. Qed.

(** *** Steps that depend on the working dictionary only *)

Lemma agree_ret {A} (w1 w2 : loc) (a : A) :
  agree w1 w2 (mret a : Prog A) (mret a).
Proof. intros σ1 σ2 H. done. Qed.

Lemma agree_raise {A} (w1 w2 : loc) (e : exn) :
  agree w1 w2 (raise e : Prog A) (raise e).
Proof. intros σ1 σ2 H. done. Qed.

Lemma agree_lift {A} (w1 w2 : loc) (r : result A) :
  agree w1 w2 (lift r) (lift r).
Proof. intros σ1 σ2 H. done. Qed.

Lemma agree_bind {A B} (w1 w2 : loc) (m1 m2 : Prog A) (f1 f2 : A → Prog B) :
  agree w1 w2 m1 m2 → (∀ a, agree w1 w2 (f1 a) (f2 a)) →
  agree w1 w2 (m1 ≫= f1) (m2 ≫= f2).
Proof.
  intros Hm Hf σ1 σ2 H. unfold mbind, prog_bind, bind.
  destruct (Hm σ1 σ2 H) as [Hr Hs].
  destruct (m1 σ1) as [[a1|e1] σ1'], (m2 σ2) as [[a2|e2] σ2'];
    simpl in *; try done.
  - injection Hr as <-. by apply Hf.
  - by injection Hr as <-.
Qed.

Lemma deref_agree (w1 w2 : loc) (σ1 σ2 : store) :
  σ1 !! w1 = σ2 !! w2 → deref w1 σ1 = deref w2 σ2.
Proof. unfold deref. by intros ->. Qed.

Lemma agree_kw_in (w1 w2 : loc) (k : string) :
  agree w1 w2 (kw_in k w1) (kw_in k w2).
Proof.
  intros σ1 σ2 H. unfold kw_in. simpl. by rewrite (deref_agree _ _ _ _ H).
Qed.

Lemma agree_kw_get (w1 w2 : loc) (k : string) :
  agree w1 w2 (kw_get k w1) (kw_get k w2).
Proof.
  intros σ1 σ2 H. unfold kw_get. simpl. by rewrite (deref_agree _ _ _ _ H).
Qed.

Lemma agree_kw_items (w1 w2 : loc) : agree w1 w2 (kw_items w1) (kw_items w2).
Proof.
  intros σ1 σ2 H. unfold kw_items. simpl. by rewrite (deref_agree _ _ _ _ H).
Qed.

Lemma agree_kw_pop (w1 w2 : loc) (k : string) :
  agree w1 w2 (kw_pop k w1) (kw_pop k w2).
Proof.
  intros σ1 σ2 H. unfold kw_pop. rewrite (deref_agree _ _ _ _ H).
  destruct (dict_get k (deref w2 σ2)); simpl; [|done].
  split; [done|].
  destruct (σ1 !! w1) as [d1|] eqn:E1, (σ2 !! w2) as [d2|] eqn:E2;
    try done.
  - rewrite !list_lookup_insert_eq; [done | | ];
      by eapply lookup_lt_Some.
  - rewrite !list_insert_ge; [congruence | | ]; by apply lookup_ge_None.
Qed.

Ltac agree_steps :=
  cbv zeta;
  repeat first
    [ apply agree_ret | apply agree_raise | apply agree_lift
    | apply agree_kw_in | apply agree_kw_get | apply agree_kw_pop
    | apply agree_kw_items
    | apply agree_bind; [|intros ?]
    | match goal with
      | |- agree _ _ (if ?b then _ else _) _ => destruct b
      | |- agree _ _ (match ?a with _ => _ end) _ => destruct a
      end ].

Lemma agree_write_job (w1 w2 : loc) : agree w1 w2 (write_job w1) (write_job w2).
Proof. unfold write_job. agree_steps. Qed.

Lemma agree_write_keywords properties (w1 w2 : loc) :
  agree w1 w2 (write_keywords properties w1) (write_keywords properties w2).
Proof. unfold write_keywords. agree_steps. Qed.

Lemma agree_write_dict (w1 w2 : loc) :
  agree w1 w2 (write_dict w1) (write_dict w2).
Proof. unfold write_dict. agree_steps. Qed.

Lemma agree_write_xyz atoms (w1 w2 : loc) :
  agree w1 w2 (write_xyz atoms w1) (write_xyz atoms w2).
Proof. unfold write_xyz. agree_steps. Qed.

(** *** The writer and the caller's parameter set *)

Lemma bind_deepcopy {A} (kw : loc) (f : loc → Prog A) (σ : store) :
  (deepcopy kw ≫= f) σ = f (length σ) (σ ++ [deref kw σ]).
Proof. reflexivity. Qed.

Lemma bind_collect_kwargs {A} (p : loc) (f : loc → Prog A) (σ : store) :
  (collect_kwargs p ≫= f) σ = f (length σ) (σ ++ [deref p σ]).
Proof. reflexivity. Qed.

(** A step that is confined to the newest object leaves the others. *)
Lemma confined_newest {A} (m : Prog A) (σ : store) (d : pydict) :
  confined (length σ) m → ∃ work, (m (σ ++ [d])).2 = σ ++ [work].
Proof.
  intros Hm. destruct (Hm (σ ++ [d])) as [Hlen Hl].
  rewrite length_app in Hlen. simpl in Hlen.
  destruct (lookup_lt_is_Some_2 (m (σ ++ [d])).2 (length σ)) as [work Hw];
    [lia|].
  exists work. apply list_eq. intros l.
  destruct (decide (l = length σ)) as [->|Hne].
  - by rewrite Hw, list_lookup_middle.
  - rewrite Hl by done.
    destruct (decide (l < length σ)).
    + by rewrite !lookup_app_l.
    + rewrite !lookup_ge_None_2; [done | | ]; rewrite length_app; simpl; lia.
Qed.

Lemma agree_newest {A} (m1 m2 : Prog A) (σ1 σ2 : store) (d : pydict) :
  agree (length σ1) (length σ2) m1 m2 →
  (m1 (σ1 ++ [d])).1 = (m2 (σ2 ++ [d])).1.
Proof.
  intros H. apply H.
  by rewrite !list_lookup_middle.
Qed.

(** The steps of [write_aip] after the copy. *)
Ltac writer_steps lemma_bind lemma_ret :=
  cbv zeta;
  repeat first
    [ apply lemma_ret
    | apply confined_write_job | apply confined_write_keywords
    | apply confined_write_dict | apply confined_write_xyz
    | apply agree_write_job | apply agree_write_keywords
    | apply agree_write_dict | apply agree_write_xyz
    | apply lemma_bind; [|intros ?] ].

Lemma write_aip_copies atoms properties (kw : loc) (σ : store) :
  ∃ work, (write_aip atoms properties kw σ).2 = σ ++ [work].
Proof.
  unfold write_aip. cbv zeta. rewrite bind_deepcopy.
  apply confined_newest with (m := λ σ', _ σ').
  writer_steps @confined_bind @confined_ret.
Qed.

Lemma write_aip_agrees atoms properties (kw1 kw2 : loc) (σ1 σ2 : store) :
  σ1 !! kw1 = σ2 !! kw2 →
  (write_aip atoms properties kw1 σ1).1 = (write_aip atoms properties kw2 σ2).1.
Proof.
  intros H. unfold write_aip. cbv zeta. rewrite !bind_deepcopy.
  rewrite (deref_agree _ _ _ _ H).
  apply agree_newest.
  writer_steps @agree_bind @agree_ret.
Qed.

(** The call of [write_aip] in [Amesp.write_input], by cases. *)
Lemma write_input_run atoms properties (p : loc) (σ : store) :
  write_input atoms properties p σ
  = if collides (deref p σ) then (Raise TypeError, σ)
    else write_aip atoms properties (length σ) (σ ++ [deref p σ]).
Proof.
  unfold write_input, mbind, prog_bind, bind, kw_items. cbn beta iota zeta.
  by destruct (collides (deref p σ)).
Qed.

Lemma write_input_collides atoms properties (p : loc) (σ : store) :
  collides (deref p σ) = true →
  write_input atoms properties p σ = (Raise TypeError, σ).
Proof. intros H. by rewrite write_input_run, H. Qed.

(** When the call returns, the body of [write_aip] ran on the collected
    keyword arguments. *)
Lemma write_input_Ok atoms properties (p : loc) (σ : store) text σ' :
  write_input atoms properties p σ = (Ok text, σ') →
  collides (deref p σ) = false ∧
  write_aip atoms properties (length σ) (σ ++ [deref p σ]) = (Ok text, σ').
Proof.
  rewrite write_input_run. by destruct (collides (deref p σ)).
Qed.

Lemma write_input_copies atoms properties (p : loc) (σ : store) :
  collides (deref p σ) = false →
  ∃ work, (write_input atoms properties p σ).2 = σ ++ [deref p σ; work].
Proof.
  intros H. rewrite write_input_run, H.
  destruct (write_aip_copies atoms properties (length σ) (σ ++ [deref p σ]))
    as [work Hw].
  exists work. rewrite Hw. by rewrite <- app_assoc.
Qed.

(** The call leaves the objects that existed before it. *)
Lemma write_input_frame atoms properties (p : loc) (σ : store) (l : loc) :
  l < length σ → (write_input atoms properties p σ).2 !! l = σ !! l.
Proof.
  intros Hl. destruct (collides (deref p σ)) eqn:E.
  - by rewrite write_input_collides.
  - destruct (write_input_copies atoms properties p σ E) as [work Hw].
    rewrite Hw. by rewrite lookup_app_l.
Qed.

Lemma write_input_agrees atoms properties (p1 p2 : loc) (σ1 σ2 : store) :
  σ1 !! p1 = σ2 !! p2 →
  (write_input atoms properties p1 σ1).1
    = (write_input atoms properties p2 σ2).1.
Proof.
  intros H. rewrite !write_input_run. rewrite (deref_agree _ _ _ _ H).
  destruct (collides (deref p2 σ2)); [done|].
  apply write_aip_agrees. by rewrite !list_lookup_middle.
Qed.

(** C7.  The writer leaves every dictionary of the caller as it was: the
    store after [write_input] (and after [write_aip]) is the store before
    it, followed by the objects that the call created; the keys are
    popped from the last of them.  A call that raises for a name with two
    values creates no object. *)
Theorem writer_keeps_the_parameters atoms properties (p : loc) (σ : store) :
  (∀ l, l < length σ →
     (write_input atoms properties p σ).2 !! l = σ !! l) ∧
  (collides (deref p σ) = false →
     ∃ work, (write_input atoms properties p σ).2 = σ ++ [deref p σ; work]) ∧
  (collides (deref p σ) = true →
     write_input atoms properties p σ = (Raise TypeError, σ)) ∧
  (∀ l, l < length σ →
     (write_aip atoms properties p σ).2 !! l = σ !! l) ∧
  (p < length σ →
     deref p (write_input atoms properties p σ).2 = deref p σ ∧
     deref p (write_aip atoms properties p σ).2 = deref p σ).
Proof.
  destruct (write_aip_copies atoms properties p σ) as [work' Hw'].
  assert (∀ l, l < length σ →
            (write_input atoms properties p σ).2 !! l = σ !! l) as H1.
  { intros l Hl. by apply write_input_frame. }
  assert (∀ l, l < length σ →
            (write_aip atoms properties p σ).2 !! l = σ !! l) as H2.
  { intros l Hl. rewrite Hw'.
    by rewrite lookup_app_l. }
  split; [done|]. split; [apply write_input_copies|].
  split; [apply write_input_collides|]. split; [done|].
  intros Hp. unfold deref. by rewrite H1, H2.
Qed.

(** *** The value formatter and the named blocks *)

Lemma kv_fmt_is_Some (k : string) (v : value RT) :
  is_Some (kv_fmt k v) ↔ is_scalar v = true.
Proof. destruct v; simpl; split; (done || by intros []). Qed.

Lemma kv_fmt_is_None (k : string) (v : value RT) :
  kv_fmt k v = None ↔ is_scalar v = false.
Proof. destruct v; simpl; split; done. Qed.

Lemma dict_set_fresh {V} (k : string) (v : V) (d : list (string * V)) :
  k ∉ d.*1 → dict_set k v d = d ++ [(k, v)].
Proof.
  induction d as [|[k' v'] d IH]; intros Hk; simpl; [done|].
  rewrite fmap_cons, not_elem_of_cons in Hk. destruct Hk as [Hne Hk].
  destruct (String.eqb_spec k' k) as [->|_]; [done|].
  by rewrite IH.
Qed.

Lemma foldl_dict_set {V W}
    (step : list (string * W) → string * V → list (string * W))
    (sel : string * V → option W) (l : list (string * V))
    (acc : list (string * W)) :
  (∀ acc kv, kv ∈ l →
     step acc kv
     = match sel kv with Some w => dict_set kv.1 w acc | None => acc end) →
  NoDup (acc.*1 ++ l.*1) →
  foldl step acc l = acc ++ omap (λ kv, (kv.1,.) <$> sel kv) l.
Proof.
  revert acc.
  induction l as [|[k v] l IH]; intros acc Hstep Hnd; simpl.
  - by rewrite app_nil_r.
  - rewrite Hstep by left. simpl in *.
    apply NoDup_app in Hnd as (Hacc & Hdisj & Hl).
    apply NoDup_cons in Hl as [Hk Hl].
    destruct (sel (k, v)) as [w|]; simpl.
    + rewrite dict_set_fresh by (intros Hin; apply (Hdisj _ Hin); left).
      rewrite IH.
      * by rewrite <- app_assoc.
      * intros acc' kv Hkv. apply Hstep. by right.
      * rewrite fmap_app. simpl. rewrite <- app_assoc. simpl.
        apply NoDup_app. repeat split; [done| |by constructor].
        intros x Hx Hx'. by apply (Hdisj x).
    + apply IH.
      * intros acc' kv Hkv. apply Hstep. by right.
      * apply NoDup_app. repeat split; [done| |done].
        intros x Hx Hx'. apply (Hdisj x Hx). by right.
Qed.

Lemma scalar_items_omap (d : list (string * value RT)) :
  omap (λ kv : string * value RT,
          (kv.1,.) <$> (if is_scalar kv.2 then Some kv.2 else None)) d
  = scalar_items d.
Proof.
  unfold scalar_items.
  induction d as [|[k v] d IH]; [done|]. cbn [omap list_omap].
  rewrite filter_cons. cbn [fst snd].
  destruct (is_scalar v) eqn:E; cbn.
  - rewrite decide_True by done. by rewrite <- IH.
  - rewrite decide_False by done. done.
Qed.

Lemma scalar_items_lines (d : list (string * value RT)) :
  omap (λ '(k, v), kv_fmt k v) (scalar_items d)
    = omap (λ '(k, v), kv_fmt k v) d.
Proof.
  unfold scalar_items.
  induction d as [|[k v] d IH]; [done|].
  rewrite filter_cons. cbn [fst snd].
  destruct (is_scalar v) eqn:E.
  - rewrite decide_True by done. cbn [omap list_omap]. by rewrite IH.
  - rewrite decide_False by done. cbn [omap list_omap].
    apply (kv_fmt_is_None k) in E. by rewrite E.
Qed.

Lemma scalar_items_length (d : list (string * value RT)) :
  length (scalar_items d) = length (omap (λ '(k, v), kv_fmt k v) d).
Proof.
  unfold scalar_items.
  induction d as [|[k v] d IH]; [done|].
  rewrite filter_cons. cbn [fst snd].
  destruct (is_scalar v) eqn:E.
  - rewrite decide_True by done. cbn [omap list_omap].
    apply (kv_fmt_is_Some k) in E as [line E]. rewrite E. simpl. by rewrite IH.
  - rewrite decide_False by done. cbn [omap list_omap].
    apply (kv_fmt_is_None k) in E. by rewrite E.
Qed.

Lemma collect_blocks_unique (items : list (string * value RT)) :
  well_formed items →
  collect_blocks items
    = omap (λ kv : string * value RT,
        (kv.1,.) <$>
          match kv.2 with
          | VDict d => if 0 <? length (scalar_items d)
                       then Some (scalar_items d) else None
          | _ => None
          end) items.
Proof.
  intros [Hu Hnested]. rewrite Forall_forall in Hnested.
  unfold collect_blocks.
  rewrite foldl_dict_set with
    (sel := λ kv : string * value RT,
       match kv.2 with
       | VDict d => if 0 <? length (scalar_items d)
                    then Some (scalar_items d) else None
       | _ => None
       end).
  { reflexivity. }
  2: { exact Hu. }
  intros acc [k0 v0] Hin. simpl. destruct v0 as [| | | | | |d]; try done.
  rewrite foldl_dict_set with
      (sel := λ kv : string * value RT,
                if is_scalar kv.2 then Some kv.2 else None).
  - rewrite scalar_items_omap. simpl.
    by destruct (0 <? length (scalar_items d)).
  - intros kv [k1 v1] _. simpl. by destruct (is_scalar v1).
  - simpl. apply (Hnested _ Hin).
Qed.

Lemma block_lines_spec (items : list (string * value RT)) :
  well_formed items →
  join NL (block_lines (collect_blocks items)) = spec_blocks items.
Proof.
  intros Hwf. rewrite collect_blocks_unique by done.
  unfold spec_blocks, spec_block_lines. f_equal. clear Hwf.
  induction items as [|[k0 v0] items IH]; [done|].
  cbn [omap list_omap mbind list_bind]. rewrite <- IH. cbn [fst snd].
  destruct v0 as [| | | | | |d]; try done.
  rewrite scalar_items_length.
  destruct (0 <? length (omap _ d)); [|done].
  cbn. unfold spec_block. by rewrite scalar_items_lines.
Qed.

Lemma write_dict_spec (kw : nat) (σ : list (list (string * value RT))) :
  well_formed (deref kw σ) →
  write_dict kw σ = (Ok (spec_blocks (deref kw σ)), σ).
Proof.
  intros Hwf. rewrite <- block_lines_spec by done.
  unfold write_dict, kw_items, mbind, prog_bind, bind.
  by destruct (collect_blocks (deref kw σ)).
Qed.

(** C8.  The value formatter renders text as [" k v"], a real as
    [" k v"] in fixed point, a boolean as [" k on"] or [" k off"], an
    integer as [" k v"]; for a value of another type it returns nothing.
    [write_dict] never raises: it emits for every nested mapping the lines
    of the keys that the formatter renders, in order, and no block for a
    mapping none of whose keys is rendered. *)
Theorem value_formatter_and_blocks :
  (∀ k s, kv_fmt k (VStr s) = Some (" " +:+ k +:+ " " +:+ s)) ∧
  (∀ k x, kv_fmt k (VFloat x) = Some (" " +:+ k +:+ " " +:+ pct_f x)) ∧
  (∀ k, kv_fmt k (VBool true) = Some (" " +:+ k +:+ " on")) ∧
  (∀ k, kv_fmt k (VBool false) = Some (" " +:+ k +:+ " off")) ∧
  (∀ k z, kv_fmt k (VInt z) = Some (" " +:+ k +:+ " " +:+ dec z)) ∧
  (∀ k v, type_of v ∉ [Tstr; Tfloat; Tbool; Tint] → kv_fmt k v = None) ∧
  (∀ (kw : loc) (σ : store),
     well_formed (deref kw σ) →
     write_dict kw σ = (Ok (spec_blocks (deref kw σ)), σ)) ∧
  (∀ name k v (d : pydict),
     type_of v ∉ [Tstr; Tfloat; Tbool; Tint] →
     spec_blocks [(name, VDict ((k, v) :: d))]
       = spec_blocks [(name, VDict d)]) ∧
  (∀ name (d : pydict),
     Forall (λ kv, type_of kv.2 ∉ [Tstr; Tfloat; Tbool; Tint]) d →
     spec_blocks [(name, VDict d)] = EmptyString).
Proof.
  assert (∀ k (v : value RT),
            type_of v ∉ [Tstr; Tfloat; Tbool; Tint] → kv_fmt k v = None)
    as Hother.
  { intros k v Hv. destruct v; try done; exfalso; apply Hv; simpl;
      repeat constructor. }
  repeat split; try done.
  - apply write_dict_spec.
  - intros name k v d Hv. unfold spec_blocks, spec_block_lines, spec_block.
    cbn [mbind list_bind omap list_omap]. by rewrite (Hother k v Hv).
  - intros name d Hd. unfold spec_blocks, spec_block_lines.
    cbn [mbind list_bind].
    replace (omap (λ '(k, v), kv_fmt k v) d) with (@nil string); [done|].
    induction Hd as [|[k v] d Hv Hd IH]; [done|].
    cbn [omap list_omap]. by rewrite (Hother k v Hv).
Qed.

(** C9.  Two calls of the writer with the same structure and equal
    parameter sets have the same outcome, text for text; in particular a
    second call after a first one, on the same parameter set.  The blocks
    follow the order of the items of the parameter set, and the lines of a
    block the order of the items of its mapping. *)
Theorem writer_is_deterministic atoms properties :
  (∀ (p1 p2 : loc) (σ1 σ2 : store),
     σ1 !! p1 = σ2 !! p2 →
     (write_input atoms properties p1 σ1).1
       = (write_input atoms properties p2 σ2).1) ∧
  (∀ (p : loc) (σ : store),
     p < length σ →
     (write_input atoms properties p (write_input atoms properties p σ).2).1
       = (write_input atoms properties p σ).1) ∧
  (∀ (kw : loc) (σ : store),
     well_formed (deref kw σ) →
     (write_dict kw σ).1 = Ok (join NL (spec_block_lines (deref kw σ)))) ∧
  (∀ items1 items2 : pydict,
     spec_block_lines (items1 ++ items2)
       = spec_block_lines items1 ++ spec_block_lines items2) ∧
  (∀ name (d1 d2 : pydict),
     spec_block name (d1 ++ d2)
       = [">" +:+ name;
          join NL (omap (λ '(k, v), kv_fmt k v) d1
                   ++ omap (λ '(k, v), kv_fmt k v) d2);
          "end"]).
Proof.
  repeat apply conj.
  - intros p1 p2 σ1 σ2 H. by apply write_input_agrees.
  - intros p σ Hp. apply write_input_agrees.
    by apply write_input_frame.
  - intros kw σ Hwf. by rewrite write_dict_spec.
  - intros items1 items2. unfold spec_block_lines. apply bind_app.
  - intros name d1 d2. unfold spec_block. by rewrite omap_app.
Qed.

End Writer.


(* ===================================================================== *)
(** ** The properties on the sample transcripts *)
(* ===================================================================== *)

Section Examples.
Import QRuntime Samples.

(** Decides a closed statement by evaluation. *)
Ltac run := apply (bool_decide_unpack _); vm_compute; exact I.

(** C1 (the code at the failing inputs).  With one geometry section and
    no dipole section, or no energy line, the extractor returns an empty
    sequence and [iread_aop] fails with [IndexError] at the first image;
    with no charges section the charge extractor returns one absent value
    and [iread_aop] returns the image. *)
Theorem dipole_and_energy_are_not_padded :
  length (findall pattern_aop_xyz no_dipole) = 1 ∧
  parse_aop_dipole no_dipole 1 = Ok [] ∧
  iread_aop no_dipole = Raise IndexError ∧
  length (findall pattern_aop_xyz no_energy) = 1 ∧
  parse_aop_energy no_energy 1 = Ok [] ∧
  iread_aop no_energy = Raise IndexError ∧
  length (findall pattern_aop_xyz no_charges) = 1 ∧
  parse_aop_charge no_charges 1 = Ok [None] ∧
  (iread_aop no_charges ≫= λ images, getitem images 0)
    ≫= (λ img, Ok (charges (results img))) = Ok None.
Proof. repeat apply conj; run. Qed.

(** C2 (the code at the failing inputs).  With two Cartesian regions, and
    with the substring [>xyz] but no Cartesian region, [read_aip] raises
    [StopIteration]; it returns [None] for a transcript with neither
    substring. *)
Theorem read_aip_raises_without_one_region
    (zm : option string → string → result (Atoms runtime)) :
  length (findall pattern_xyz two_regions_aip) = 2 ∧
  read_aip zm two_regions_aip = Raise StopIteration ∧
  length (findall pattern_xyz no_region_aip) = 0 ∧
  read_aip zm no_region_aip = Raise StopIteration ∧
  read_aip zm no_geometry_aip = Ok None.
Proof. repeat apply conj; run. Qed.

(** C6 (the code at the failing input).  The writer emits the header
    [>xyz -1 1] for the charge [-1]; the reader finds no Cartesian region
    in the written transcript and raises [StopIteration].  With the charge
    [0] of [job_parameters] the same structure is read back. *)
Theorem negative_charge_is_not_read_back
    (zm : option string → string → result (Atoms runtime)) :
  (write_input (One hydrogen_atom) None 0 [anion_parameters]).1
    = Ok anion_written ∧
  findall pattern_xyz anion_written = [] ∧
  read_aip zm anion_written = Raise StopIteration ∧
  (write_input (One hydrogen_atom) None 0 [job_parameters]).1 ≫= read_aip zm
    = Ok (Some hydrogen_atom).
Proof. repeat apply conj; run. Qed.

(** C4 (as stated) fails: the transcript has two geometry sections and
    one charges section, and [iread_aop] raises [IndexError] instead of
    returning two images. *)
Lemma iread_aop_two_sections_no_images :
  length (findall pattern_aop_xyz two_steps_one_charges) = 2 ∧
  iread_aop two_steps_one_charges = Raise IndexError.
Proof. repeat apply conj; run. Qed.

(** C4 (as amended) on [two_steps]: two geometry sections, two images. *)
Lemma iread_aop_image_count_witness :
  length (findall pattern_aop_xyz two_steps) = 2 ∧
  iread_aop two_steps = Ok two_steps_images ∧
  length two_steps_images = 2 ∧
  ∃ images, iread_aop two_steps = Ok images ∧
            length images = length (findall pattern_aop_xyz two_steps) ∧
            atoms <$> images = atoms <$> two_steps_images.
Proof.
  assert (iread_aop two_steps = Ok two_steps_images) as Himages by run.
  destruct (iread_aop_image_count two_steps) as (Hcount & Hreturns & _).
  destruct (Hcount two_steps_images Himages) as [Hlen _].
  repeat apply conj; [run | exact Himages | reflexivity |].
  apply (Hreturns two_steps_element two_steps_position
           (atoms <$> two_steps_images)
           two_steps_charge two_steps_magmom two_steps_dipole
           two_steps_energy two_steps_force); try run.
  all: rewrite <- Hlen; simpl; lia.
Defined.

(** C5 (as stated) fails: the transcript has no geometry section and
    two energy lines, the second without a number; the energy extractor
    raises [ValueError], and so does [read_aop] for every index. *)
Lemma read_aop_raises_ValueError :
  length (findall pattern_aop_xyz Cases.second_energy_malformed) = 0 ∧
  iread_aop Cases.second_energy_malformed = Raise ValueError ∧
  read_aop Cases.second_energy_malformed (-1) = Raise ValueError ∧
  read_aop Cases.second_energy_malformed 0 = Raise ValueError.
Proof. repeat apply conj; run. Qed.

(** C5 (as amended) on [two_steps] (two images) and on [no_geometry]
    (none). *)
Lemma read_aop_selects_by_index_witness :
  last two_steps_images = two_steps_images !! 1 ∧
  read_aop two_steps (-1) = of_option IndexError (two_steps_images !! 1) ∧
  read_aop two_steps 2 = Raise IndexError ∧
  read_aop two_steps (-3) = Raise IndexError ∧
  read_aop no_geometry (-1) = Raise IndexError ∧
  read_aop no_geometry 0 = Raise IndexError.
Proof.
  assert (iread_aop two_steps = Ok two_steps_images) as Himages by run.
  destruct (read_aop_selects_by_index two_steps) as (Hlast & _ & Hrange & _).
  destruct (read_aop_selects_by_index no_geometry)
    as (_ & _ & _ & _ & Hnone & _).
  repeat apply conj.
  - reflexivity.
  - rewrite Hlast, Himages. reflexivity.
  - apply (Hrange two_steps_images 2%Z Himages). simpl. lia.
  - apply (Hrange two_steps_images (-3)%Z Himages). simpl. lia.
  - apply (Hnone (-1)%Z
             (returned (parse_aop_charge no_geometry 0) [])
             (returned (parse_aop_spin no_geometry 0) [])
             (returned (parse_aop_dipole no_geometry 0) [])
             (returned (parse_aop_energy no_geometry 0) [])
             (returned (parse_aop_gradient no_geometry 0) [])); run.
  - apply (Hnone 0%Z
             (returned (parse_aop_charge no_geometry 0) [])
             (returned (parse_aop_spin no_geometry 0) [])
             (returned (parse_aop_dipole no_geometry 0) [])
             (returned (parse_aop_energy no_geometry 0) [])
             (returned (parse_aop_gradient no_geometry 0) [])); run.
Defined.



(** C10 on [zmat_and_xyz_aip]: the z-matrix region would resolve, and
    [read_aip] still takes the Cartesian path, which raises. *)
Lemma read_aip_dispatches_on_substring_witness :
  contains ">xyz" zmat_and_xyz_aip = true ∧
  parse_zmat any_zmatrix zmat_and_xyz_aip = Ok hydrogen_atom ∧
  read_aip any_zmatrix zmat_and_xyz_aip = Some <$> parse_xyz zmat_and_xyz_aip ∧
  read_aip any_zmatrix zmat_and_xyz_aip = Raise StopIteration.
Proof.
  assert (contains ">xyz" zmat_and_xyz_aip = true) as H by run.
  destruct (read_aip_dispatches_on_substring
              any_zmatrix any_zmatrix zmat_and_xyz_aip H) as [Hxyz _].
  repeat apply conj; [exact H | run | exact Hxyz | run].
Defined.

(** C7 on [job_parameters]: all five distinguished keys are still in the
    caller's dictionary after the call. *)
Lemma writer_keeps_the_parameters_witness :
  (write_input (One hydrogen_atom) None 0 [job_parameters]).2 !! 0
    = Some job_parameters ∧
  deref 0 (write_aip (One hydrogen_atom) None 0 [job_parameters]).2
    = job_parameters.
Proof.
  destruct (writer_keeps_the_parameters
              (One hydrogen_atom) None 0 [job_parameters])
    as (Hinput & _ & _ & _ & Hderef).
  split.
  - apply (Hinput 0). simpl. lia.
  - apply Hderef. simpl. lia.
Defined.

(** C9 on [job_parameters]: a second call, and a call from another
    store, return the text of the first. *)
Lemma writer_is_deterministic_witness :
  (write_input (One hydrogen_atom) None 0
     (write_input (One hydrogen_atom) None 0 [job_parameters]).2).1
  = (write_input (One hydrogen_atom) None 0 [job_parameters]).1 ∧
  (write_input (One hydrogen_atom) None 0 [job_parameters]).1
  = (write_input (One hydrogen_atom) None 1 [anion_parameters; job_parameters]).1 ∧
  (write_dict 0 [job_parameters]).1
  = Ok (join NL (spec_block_lines job_parameters)).
Proof.
  destruct (writer_is_deterministic (One hydrogen_atom) None)
    as (Hsame & Hagain & Hblocks & _).
  repeat apply conj.
  - apply (Hagain 0 [job_parameters]). simpl. lia.
  - apply (Hsame 0 1 [job_parameters] [anion_parameters; job_parameters]).
    reflexivity.
  - apply (Hblocks 0 [job_parameters]). split.
    + run.
    + repeat constructor; simpl; try exact I; run.
Defined.

(** C8 on [job_parameters]: the key [guess] (no value) is dropped from
    the block [method], and the block [scf] is not emitted. *)
Lemma value_formatter_and_blocks_witness :
  write_dict 0 [job_parameters]
    = (Ok (spec_blocks job_parameters), [job_parameters]) ∧
  spec_blocks job_parameters = job_blocks ∧
  spec_blocks [("scf", VDict [("start", VNone)])] = EmptyString.
Proof.
  destruct (value_formatter_and_blocks (RT:=runtime))
    as (_ & _ & _ & _ & _ & _ & Hdict & _ & Hnone).
  repeat apply conj.
  - apply (Hdict 0 [job_parameters]). split.
    + run.
    + repeat constructor; simpl; try exact I; run.
  - run.
  - apply Hnone. repeat constructor. simpl. intros Hin.
    repeat (apply elem_of_cons in Hin as [Hin|Hin]; [discriminate|]).
    by apply elem_of_nil in Hin.
Defined.

End Examples.

(* ===================================================================== *)
(** ** Further properties of the output readers *)
(* ===================================================================== *)

Section ReaderProperties.

Context {RT : Runtime}.

#[local] Arguments findall : simpl never.
#[local] Arguments findall_groups : simpl never.

Ltac inv_bind H :=
  let a := fresh "a" in
  let Ha := fresh "H" a in
  cbv zeta in H; apply bind_Ok in H; destruct H as (a & Ha & H);
  cbv zeta in H.

Lemma padded_count {A} (l : list A) (n : nat) :
  length (if length (upto (n + 1) l) =? 0
          then absent n else Some <$> upto (n + 1) l)
  = if length l =? 0 then n else length l `min` (n + 1).
Proof.
  unfold upto. rewrite length_take. destruct l as [|x l]; cbn [length].
  - rewrite Nat.min_0_r. cbn [Nat.eqb]. unfold absent.
    by rewrite length_replicate.
  - replace ((n + 1) `min` S (length l) =? 0) with false
      by (symmetry; apply Nat.eqb_neq; lia).
    rewrite length_fmap, length_take. cbn [length Nat.eqb]. lia.
Qed.

Lemma parse_aop_charge_count text n l :
  parse_aop_charge text n = Ok l →
  length l = if length (findall pattern_charge text) =? 0 then n
             else length (findall pattern_charge text) `min` (n + 1).
Proof.
  intros H. unfold parse_aop_charge in H. inv_bind H.
  apply mapM_Ok_length in Ha. rewrite <- Ha, <- padded_count.
  by destruct (length (upto (n + 1) a) =? 0); injection H as <-.
Qed.

Lemma parse_aop_spin_count text n l :
  parse_aop_spin text n = Ok l →
  length l = if length (findall pattern_spin text) =? 0 then n
             else length (findall pattern_spin text) `min` (n + 1).
Proof.
  intros H. unfold parse_aop_spin in H. inv_bind H.
  apply mapM_Ok_length in Ha. rewrite <- Ha, <- padded_count.
  by destruct (length (upto (n + 1) a) =? 0); injection H as <-.
Qed.

Lemma parse_aop_dipole_count text n l :
  parse_aop_dipole text n = Ok l →
  length l = length (findall_groups pattern_dipole text) `min` (n + 1).
Proof.
  intros H. unfold parse_aop_dipole in H. inv_bind H.
  apply mapM_Ok_length in Ha. injection H as <-.
  unfold upto. rewrite length_take. lia.
Qed.

Lemma parse_aop_energy_count text n l :
  parse_aop_energy text n = Ok l →
  length l = length (findall pattern_energy text) `min` (n + 1).
Proof.
  intros H. unfold parse_aop_energy in H. inv_bind H.
  apply mapM_Ok_length in Ha. injection H as <-.
  unfold upto, times. rewrite length_take, length_fmap. lia.
Qed.

Lemma parse_aop_gradient_count text n l :
  parse_aop_gradient text n = Ok l →
  length l = if length (findall pattern_gradient text) =? 0 then n
             else length (findall pattern_gradient text) `min` (n + 1).
Proof.
  intros H. unfold parse_aop_gradient in H.
  destruct (length (findall pattern_gradient text)) as [|m] eqn:E.
  - simpl in H. injection H as <-. unfold absent.
    by rewrite length_replicate.
  - change (0 <? S m) with true in H. cbv iota in H.
    change (S m =? 0) with false. cbv iota.
    inv_bind H. apply mapM_Ok_length in Ha.
    injection H as <-. unfold upto.
    rewrite length_fmap, length_take, Ha, E. lia.
Qed.

(** X1 (parse_aop_charge, parse_aop_spin, parse_aop_dipole,
    parse_aop_energy, parse_aop_gradient): the length of the sequence that
    an extractor returns for [n] images.  With [c] occurrences of its
    section it is the smaller of [c] and [n + 1]; the charge, spin and
    gradient extractors return [n] elements when there is no
    occurrence. *)
Theorem extractor_lengths (text : string) (n : nat) :
  (∀ l, parse_aop_charge text n = Ok l →
     length l = if length (findall pattern_charge text) =? 0 then n
                else length (findall pattern_charge text) `min` (n + 1)) ∧
  (∀ l, parse_aop_spin text n = Ok l →
     length l = if length (findall pattern_spin text) =? 0 then n
                else length (findall pattern_spin text) `min` (n + 1)) ∧
  (∀ l, parse_aop_dipole text n = Ok l →
     length l = length (findall_groups pattern_dipole text) `min` (n + 1)) ∧
  (∀ l, parse_aop_energy text n = Ok l →
     length l = length (findall pattern_energy text) `min` (n + 1)) ∧
  (∀ l, parse_aop_gradient text n = Ok l →
     length l = if length (findall pattern_gradient text) =? 0 then n
                else length (findall pattern_gradient text) `min` (n + 1)).
Proof.
  repeat apply conj; intros l H.
  - by apply parse_aop_charge_count.
  - by apply parse_aop_spin_count.
  - by apply parse_aop_dipole_count.
  - by apply parse_aop_energy_count.
  - by apply parse_aop_gradient_count.
Qed.

(** X2 (parse_aop_charge, parse_aop_spin, parse_aop_gradient): when the
    section does not occur, every image index below [n] can be read from
    the sequence, and reads [None]. *)
Theorem absent_sections_are_indexable (text : string) (n i : nat) :
  i < n →
  (findall pattern_charge text = [] →
     parse_aop_charge text n ≫= (λ l, getitem l (Z.of_nat i)) = Ok None) ∧
  (findall pattern_spin text = [] →
     parse_aop_spin text n ≫= (λ l, getitem l (Z.of_nat i)) = Ok None) ∧
  (findall pattern_gradient text = [] →
     parse_aop_gradient text n ≫= (λ l, getitem l (Z.of_nat i)) = Ok None).
Proof.
  intros Hi.
  assert (∀ A, getitem (absent (A:=A) n) (Z.of_nat i) = Ok None) as Habs.
  { intros A. rewrite getitem_nat. unfold absent.
    by rewrite lookup_replicate_2. }
  repeat apply conj; intros H.
  - rewrite parse_aop_charge_absent by done. apply Habs.
  - rewrite parse_aop_spin_absent by done. apply Habs.
  - rewrite parse_aop_gradient_absent by done. apply Habs.
Qed.

(** X3 (the five extractors): whether an extractor raises does not
    depend on the number of images.  The values of every occurrence are
    converted before the sequence is cut, so a malformed occurrence makes
    the extractor raise even where the cut would have dropped it. *)
Theorem conversion_precedes_truncation (text : string) (n n' : nat) (e : exn) :
  (parse_aop_charge text n = Raise e → parse_aop_charge text n' = Raise e) ∧
  (parse_aop_spin text n = Raise e → parse_aop_spin text n' = Raise e) ∧
  (parse_aop_dipole text n = Raise e → parse_aop_dipole text n' = Raise e) ∧
  (parse_aop_energy text n = Raise e → parse_aop_energy text n' = Raise e) ∧
  (parse_aop_gradient text n = Raise e → parse_aop_gradient text n' = Raise e).
Proof.
  repeat apply conj.
  - unfold parse_aop_charge. cbv zeta.
    destruct (mapM _ (findall pattern_charge text)) as [a|e']; simpl.
    + by destruct (length (upto (n + 1) a) =? 0).
    + done.
  - unfold parse_aop_spin. cbv zeta.
    destruct (mapM _ (findall pattern_spin text)) as [a|e']; simpl.
    + by destruct (length (upto (n + 1) a) =? 0).
    + done.
  - unfold parse_aop_dipole. cbv zeta.
    by destruct (mapM _ (findall_groups pattern_dipole text)) as [a|e'].
  - unfold parse_aop_energy. cbv zeta.
    by destruct (np_float1 (findall pattern_energy text)) as [a|e'].
  - unfold parse_aop_gradient. cbv zeta.
    destruct (0 <? length (findall pattern_gradient text)); [|done].
    by destruct (mapM _ (findall pattern_gradient text)) as [a|e'].
Qed.

Lemma getitem_last_Ok {A} (l : list A) (x : A) :
  getitem l (-1) = Ok x → last l = Some x.
Proof. rewrite getitem_last. apply of_option_Ok. Qed.

(** X4 (Amesp.read_results): the single-result parse returns only for
    a transcript with a dipole section and an energy line; without a
    geometry section it also needs a charges section and a spin
    section. *)
Theorem read_results_needs_sections (text : string) (res : CalcResults) :
  read_results text = Ok res →
  findall_groups pattern_dipole text ≠ [] ∧
  findall pattern_energy text ≠ [] ∧
  (findall pattern_aop_xyz text = [] →
     findall pattern_charge text ≠ [] ∧ findall pattern_spin text ≠ []).
Proof.
  intros H. unfold read_results in H.
  apply bind_Ok in H as ([element position] & Hxyz & H). cbv zeta in H.
  destruct (parse_aop_xyz_length _ _ _ Hxyz) as [Hel _].
  apply bind_Ok in H as (c & (lc & Hc & Hlc%getitem_last_Ok)%bind_Ok & H).
  apply bind_Ok in H as (m & (lm & Hm & Hlm%getitem_last_Ok)%bind_Ok & H).
  apply bind_Ok in H as (d & (ld & Hd & Hld%getitem_last_Ok)%bind_Ok & H).
  apply bind_Ok in H as (e & (le & He & Hle%getitem_last_Ok)%bind_Ok & H).
  clear H. repeat apply conj.
  - intros Hnone. rewrite parse_aop_dipole_empty in Hd by done.
    by injection Hd as <-.
  - intros Hnone. rewrite parse_aop_energy_empty in He by done.
    by injection He as <-.
  - intros Hnone. rewrite Hnone in Hel. simpl in Hel. rewrite Hel in *.
    split; intros Hnone'.
    + rewrite parse_aop_charge_absent in Hc by done. by injection Hc as <-.
    + rewrite parse_aop_spin_absent in Hm by done. by injection Hm as <-.
Qed.

(** X5 (iread_aop): when the sequence parse returns, the transcript has
    at least one energy line and one dipole section per image, and each of
    the charges, spin and gradient sections occurs either never or at
    least once per image. *)
Theorem iread_aop_needs_occurrences (text : string) (images : list Image) :
  iread_aop text = Ok images →
  length images ≤ length (findall pattern_energy text) ∧
  length images ≤ length (findall_groups pattern_dipole text) ∧
  (findall pattern_charge text = []
   ∨ length images ≤ length (findall pattern_charge text)) ∧
  (findall pattern_spin text = []
   ∨ length images ≤ length (findall pattern_spin text)) ∧
  (findall pattern_gradient text = []
   ∨ length images ≤ length (findall pattern_gradient text)).
Proof.
  intros (element & position & charge & magmom & dipoles & energies & force
          & Hxyz & Hc & Hm & Hd & He & Hf & Hlen & Himg)%iread_aop_Ok.
  assert (length images ≤ length energies ∧ length images ≤ length dipoles
          ∧ length images ≤ length charge ∧ length images ≤ length magmom
          ∧ length images ≤ length force) as (Le & Ld & Lc & Lm & Lf).
  { repeat apply conj; apply covers_indices; intros i Hi;
      destruct (lookup_lt_is_Some_2 images i Hi) as [img Hi'];
      destruct (Himg i img Hi')
        as (el & pos & _ & _ & _ & Hie & Hif & Hid & Hic & Him); eauto. }
  apply parse_aop_energy_count in He. apply parse_aop_dipole_count in Hd.
  apply parse_aop_charge_count in Hc. apply parse_aop_spin_count in Hm.
  apply parse_aop_gradient_count in Hf.
  repeat apply conj; try lia.
  - destruct (findall pattern_charge text); [by left|right].
    cbn [length Nat.eqb] in *. lia.
  - destruct (findall pattern_spin text); [by left|right].
    cbn [length Nat.eqb] in *. lia.
  - destruct (findall pattern_gradient text); [by left|right].
    cbn [length Nat.eqb] in *. lia.
Qed.

(** *** Structures *)

Lemma Atoms_init_Ok (syms : list string) (pos : list (list float))
    (a : Atoms RT) :
  Atoms_init syms pos = Ok a →
  symbols a = syms ∧
  Forall (λ s, is_Some (atomic_number s)) syms ∧
  Forall2 (λ r p, row3 r = Some p) pos (positions a) ∧
  length pos = length syms.
Proof.
  unfold Atoms_init. intros H.
  apply bind_Ok in H as (numbers & Hn & H).
  destruct (length pos =? length syms) eqn:E; simpl in H; [|done].
  apply Nat.eqb_eq in E.
  apply bind_Ok in H as (rows & Hr & H). injection H as <-. simpl.
  repeat apply conj; [done| | |done].
  - apply mapM_Ok in Hn. apply Forall_forall. intros s Hs.
    apply list_elem_of_lookup in Hs as [i Hi].
    destruct (Forall2_lookup_l _ _ _ _ _ Hn Hi) as (z & _ & Hz).
    apply of_option_Ok in Hz. by rewrite Hz.
  - apply mapM_Ok in Hr. eapply Forall2_impl; [exact Hr|].
    intros r p Hp. by apply of_option_Ok in Hp.
Qed.

Lemma Atoms_init_valid (syms : list string) (pos : list (list float))
    (a : Atoms RT) :
  Atoms_init syms pos = Ok a → valid_structure a.
Proof.
  intros (Hs & Hk & Hp & Hl)%Atoms_init_Ok. split.
  - apply Forall2_length in Hp. congruence.
  - by rewrite Hs.
Qed.

Lemma read_xyz_lines_valid (st : xyz_state) (images : list (Atoms RT))
    (ls : list string) (result : list (Atoms RT)) :
  Forall valid_structure images →
  read_xyz_lines st images ls = Ok result →
  Forall valid_structure result.
Proof.
  revert st images. induction ls as [|line ls IH]; intros st images Hi H.
  - destruct st; cbn [read_xyz_lines] in H; [by injection H as <-|done|done].
  - destruct st as [|natoms|todo syms pos]; cbn [read_xyz_lines] in H.
    + apply bind_Ok in H as (n & _ & H). by eapply IH.
    + destruct (Z.to_nat natoms).
      * apply bind_Ok in H as (a & Ha & H). eapply IH; [|exact H].
        apply Forall_app. split; [done|].
        constructor; [by eapply Atoms_init_valid|constructor].
      * by eapply IH.
    + apply bind_Ok in H as ([s r] & _ & H).
      destruct todo as [|[|n]].
      * apply bind_Ok in H as (a & Ha & H). eapply IH; [|exact H].
        apply Forall_app. split; [done|].
        constructor; [by eapply Atoms_init_valid|constructor].
      * apply bind_Ok in H as (a & Ha & H). eapply IH; [|exact H].
        apply Forall_app. split; [done|].
        constructor; [by eapply Atoms_init_valid|constructor].
      * by eapply IH.
Qed.

Lemma io_read_xyz_valid (content : string) (a : Atoms RT) :
  io_read_xyz content = Ok a → valid_structure a.
Proof.
  unfold io_read_xyz. intros H.
  apply bind_Ok in H as (images & Hi & H). apply of_option_Ok in H.
  apply read_xyz_lines_valid in Hi; [|constructor].
  rewrite Forall_forall in Hi. apply Hi.
  rewrite last_lookup in H. by eapply list_elem_of_lookup_2.
Qed.

(** X6 (iread_aop, read_aop, parse_xyz, read_aip): every structure that
    a reader returns has one position per symbol and only symbols of the
    periodic table. *)
Theorem readers_return_valid_structures (text : string) :
  (∀ images, iread_aop text = Ok images →
     Forall (λ img, valid_structure (atoms img)) images) ∧
  (∀ index img, read_aop text index = Ok img → valid_structure (atoms img)) ∧
  (∀ a, parse_xyz text = Ok a → valid_structure a) ∧
  (∀ zm a, contains ">xyz" text = true →
     read_aip zm text = Ok (Some a) → valid_structure a).
Proof.
  assert (∀ images, iread_aop text = Ok images →
            Forall (λ img, valid_structure (atoms img)) images) as Himages.
  { intros images (element & position & charge & magmom & dipoles & energies
      & force & _ & _ & _ & _ & _ & _ & _ & Himg)%iread_aop_Ok.
    apply Forall_forall. intros img Hin.
    apply list_elem_of_lookup in Hin as [i Hi].
    destruct (Himg i img Hi) as (el & pos & _ & _ & Ha & _).
    by eapply Atoms_init_valid. }
  assert (∀ a, parse_xyz text = Ok a → valid_structure a) as Hxyz.
  { intros a H. unfold parse_xyz in H. by eapply io_read_xyz_valid. }
  repeat apply conj; [done| |done|].
  - intros index img H. unfold read_aop in H.
    apply bind_Ok in H as (images & Hi & H).
    apply Himages in Hi. rewrite Forall_forall in Hi. apply Hi.
    unfold getitem in H.
    destruct (0 <=? index)%Z; [|destruct (_ <=? index)%Z; [|done]];
      apply of_option_Ok in H; by eapply list_elem_of_lookup_2.
  - intros zm a Hc H. unfold read_aip in H. rewrite Hc in H.
    destruct (parse_xyz text) as [a'|e] eqn:E; [|done].
    injection H as <-. by apply Hxyz.
Qed.

(** *** The fields of an image *)

Lemma lookup_upto {A} (n i : nat) (l : list A) (x : A) :
  upto n l !! i = Some x → l !! i = Some x.
Proof. unfold upto. by intros [? _]%lookup_take_Some. Qed.

Lemma energy_at text n energies i y :
  parse_aop_energy text n = Ok energies → energies !! i = Some y →
  ∃ e x, findall pattern_energy text !! i = Some e ∧
         float_of_str e = Some x ∧ y = fmul x Hartree.
Proof.
  intros H Hi. unfold parse_aop_energy in H. inv_bind H.
  injection H as <-. apply lookup_upto in Hi. unfold times in Hi.
  apply list_lookup_fmap_Some in Hi as (x & -> & Hx).
  destruct (mapM_Ok_lookup _ _ _ _ _ Ha Hx) as (e & He & Hparse).
  apply of_option_Ok in Hparse. eauto.
Qed.

Lemma dipole_at text n dipoles i y :
  parse_aop_dipole text n = Ok dipoles → dipoles !! i = Some y →
  ∃ d v, findall_groups pattern_dipole text !! i = Some d ∧
         np_float1 d = Ok v ∧ y = times Bohr v.
Proof.
  intros H Hi. unfold parse_aop_dipole in H. inv_bind H.
  injection H as <-. apply lookup_upto in Hi.
  destruct (mapM_Ok_lookup _ _ _ _ _ Ha Hi) as (d & Hd & Hparse).
  inv_bind Hparse. injection Hparse as <-. eauto.
Qed.

Lemma charge_at text n charge i y :
  parse_aop_charge text n = Ok charge → charge !! i = Some y →
  match findall pattern_charge text with
  | [] => y = None
  | cs => ∃ c v, cs !! i = Some c ∧
                 last_tokens c ≫= np_float1 = Ok v ∧ y = Some v
  end.
Proof.
  intros H Hi. unfold parse_aop_charge in H. inv_bind H.
  destruct (findall pattern_charge text) as [|c0 cs] eqn:E.
  - apply mapM_Ok_length in Ha. destruct a; [|done].
    unfold upto in H. rewrite take_nil in H. injection H as <-.
    unfold absent in Hi. by apply lookup_replicate in Hi as [-> _].
  - pose proof (mapM_Ok_length _ _ _ Ha) as Hl.
    replace (length (upto (n + 1) a) =? 0) with false in H.
    2: { symmetry. apply Nat.eqb_neq. unfold upto.
         rewrite length_take, Hl. simpl. lia. }
    injection H as <-.
    apply list_lookup_fmap_Some in Hi as (v & -> & Hv).
    apply lookup_upto in Hv.
    destruct (mapM_Ok_lookup _ _ _ _ _ Ha Hv) as (c & Hc & Hparse). eauto.
Qed.

Lemma spin_at text n magmom i y :
  parse_aop_spin text n = Ok magmom → magmom !! i = Some y →
  match findall pattern_spin text with
  | [] => y = None
  | cs => ∃ c v, cs !! i = Some c ∧
                 last_tokens c ≫= np_float1 = Ok v ∧ y = Some v
  end.
Proof.
  intros H Hi. unfold parse_aop_spin in H. inv_bind H.
  destruct (findall pattern_spin text) as [|c0 cs] eqn:E.
  - apply mapM_Ok_length in Ha. destruct a; [|done].
    unfold upto in H. rewrite take_nil in H. injection H as <-.
    unfold absent in Hi. by apply lookup_replicate in Hi as [-> _].
  - pose proof (mapM_Ok_length _ _ _ Ha) as Hl.
    replace (length (upto (n + 1) a) =? 0) with false in H.
    2: { symmetry. apply Nat.eqb_neq. unfold upto.
         rewrite length_take, Hl. simpl. lia. }
    injection H as <-.
    apply list_lookup_fmap_Some in Hi as (v & -> & Hv).
    apply lookup_upto in Hv.
    destruct (mapM_Ok_lookup _ _ _ _ _ Ha Hv) as (c & Hc & Hparse). eauto.
Qed.

(** X7 (iread_aop): image [i] holds the values of the [i]-th occurrence
    of each section, in transcript order: the [i]-th energy times
    [Hartree], the [i]-th dipole times [Bohr], the last column of the
    [i]-th charges and spin sections, and [None] for the charges or the
    spin densities when the section never occurs. *)
Theorem image_fields_by_position (text : string) images (i : nat) img :
  iread_aop text = Ok images → images !! i = Some img →
  (∃ e x, findall pattern_energy text !! i = Some e ∧
          float_of_str e = Some x ∧
          energy (results img) = fmul x Hartree) ∧
  (∃ d v, findall_groups pattern_dipole text !! i = Some d ∧
          np_float1 d = Ok v ∧
          dipole (results img) = times Bohr v) ∧
  match findall pattern_charge text with
  | [] => charges (results img) = None
  | cs => ∃ c v, cs !! i = Some c ∧
                 last_tokens c ≫= np_float1 = Ok v ∧
                 charges (results img) = Some v
  end ∧
  match findall pattern_spin text with
  | [] => magmoms (results img) = None
  | cs => ∃ c v, cs !! i = Some c ∧
                 last_tokens c ≫= np_float1 = Ok v ∧
                 magmoms (results img) = Some v
  end.
Proof.
  intros (element & position & charge & magmom & dipoles & energies & force
          & _ & Hc & Hm & Hd & He & _ & _ & Himg)%iread_aop_Ok Hi.
  destruct (Himg i img Hi)
    as (el & pos & _ & _ & _ & Hie & _ & Hid & Hic & Him).
  repeat apply conj.
  - by eapply energy_at.
  - by eapply dipole_at.
  - by eapply charge_at.
  - by eapply spin_at.
Qed.

Lemma last_upto {A} (n : nat) (l : list A) (x : A) :
  last (upto (n + 1) l) = Some x →
  l !! (length l `min` (n + 1) - 1) = Some x.
Proof.
  rewrite last_lookup. unfold upto. rewrite length_take.
  intros [H _]%lookup_take_Some.
  by replace (length l `min` (n + 1) - 1)
    with (pred ((n + 1) `min` length l)) by lia.
Qed.

(** X8 (Amesp.read_results): the energy and the dipole of the single
    result come from the last occurrence that the cut keeps: occurrence
    number [min(c, n + 1)] of [c], for [n] geometry sections. *)
Theorem read_results_takes_last_kept (text : string) (res : CalcResults) :
  read_results text = Ok res →
  let n := length (findall pattern_aop_xyz text) in
  let es := findall pattern_energy text in
  let ds := findall_groups pattern_dipole text in
  (∃ e x, es !! (length es `min` (n + 1) - 1) = Some e ∧
          float_of_str e = Some x ∧ calc_energy res = fmul x Hartree) ∧
  (∃ d v, ds !! (length ds `min` (n + 1) - 1) = Some d ∧
          np_float1 d = Ok v ∧ calc_dipole res = times Bohr v).
Proof.
  intros H n es ds. unfold read_results in H.
  apply bind_Ok in H as ([element position] & Hxyz & H). cbv zeta in H.
  destruct (parse_aop_xyz_length _ _ _ Hxyz) as [Hel _].
  apply bind_Ok in H as (c & _ & H).
  apply bind_Ok in H as (m & _ & H).
  apply bind_Ok in H as (d & (ld & Hd & Hld%getitem_last_Ok)%bind_Ok & H).
  apply bind_Ok in H as (e & (le & He & Hle%getitem_last_Ok)%bind_Ok & H).
  apply bind_Ok in H as (f & _ & H). injection H as <-. simpl.
  rewrite Hel in *. fold n in Hd, He. split.
  - unfold parse_aop_energy in He. inv_bind He. injection He as <-.
    apply last_upto in Hle. unfold times in Hle.
    rewrite length_fmap in Hle.
    apply list_lookup_fmap_Some in Hle as (x & -> & Hx).
    pose proof (mapM_Ok_length _ _ _ Ha) as Hl. rewrite Hl in Hx.
    destruct (mapM_Ok_lookup _ _ _ _ _ Ha Hx) as (e' & He' & Hparse).
    apply of_option_Ok in Hparse. eauto.
  - unfold parse_aop_dipole in Hd. inv_bind Hd. injection Hd as <-.
    apply last_upto in Hld.
    pose proof (mapM_Ok_length _ _ _ Ha) as Hl. rewrite Hl in Hld.
    destruct (mapM_Ok_lookup _ _ _ _ _ Ha Hld) as (d' & Hd' & Hparse).
    inv_bind Hparse. injection Hparse as <-. eauto.
Qed.

(** *** The input reader *)

(** X9 (read_aip): the reader returns [None] exactly for the
    transcripts that contain neither [>xyz] nor [>zmat]. *)
Theorem read_aip_None_iff
    (zm : option string → string → result (Atoms RT)) (text : string) :
  read_aip zm text = Ok None ↔
  contains ">xyz" text = false ∧ contains ">zmat" text = false.
Proof.
  unfold read_aip. split.
  - destruct (contains ">xyz" text).
    + by destruct (parse_xyz text).
    + destruct (contains ">zmat" text); [|done].
      by destruct (parse_zmat zm text).
  - by intros [-> ->].
Qed.

(** X10 (parse_xyz, read_aip): unless the transcript has exactly one
    Cartesian region, [parse_xyz] raises [StopIteration], and so does
    [read_aip] when the transcript contains [>xyz]. *)
Theorem parse_xyz_needs_one_region
    (zm : option string → string → result (Atoms RT)) (text : string) :
  length (findall pattern_xyz text) ≠ 1 →
  parse_xyz text = Raise StopIteration ∧
  (contains ">xyz" text = true → read_aip zm text = Raise StopIteration).
Proof.
  intros Hn. rewrite <- io_read_xyz_empty.
  split; [by apply parse_xyz_region_count|].
  intros Hc. unfold read_aip. rewrite Hc.
  by rewrite parse_xyz_region_count, io_read_xyz_empty.
Qed.

Lemma match_here_lit (w : string) (p : pattern) (s : string) (st : caps)
    (r : outcome) :
  match_here (lit w ++ p) s st = Some r → String.prefix w s = true.
Proof.
  revert s st. induction w as [|c w IH]; intros s st H.
  - by destruct s.
  - destruct s as [|a s]; [done|]. cbn in H.
    destruct (Ascii.eqb_spec a c) as [->|]; [|done].
    cbn. destruct (ascii_dec c c); [|done]. by eapply IH.
Qed.

Lemma scan_without_banner (w : string) (p : pattern) (s : string) (k : nat) :
  contains w s = false → scan (lit w ++ p) s k = [].
Proof.
  revert k. induction s as [|a s IH]; intros k H.
  - destruct k; [|done]. cbn [scan].
    destruct (match_here (lit w ++ p) EmptyString (Caps [] None))
      as [[gs rest]|] eqn:E; [|done].
    apply match_here_lit in E. cbn [contains] in H. by rewrite E in H.
  - cbn [contains] in H. apply orb_false_iff in H as [Hp Hs].
    destruct k; cbn [scan]; [|by apply IH].
    destruct (match_here (lit w ++ p) (String a s) (Caps [] None))
      as [[gs rest]|] eqn:E.
    + apply match_here_lit in E. by rewrite E in Hp.
    + by apply IH.
Qed.

Lemma findall_without_banner (w : string) (p : pattern) (text : string) :
  contains w text = false → findall (lit w ++ p) text = [].
Proof.
  intros H. unfold findall, findall_groups.
  by rewrite scan_without_banner.
Qed.

Lemma findall_groups_without_banner (w : string) (p : pattern) text :
  contains w text = false → findall_groups (lit w ++ p) text = [].
Proof. intros H. unfold findall_groups. by rewrite scan_without_banner. Qed.

(** X11 (parse_aop_force, iread_aop, Amesp.read_results): sections that
    may be missing and sections that may not, by their banners.  Without
    the force banner the forces are [None]; without the gradient banner
    every image has no forces, and without the spin banner no magnetic
    moments; without the geometry banner, the energy banner or the dipole
    banner the sequence parse returns no image; and without the energy or
    the dipole banner the single-result parse does not return. *)
Theorem optional_and_required_banners (text : string) :
  (contains "Cartesian Force (" text = false →
     parse_aop_force text = Ok None) ∧
  (contains "Cartesian Gradient (" text = false →
     ∀ images, iread_aop text = Ok images →
       Forall (λ img, forces (results img) = None) images) ∧
  (contains "Spin densities:" text = false →
     ∀ images, iread_aop text = Ok images →
       Forall (λ img, magmoms (results img) = None) images) ∧
  (contains "Current Geometry(angstroms):" text = false
   ∨ contains "ETot =" text = false
   ∨ contains "Dipole moment (" text = false →
     ∀ images, iread_aop text = Ok images → images = []) ∧
  (contains "ETot =" text = false ∨ contains "Dipole moment (" text = false →
     ∀ res, read_results text ≠ Ok res).
Proof.
  repeat apply conj.
  - intros H. unfold parse_aop_force, pattern_force.
    by rewrite findall_without_banner.
  - intros H images
      (element & position & charge & magmom & dipoles & energies & force
       & _ & _ & _ & _ & _ & Hf & _ & Himg)%iread_aop_Ok.
    unfold parse_aop_gradient, pattern_gradient in Hf.
    rewrite findall_without_banner in Hf by done.
    injection Hf as <-.
    apply Forall_forall. intros img Hin.
    apply list_elem_of_lookup in Hin as [i Hi].
    destruct (Himg i img Hi) as (el & pos & _ & _ & _ & _ & Hfi & _).
    unfold absent in Hfi. by apply lookup_replicate in Hfi as [<- _].
  - intros H images
      (element & position & charge & magmom & dipoles & energies & force
       & _ & _ & Hm & _ & _ & _ & _ & Himg)%iread_aop_Ok.
    rewrite parse_aop_spin_absent in Hm
      by (unfold pattern_spin; by rewrite findall_without_banner).
    injection Hm as <-.
    apply Forall_forall. intros img Hin.
    apply list_elem_of_lookup in Hin as [i Hi].
    destruct (Himg i img Hi) as (el & pos & _ & _ & _ & _ & _ & _ & _ & Hmi).
    unfold absent in Hmi. by apply lookup_replicate in Hmi as [<- _].
  - intros H images Hi.
    pose proof Hi as
      (element & position & charge & magmom & dipoles & energies & force
       & Hxyz & _ & _ & Hd & He & _ & Hlen & Himg)%iread_aop_Ok.
    apply length_zero_iff_nil.
    destruct H as [H|[H|H]].
    + apply parse_aop_xyz_length in Hxyz as [Hel _].
      unfold pattern_aop_xyz in Hel.
      rewrite findall_without_banner in Hel by done. simpl in Hel. lia.
    + assert (length images ≤ length energies) as Hle.
      { apply covers_indices. intros i Hi'.
        destruct (lookup_lt_is_Some_2 images i Hi') as [img Himg'].
        destruct (Himg i img Himg') as (el & pos & _ & _ & _ & ? & _). eauto. }
      apply parse_aop_energy_count in He. unfold pattern_energy in He.
      rewrite findall_without_banner in He by done. simpl in He. lia.
    + assert (length images ≤ length dipoles) as Hle.
      { apply covers_indices. intros i Hi'.
        destruct (lookup_lt_is_Some_2 images i Hi') as [img Himg'].
        destruct (Himg i img Himg')
          as (el & pos & _ & _ & _ & _ & _ & ? & _). eauto. }
      apply parse_aop_dipole_count in Hd. unfold pattern_dipole in Hd.
      rewrite findall_groups_without_banner in Hd by done.
      simpl in Hd. lia.
  - intros H res Hres. unfold read_results in Hres.
    apply bind_Ok in Hres as ([element position] & Hxyz & Hres).
    cbv zeta in Hres.
    apply bind_Ok in Hres as (c & _ & Hres).
    apply bind_Ok in Hres as (m & _ & Hres).
    apply bind_Ok in Hres
      as (d & (ld & Hd & Hld%getitem_last_Ok)%bind_Ok & Hres).
    apply bind_Ok in Hres
      as (e & (le & He & Hle%getitem_last_Ok)%bind_Ok & Hres).
    destruct H as [H|H].
    + rewrite parse_aop_energy_empty in He
        by (unfold pattern_energy; by rewrite findall_without_banner).
      by injection He as <-.
    + rewrite parse_aop_dipole_empty in Hd
        by (unfold pattern_dipole;
            by rewrite findall_groups_without_banner).
      by injection Hd as <-.
Qed.

(** *** The single result and the trajectory *)

Lemma last_at {A} (l : list A) (n : nat) (x y : A) :
  length l = n → last l = Some x → l !! (n - 1) = Some y → x = y.
Proof.
  intros <- Hlast Hy. rewrite last_lookup in Hlast.
  replace (pred (length l)) with (length l - 1) in Hlast by lia. congruence.
Qed.

(** X19 (Amesp.read_results, read_aop): the single result against the
    last image of the trajectory.  A quantity whose section occurs at most
    once per geometry section has the same value in both; with one more
    energy line (or dipole section) than geometry sections, the single
    result takes the additional, last occurrence, which no image holds. *)
Theorem single_result_and_last_image (text : string) (res : CalcResults)
    (img : Image) :
  read_results text = Ok res → read_aop text (-1) = Ok img →
  let n := length (findall pattern_aop_xyz text) in
  (length (findall pattern_energy text) ≤ n →
     calc_energy res = energy (results img)) ∧
  (length (findall_groups pattern_dipole text) ≤ n →
     calc_dipole res = dipole (results img)) ∧
  (length (findall pattern_charge text) ≤ n →
     calc_charge res = charges (results img)) ∧
  (length (findall pattern_spin text) ≤ n →
     calc_magmoms res = magmoms (results img)) ∧
  (n < length (findall pattern_energy text) →
     ∃ e x, findall pattern_energy text !! n = Some e ∧
            float_of_str e = Some x ∧ calc_energy res = fmul x Hartree) ∧
  (n < length (findall_groups pattern_dipole text) →
     ∃ d v, findall_groups pattern_dipole text !! n = Some d ∧
            np_float1 d = Ok v ∧ calc_dipole res = times Bohr v).
Proof.
  intros Hres Himg n.
  unfold read_aop in Himg. apply bind_Ok in Himg as (images & Himages & Hlast).
  apply getitem_last_Ok in Hlast.
  pose proof Himages as
    (element & position & charge & magmom & dipoles & energies & force
     & Hxyz & Hc & Hm & Hd & He & _ & Hlen & Hfields)%iread_aop_Ok.
  destruct (parse_aop_xyz_length _ _ _ Hxyz) as [Hel _].
  rewrite Hel in *. fold n in Hc, Hm, Hd, He, Hlen.
  rewrite last_lookup in Hlast.
  replace (pred (length images)) with (n - 1) in Hlast by lia.
  assert (0 < n) as Hn.
  { apply lookup_lt_Some in Hlast. lia. }
  destruct (Hfields _ _ Hlast)
    as (el & pos & _ & _ & _ & Hie & _ & Hid & Hic & Him).
  unfold read_results in Hres.
  apply bind_Ok in Hres as ([element' position'] & Hxyz' & Hres).
  rewrite Hxyz in Hxyz'. injection Hxyz' as <- <-. cbv zeta in Hres.
  rewrite Hel in Hres. fold n in Hres. rewrite Hc, Hm, Hd, He in Hres.
  cbn [mbind result_bind] in Hres.
  apply bind_Ok in Hres as (c & Hlc%getitem_last_Ok & Hres).
  apply bind_Ok in Hres as (m & Hlm%getitem_last_Ok & Hres).
  apply bind_Ok in Hres as (d & Hld%getitem_last_Ok & Hres).
  apply bind_Ok in Hres as (e & Hle%getitem_last_Ok & Hres).
  apply bind_Ok in Hres as (f & _ & Hres). injection Hres as <-.
  cbn [calc_energy calc_dipole calc_charge calc_magmoms].
  pose proof (parse_aop_energy_count _ _ _ He) as Lenergy.
  pose proof (parse_aop_dipole_count _ _ _ Hd) as Ldipole.
  pose proof (parse_aop_charge_count _ _ _ Hc) as Lcharge.
  pose proof (parse_aop_spin_count _ _ _ Hm) as Lspin.
  pose proof (lookup_lt_Some _ _ _ Hie) as Be.
  pose proof (lookup_lt_Some _ _ _ Hid) as Bd.
  pose proof (lookup_lt_Some _ _ _ Hic) as Bc.
  pose proof (lookup_lt_Some _ _ _ Him) as Bm.
  repeat apply conj.
  - intros Hle'. eapply (last_at energies n); [lia|done|done].
  - intros Hle'. eapply (last_at dipoles n); [lia|done|done].
  - intros Hle'. eapply (last_at charge n); [|done|done].
    destruct (length (findall pattern_charge text) =? 0); lia.
  - intros Hle'. eapply (last_at magmom n); [|done|done].
    destruct (length (findall pattern_spin text) =? 0); lia.
  - intros Hlt. rewrite last_lookup in Hle.
    replace (pred (length energies)) with n in Hle by lia.
    by eapply energy_at.
  - intros Hlt. rewrite last_lookup in Hld.
    replace (pred (length dipoles)) with n in Hld by lia.
    by eapply dipole_at.
Qed.
End ReaderProperties.

(* ===================================================================== *)
(** ** Further properties of the input readers *)
(* ===================================================================== *)

Section InputProperties.

Context {RT : Runtime}.

Lemma append_cons (x : ascii) (a b : string) :
  String x a +:+ b = String x (a +:+ b).
Proof. reflexivity. Qed.

(** *** Lines *)

Lemma split_on_append (c : ascii) (a s : string) :
  free_of (Ascii.eqb c) a = true →
  split_on c (a +:+ String c s) = a :: split_on c s.
Proof.
  induction a as [|x a IH]; intros H.
  - change (EmptyString +:+ String c s) with (String c s).
    cbn [split_on]. by rewrite Ascii.eqb_refl.
  - cbn [free_of] in H. apply andb_true_iff in H as [Hx Ha].
    rewrite append_cons. cbn [split_on]. rewrite IH by done.
    rewrite Ascii.eqb_sym. by destruct (Ascii.eqb c x).
Qed.

Lemma split_on_nonempty (c : ascii) (s : string) : split_on c s ≠ [].
Proof.
  destruct s as [|a s]; [done|]. cbn [split_on].
  destruct (Ascii.eqb a c); [done|]. by destruct (split_on c s).
Qed.

Lemma readlines_cases (s : string) :
  readlines s = split_on LF s ∨ readlines s ++ [EmptyString] = split_on LF s.
Proof.
  unfold readlines.
  destruct (reverse (split_on LF s)) as [|x l'] eqn:E; [by left|].
  apply (f_equal reverse) in E. rewrite reverse_involutive in E.
  rewrite reverse_cons in E.
  destruct x; [right; by rewrite E|by left].
Qed.

Lemma readlines_append (a s : string) :
  free_of (Ascii.eqb LF) a = true →
  readlines (a +:+ NL +:+ s) = a :: readlines s.
Proof.
  intros H. unfold readlines, NL.
  change (String LF EmptyString +:+ s) with (String LF s).
  rewrite split_on_append by done.
  rewrite reverse_cons.
  destruct (reverse (split_on LF s)) as [|x l'] eqn:E.
  - apply (f_equal reverse) in E. rewrite reverse_involutive in E.
    by destruct (split_on_nonempty LF s).
  - cbn [app]. destruct x.
    + by rewrite reverse_app, reverse_singleton.
    + apply (f_equal reverse) in E. rewrite reverse_involutive in E.
      by rewrite E.
Qed.

(** *** Numbers *)

Lemma split_ws_from_token (cur w : string) :
  free_of isspace w = true →
  split_ws_from (Some cur) w = [cur +:+ w].
Proof.
  revert cur. induction w as [|a w IH]; intros cur H.
  - cbn [split_ws_from]. f_equal.
    induction cur as [|x cur IHc]; [done|]. by rewrite append_cons, <- IHc.
  - cbn [free_of] in H. apply andb_true_iff in H as [Ha Hw].
    cbn [split_ws_from]. destruct (isspace a); [done|].
    rewrite IH by done. cbn [default from_option id]. f_equal.
    induction cur as [|x cur IHc]; [done|].
    by rewrite !append_cons, IHc.
Qed.

Lemma split_token (a : ascii) (w : string) :
  free_of isspace (String a w) = true → split (String a w) = [String a w].
Proof.
  intros H. cbn [free_of] in H. apply andb_true_iff in H as [Ha Hw].
  unfold split. cbn [split_ws_from]. destruct (isspace a); [done|].
  by rewrite split_ws_from_token.
Qed.

Lemma digits_free_of (p : ascii → bool) (d : Decimal.uint) :
  (∀ c, isdecimal c = true → p c = false) →
  free_of p (NilEmpty.string_of_uint d) = true.
Proof.
  intros Hp. induction d; cbn [NilEmpty.string_of_uint free_of];
    [done|rewrite Hp by done; done..].
Qed.

Lemma isdecimal_not_space (c : ascii) : isdecimal c = true → isspace c = false.
Proof.
  unfold isdecimal, isspace. generalize (code c). intros n H.
  apply andb_true_iff in H as [H1%Nat.leb_le H2%Nat.leb_le].
  repeat (apply orb_false_iff; split);
    first [apply andb_false_iff; (left + right); apply Nat.leb_gt; lia
          | apply Nat.eqb_neq; lia].
Qed.

Lemma isdecimal_not_LF (c : ascii) :
  isdecimal c = true → Ascii.eqb LF c = false.
Proof.
  intros H. destruct (Ascii.eqb_spec LF c) as [<-|]; [|done]. discriminate.
Qed.

(** ['%d' % n] for a natural number, and [int] of it. *)
Lemma dec_nat (n : nat) :
  ∃ d, d ≠ Decimal.Nil ∧ dec (Z.of_nat n) = NilEmpty.string_of_uint d ∧
       Z.of_uint d = Z.of_nat n.
Proof.
  unfold dec. pose proof (DecimalZ.of_to (Z.of_nat n)) as Hof.
  destruct (Z.of_nat n) as [|p|p] eqn:E; [| |lia].
  - exists (Decimal.D0 Decimal.Nil). done.
  - exists (Pos.to_uint p). cbn [Z.to_int NilZero.string_of_int] in *.
    pose proof (Unsigned.to_uint_nonnil p) as Hnil.
    repeat apply conj; [done| |done].
    unfold NilZero.string_of_uint. by destruct (Pos.to_uint p).
Qed.

Lemma py_int_dec (n : nat) : py_int (dec (Z.of_nat n)) = Ok (Z.of_nat n).
Proof.
  destruct (dec_nat n) as (d & Hd & -> & Hz).
  pose proof (digits_free_of isspace d isdecimal_not_space) as Hfree.
  pose proof (NilEmpty.usu d) as Husu.
  unfold py_int.
  destruct d; [done|..]; cbn [NilEmpty.string_of_uint] in *;
    rewrite split_token by done; rewrite Husu; by rewrite Hz.
Qed.

Lemma dec_nat_free_of_LF (n : nat) :
  free_of (Ascii.eqb LF) (dec (Z.of_nat n)) = true.
Proof.
  destruct (dec_nat n) as (d & _ & -> & _).
  apply digits_free_of, isdecimal_not_LF.
Qed.

(** *** One frame *)

(** A frame of [S k] atoms, read from exactly [S k] lines. *)
Lemma read_frame (k : nat) (syms : list string) (pos : list (list float))
    (images : list (Atoms RT)) (ls : list string) :
  length ls = S k →
  read_xyz_lines (InBody (S k) syms pos) images ls
  = (mapM xyz_atom_line ls ≫= λ al,
     Atoms_init (syms ++ al.*1) (pos ++ al.*2) ≫= λ a,
     Ok (images ++ [a])).
Proof.
  revert syms pos ls. induction k as [|k IH]; intros syms pos ls Hlen.
  - destruct ls as [|line [|? ?]]; try done.
    cbn [read_xyz_lines mapM].
    destruct (xyz_atom_line line) as [[s r]|e]; [|done].
    cbn [mbind result_bind mret result_ret fmap list_fmap fst snd].
    by destruct (Atoms_init (syms ++ [s]) (pos ++ [r])).
  - destruct ls as [|line ls]; [done|]. injection Hlen as Hlen.
    cbn [read_xyz_lines mapM].
    destruct (xyz_atom_line line) as [[s r]|e]; [|done].
    cbn [mbind result_bind]. rewrite IH by done.
    destruct (mapM xyz_atom_line ls) as [al|e]; [|done].
    cbn [mbind result_bind mret result_ret fmap list_fmap fst snd].
    by rewrite <- !app_assoc.
Qed.

(** With fewer lines the reader does not return. *)
Lemma read_frame_short (k : nat) (syms : list string) (pos : list (list float))
    (images : list (Atoms RT)) (ls : list string) (result : list (Atoms RT)) :
  length ls < S k →
  read_xyz_lines (InBody (S k) syms pos) images ls ≠ Ok result.
Proof.
  revert syms pos ls. induction k as [|k IH]; intros syms pos ls Hlen.
  - destruct ls; [done|simpl in Hlen; lia].
  - destruct ls as [|line ls]; [done|]. simpl in Hlen.
    cbn [read_xyz_lines].
    destruct (xyz_atom_line line) as [[s r]|e]; [|done].
    cbn [mbind result_bind]. apply IH. lia.
Qed.

Lemma xyz_atom_line_blank : xyz_atom_line EmptyString = Raise ValueError.
Proof. reflexivity. Qed.

(** [io.read] of the frame that [parse_xyz] builds from a region. *)
Lemma io_read_xyz_region (region : string) (a : Atoms RT) :
  io_read_xyz (dec (Z.of_nat (length (split_on LF region)))
               +:+ NL +:+ NL +:+ region) = Ok a ↔
  ∃ al, mapM xyz_atom_line (split_on LF region) = Ok al ∧
        Atoms_init al.*1 al.*2 = Ok a.
Proof.
  unfold io_read_xyz.
  rewrite readlines_append by apply dec_nat_free_of_LF.
  change (NL +:+ region) with (EmptyString +:+ NL +:+ region).
  rewrite readlines_append by done.
  cbn [read_xyz_lines]. rewrite py_int_dec. cbn [mbind result_bind].
  rewrite Nat2Z.id.
  pose proof (split_on_nonempty LF region) as Hne.
  destruct (length (split_on LF region)) as [|k] eqn:Hlen.
  { by destruct (split_on LF region). }
  destruct (readlines_cases region) as [Hl|Hl].
  - rewrite Hl, read_frame by done. cbn [app]. split.
    + intros (images & (al & Hal & (a' & Ha & [= <-])%bind_Ok)%bind_Ok
              & Hlast%of_option_Ok)%bind_Ok.
      simpl in Hlast. injection Hlast as <-. eauto.
    + intros (al & Hal & Ha). rewrite Hal. cbn [mbind result_bind].
      rewrite Ha. done.
  - assert (length (readlines region) < S k) as Hshort.
    { rewrite <- Hlen, <- Hl, length_app. simpl. lia. }
    split.
    + intros (images & Himages & _)%bind_Ok.
      by apply read_frame_short in Himages.
    + intros (al & Hal & _). rewrite <- Hl in Hal.
      apply mapM_Ok in Hal. apply Forall2_app_inv_l in Hal
        as (al1 & al2 & _ & Hlast & _).
      apply Forall2_cons_inv_l in Hlast as (y & ? & Hy & _).
      by rewrite xyz_atom_line_blank in Hy.
Qed.

(** X12 (parse_xyz): the reader returns a structure exactly when the
    transcript has one Cartesian region, every line of the region is an
    atom line (an element symbol and three numbers) and the symbols and
    rows make a structure; the structure has one atom per line of the
    region, in order. *)
Theorem parse_xyz_reads_every_line (text : string) (a : Atoms RT) :
  parse_xyz text = Ok a ↔
  ∃ region al,
    findall pattern_xyz text = [region] ∧
    mapM xyz_atom_line (split_on LF region) = Ok al ∧
    Atoms_init al.*1 al.*2 = Ok a.
Proof.
  unfold parse_xyz.
  destruct (findall pattern_xyz text) as [|region [|region' l]].
  - split; [done|]. by intros (? & ? & ? & _).
  - cbn [StringIO default from_option id]. rewrite io_read_xyz_region.
    split.
    + intros (al & ? & ?). by exists region, al.
    + intros (? & al & [= <-] & ? & ?). by exists al.
  - split; [done|]. by intros (? & ? & ? & _).
Qed.

(** *** Coordinate definitions *)

Lemma free_of_impl (p q : ascii → bool) (s : string) :
  (∀ c, q c = true → p c = true) → free_of p s = true → free_of q s = true.
Proof.
  intros Hpq. induction s as [|a s IH]; [done|]. cbn [free_of].
  intros [Ha Hs]%andb_true_iff. rewrite IH by done.
  destruct (q a) eqn:E; [|done]. by rewrite (Hpq a E) in Ha.
Qed.

Lemma free_of_append (p : ascii → bool) (a b : string) :
  free_of p (a +:+ b) = (free_of p a && free_of p b).
Proof.
  induction a as [|x a IH]; [done|]. rewrite append_cons. cbn [free_of].
  by rewrite IH, andb_assoc.
Qed.

Lemma split_on_free (c : ascii) (s : string) :
  free_of (Ascii.eqb c) s = true → split_on c s = [s].
Proof.
  induction s as [|a s IH]; [done|]. cbn [free_of split_on].
  intros [Ha Hs]%andb_true_iff. rewrite IH by done.
  rewrite Ascii.eqb_sym. by destruct (Ascii.eqb c a).
Qed.

Lemma split_on_join (ls : list string) :
  ls ≠ [] → Forall (λ l, free_of (Ascii.eqb LF) l = true) ls →
  split_on LF (join NL ls) = ls.
Proof.
  induction ls as [|x ls IH]; [done|]. intros _ [Hx Hls]%Forall_cons.
  destruct ls as [|y ls]; [by apply split_on_free|].
  change (join NL (x :: y :: ls)) with (x +:+ String LF (join NL (y :: ls))).
  rewrite split_on_append by done. by rewrite IH.
Qed.

Lemma split_ws_from_space (sp : ascii) (cur : option string) (s : string) :
  isspace sp = true →
  split_ws_from cur (String sp s)
  = match cur with Some w => [w] | None => [] end ++ split_ws_from None s.
Proof. intros H. cbn [split_ws_from]. rewrite H. by destruct cur. Qed.

Lemma split_ws_from_word (cur w rest : string) (sp : ascii) :
  free_of isspace w = true → isspace sp = true →
  split_ws_from (Some cur) (w +:+ String sp rest)
  = (cur +:+ w) :: split_ws_from None rest.
Proof.
  revert cur. induction w as [|a w IH]; intros cur Hw Hsp.
  - change (EmptyString +:+ String sp rest) with (String sp rest).
    rewrite split_ws_from_space by done. cbn [app]. f_equal.
    induction cur as [|x cur IHc]; [done|]. by rewrite append_cons, <- IHc.
  - cbn [free_of] in Hw. apply andb_true_iff in Hw as [Ha Hw].
    rewrite append_cons. cbn [split_ws_from]. destruct (isspace a); [done|].
    rewrite IH by done. cbn [default from_option id]. f_equal.
    induction cur as [|x cur IHc]; [done|].
    by rewrite !append_cons, IHc.
Qed.

(** [name value] is split into its two tokens. *)
Lemma split_name_value (name value : string) :
  token name = true → token value = true →
  split (name +:+ " " +:+ value) = [name; value].
Proof.
  unfold token. intros Hn Hv.
  destruct name as [|a name]; [done|]. destruct value as [|b value]; [done|].
  cbn [free_of] in Hn. apply andb_true_iff in Hn as [Ha Hn].
  unfold split. rewrite append_cons. cbn [split_ws_from].
  destruct (isspace a); [done|]. cbn [default from_option id].
  change (" " +:+ String b value) with (String " " (String b value)).
  rewrite split_ws_from_word by done.
  change (EmptyString +:+ String a EmptyString) with (String a EmptyString).
  change (String a EmptyString +:+ name) with (String a name).
  f_equal. pose proof Hv as Hv'.
  cbn [free_of] in Hv. apply andb_true_iff in Hv as [Hb Hv].
  cbn [split_ws_from]. destruct (isspace b); [done|].
  by rewrite split_ws_from_token.
Qed.

Lemma token_free_of_LF (w : string) :
  token w = true → free_of (Ascii.eqb LF) w = true.
Proof.
  unfold token. destruct w as [|a w]; [done|].
  apply free_of_impl. intros c Hc. apply Ascii.eqb_eq in Hc. by subst c.
Qed.

(** X13 (parse_zmat): what the z-matrix resolver is given.  Without the
    banner [>coord] the definitions are empty; unless the transcript has
    exactly one [>zmat] region the resolver is given no z-matrix; and a
    coordinate region of lines [name value] is handed over as the lines
    [name=value]. *)
Theorem parse_zmat_hands_over
    (zm : option string → string → result (Atoms RT)) (text : string) :
  (contains ">coord" text = false →
     parse_zmat zm text
     = zm match findall pattern_zmat text with
          | [zmat] => Some zmat
          | _ => None
          end EmptyString) ∧
  (contains ">zmat" text = false ∨ length (findall pattern_zmat text) ≠ 1 →
     ∃ defs, parse_zmat zm text = zm None defs) ∧
  (∀ zmat names values,
     findall pattern_zmat text = [zmat] →
     findall pattern_coord text
     = [join NL (zip_with (λ n v, n +:+ " " +:+ v) names values)] →
     names ≠ [] → length names = length values →
     Forall (λ n, token n = true) names →
     Forall (λ v, token v = true) values →
     parse_zmat zm text
     = zm (Some zmat)
          (join NL (zip_with (λ n v, n +:+ "=" +:+ v) names values))).
Proof.
  repeat apply conj.
  - intros H. unfold parse_zmat, pattern_coord.
    by rewrite findall_without_banner.
  - intros H. unfold parse_zmat. cbv zeta. eexists.
    assert (match findall pattern_zmat text with
            | [zmat] => Some zmat
            | _ => None
            end = None) as ->; [|done].
    destruct H as [H|H].
    + unfold pattern_zmat. by rewrite findall_without_banner.
    + by destruct (findall pattern_zmat text) as [|? [|? ?]].
  - intros zmat names values Hz Hc Hne Hlen Hn Hv.
    unfold parse_zmat. rewrite Hz, Hc. cbv zeta. f_equal.
    rewrite split_on_join.
    + f_equal. clear Hz Hc Hne. revert values Hlen Hv.
      induction Hn as [|n names Hn Hnames IH]; intros values Hlen Hv; [done|].
      destruct values as [|v values]; [done|].
      apply Forall_cons in Hv as [Hv Hvalues]. injection Hlen as Hlen.
      cbn [zip_with fmap list_fmap].
      rewrite split_name_value by done. cbn [take join].
      f_equal. by apply IH.
    + destruct names, values; done.
    + clear Hz Hc Hne. revert values Hlen Hv.
      induction Hn as [|n names Hn Hnames IH]; intros values Hlen Hv;
        [constructor|].
      destruct values as [|v values]; [done|].
      apply Forall_cons in Hv as [Hv Hvalues]. injection Hlen as Hlen.
      cbn [zip_with]. constructor; [|by apply IH].
      rewrite !free_of_append.
      by rewrite (token_free_of_LF n), (token_free_of_LF v) by done.
Qed.
End InputProperties.

(* ===================================================================== *)
(** ** Further properties of the input writer *)
(* ===================================================================== *)

Section WriterProperties.

Context {RT : Runtime}.

(** *** Dictionaries in the store *)

Lemma deref_insert (w : loc) (d : pydict) (σ : store) :
  w < length σ → deref w (<[w := d]> σ) = d.
Proof. intros H. unfold deref. by rewrite list_lookup_insert_eq. Qed.

Lemma insert_deref (w : loc) (σ : store) :
  w < length σ → <[w := deref w σ]> σ = σ.
Proof.
  intros H. destruct (lookup_lt_is_Some_2 σ w H) as [d Hd].
  unfold deref. rewrite Hd. simpl. by apply list_insert_id.
Qed.

Lemma dict_in_get (k : string) (d : pydict) :
  dict_in k d = true → ∃ v, dict_get k d = Some v.
Proof.
  induction d as [|[k' v'] d IH]; simpl; [done|].
  destruct (String.eqb k' k); simpl; eauto.
Qed.

Lemma dict_not_in (k : string) (d : pydict) :
  dict_in k d = false → dict_get k d = None ∧ dict_del k d = d.
Proof.
  induction d as [|[k' v'] d IH]; simpl; [done|].
  destruct (String.eqb k' k); simpl; [done|].
  intros H. destruct (IH H) as [-> ->]. done.
Qed.

Lemma dict_get_in (k : string) (d : pydict) :
  dict_in k d = bool_decide (is_Some (dict_get k d)).
Proof.
  induction d as [|[k' v'] d IH]; simpl; [done|].
  by destruct (String.eqb k' k).
Qed.

Lemma dict_get_del_ne (k k' : string) (d : pydict) :
  k ≠ k' → dict_get k (dict_del k' d) = dict_get k d.
Proof.
  intros Hne. induction d as [|[k0 v0] d IH]; simpl; [done|].
  destruct (String.eqb_spec k0 k'), (String.eqb_spec k0 k); subst; simpl.
  - done.
  - done.
  - by rewrite String.eqb_refl.
  - destruct (String.eqb_spec k0 k); [done|]. done.
Qed.

Lemma dict_in_del_ne (k k' : string) (d : pydict) :
  k ≠ k' → dict_in k (dict_del k' d) = dict_in k d.
Proof. intros H. by rewrite !dict_get_in, dict_get_del_ne. Qed.

(** *** What each part returns *)

Ltac run_prog H :=
  unfold mbind, prog_bind, bind, mret, prog_ret, ret, lift, raise,
    kw_in, kw_get, kw_pop, kw_items in H; cbn beta iota zeta in H.

Lemma write_job_returns (w : loc) (d0 : pydict) :
  returns_with w (λ d, d = d0) (write_job w)
    (λ text d,
       d = dict_del "npara" d0 ∧
       ∃ l1 l2, text = join NL (l1 ++ l2) ∧
         match dict_get "npara" d0 with
         | Some v => ∃ s, pct_d v = Ok s ∧ l1 = ["% npara " +:+ s]
         | None => l1 = []
         end ∧
         match dict_get "maxcore" d0 with
         | Some v => ∃ s, pct_d v = Ok s ∧ l2 = ["% maxcore " +:+ s]
         | None => l2 = []
         end).
Proof.
  intros σ text σ' Hw Hd H. subst d0. unfold write_job in H. run_prog H.
  destruct (dict_in "npara" (deref w σ)) eqn:En.
  - destruct (dict_in_get _ _ En) as [vn Hvn]. rewrite Hvn in H |- *.
    destruct (pct_d vn) as [sn|] eqn:Esn; cbn beta iota zeta in H;
      [|by destruct (dict_in _ _)].
    rewrite deref_insert, dict_in_del_ne in H by done.
    destruct (dict_in "maxcore" (deref w σ)) eqn:Em; cbn beta iota zeta in H.
    + rewrite deref_insert, dict_get_del_ne in H by done.
      destruct (dict_in_get _ _ Em) as [vm Hvm]. rewrite Hvm in H |- *.
      simpl in H. destruct (pct_d vm) as [sm|] eqn:Esm; [|done].
      injection H as <- <-. rewrite deref_insert by done.
      repeat apply conj; [done|done|].
      exists ["% npara " +:+ sn], ["% maxcore " +:+ sm].
      repeat apply conj; [reflexivity|eauto..].
    + destruct (dict_not_in _ _ Em) as [Hvm _]. rewrite Hvm.
      injection H as <- <-. rewrite deref_insert by done.
      repeat apply conj; [done|done|].
      exists ["% npara " +:+ sn], [].
      repeat apply conj; [reflexivity|eauto..].
  - destruct (dict_not_in _ _ En) as [Hvn Hdel]. rewrite Hvn, Hdel.
    cbn beta iota zeta in H.
    destruct (dict_in "maxcore" (deref w σ)) eqn:Em; cbn beta iota zeta in H.
    + destruct (dict_in_get _ _ Em) as [vm Hvm]. rewrite Hvm in H |- *.
      simpl in H. destruct (pct_d vm) as [sm|] eqn:Esm; [|done].
      injection H as <- <-. rewrite insert_deref by done.
      repeat apply conj; [done|done|].
      exists [], ["% maxcore " +:+ sm].
      repeat apply conj; [reflexivity|eauto..].
    + destruct (dict_not_in _ _ Em) as [Hvm _]. rewrite Hvm.
      injection H as <- <-. rewrite insert_deref by done.
      repeat apply conj; [done|done|]. by exists [], [].
Qed.

Lemma write_keywords_returns properties (w : loc) (d0 : pydict) :
  returns_with w (λ d, d = d0) (write_keywords properties w)
    (λ text d,
       d = dict_del "keywords" d0 ∧
       ∃ more,
         iterate (default (VList [VStr "pbe0"; VStr "def2-svp"])
                    (dict_get "keywords" d0)) = Ok more ∧
         join_values " " (VStr "!" :: more) = Ok text).
Proof.
  intros σ text σ' Hw Hd H. subst d0. unfold write_keywords in H. run_prog H.
  destruct (dict_in "keywords" (deref w σ)) eqn:Ek.
  - destruct (dict_in_get _ _ Ek) as [v Hv]. rewrite Hv in H |- *.
    simpl (default _ _).
    destruct (iterate v) as [more|] eqn:Ei; [|done].
    destruct (join_values " " ([VStr "!"] ++ more)) as [t|] eqn:Ej; [|done].
    injection H as <- <-. rewrite deref_insert by done. eauto.
  - destruct (dict_not_in _ _ Ek) as [Hv Hdel]. rewrite Hv, Hdel.
    simpl in H. injection H as <- <-. rewrite insert_deref by done.
    repeat apply conj; [done|done|]. eexists. split; reflexivity.
Qed.

Lemma write_dict_returns (w : loc) (d0 : pydict) :
  returns_with w (λ d, d = d0) (write_dict w)
    (λ text d,
       d = d0 ∧
       text = if 0 <? length (collect_blocks d0)
              then join NL (block_lines (collect_blocks d0))
              else EmptyString).
Proof.
  intros σ text σ' Hw Hd H. subst d0. unfold write_dict in H. run_prog H.
  destruct (0 <? length (collect_blocks (deref w σ)));
    injection H as <- <-; by rewrite insert_deref.
Qed.

(** The header and the atom lines that [write_xyz] joins. *)
Lemma write_xyz_returns atoms (w : loc) (d0 : pydict) :
  returns_with w (λ d, d = d0) (write_xyz atoms w)
    (λ text d,
       d = dict_del "mult" (dict_del "charge" d0) ∧
       ∃ charge mult c m,
         match dict_get "charge" d0 with
         | Some v => charge = v
         | None => ∃ a, atoms = One a ∧
                        charge = VFloat (fsum (get_initial_charges a))
         end ∧
         match dict_get "mult" d0 with
         | Some v => mult = v
         | None => ∃ a r, atoms = One a ∧
                     round_int (fsum (get_initial_magnetic_moments a)) = Ok r ∧
                     mult = VInt (Z.abs r + 1)
         end ∧
         pct_d charge = Ok c ∧ pct_d mult = Ok m ∧
         text = join EmptyString
                  ([">xyz " +:+ c +:+ " " +:+ m +:+ NL]
                   ++ ((λ line, line +:+ NL) <$>
                         drop 2 (io_write_xyz
                                   match atoms with
                                   | One a => [a]
                                   | Images l => l
                                   end))
                   ++ ["end"])).
Proof.
  intros σ text σ' Hw Hd H. subst d0. unfold write_xyz in H. run_prog H.
  destruct (dict_in "charge" (deref w σ)) eqn:Ec.
  - destruct (dict_in_get _ _ Ec) as [vc Hvc]. rewrite Hvc in H |- *.
    cbn beta iota zeta in H.
    rewrite deref_insert, dict_in_del_ne in H by done.
    destruct (dict_in "mult" (deref w σ)) eqn:Em; cbn beta iota zeta in H.
    + destruct (dict_in_get _ _ Em) as [vm Hvm]. rewrite Hvm.
      rewrite deref_insert, dict_get_del_ne, Hvm in H by done.
      destruct (pct_d vc) as [c|] eqn:Epc; [|done].
      destruct (pct_d vm) as [m|] eqn:Epm; [|done].
      injection H as <- <-.
      rewrite list_insert_insert_eq, deref_insert by done.
      repeat apply conj; [done|done|]. exists vc, vm, c, m. done.
    + destruct (dict_not_in _ _ Em) as [Hvm Hdel]. rewrite Hvm.
      destruct atoms as [a|l]; [|done].
      destruct (round_int _) as [r|] eqn:Er; [|done].
      cbn beta iota zeta in H.
      destruct (pct_d vc) as [c|] eqn:Epc; [|done].
      cbn [pct_d] in H.
      injection H as <- <-. rewrite deref_insert by done.
      assert (dict_del "mult" (dict_del "charge" (deref w σ))
              = dict_del "charge" (deref w σ)) as ->.
      { apply dict_not_in. by rewrite dict_in_del_ne. }
      repeat apply conj; [done|done|].
      exists vc, (VInt (Z.abs r + 1)), c, (dec (Z.abs r + 1)).
      repeat apply conj; eauto.
  - destruct (dict_not_in _ _ Ec) as [Hvc Hdelc]. rewrite Hvc, Hdelc.
    destruct atoms as [a|l]; [|done]. cbn beta iota zeta in H.
    destruct (dict_in "mult" (deref w σ)) eqn:Em; cbn beta iota zeta in H.
    + destruct (dict_in_get _ _ Em) as [vm Hvm]. rewrite Hvm in H |- *.
      destruct (pct_d (VFloat _)) as [c|] eqn:Epc; [|done].
      destruct (pct_d vm) as [m|] eqn:Epm; [|done].
      injection H as <- <-. rewrite deref_insert by done.
      repeat apply conj; [done|done|]. eexists _, vm, c, m.
      repeat apply conj; eauto.
    + destruct (dict_not_in _ _ Em) as [Hvm Hdel]. rewrite Hvm, Hdel.
      destruct (round_int _) as [r|] eqn:Er; [|done].
      cbn beta iota zeta in H.
      destruct (pct_d (VFloat _)) as [c|] eqn:Epc; [|done].
      cbn [pct_d] in H.
      injection H as <- <-. rewrite insert_deref by done.
      repeat apply conj; [done|done|].
      eexists _, (VInt (Z.abs r + 1)), c, (dec (Z.abs r + 1)).
      repeat apply conj; eauto.
Qed.

(** *** Joining and searching *)

Lemma join_cons (sep x : string) (l : list string) :
  l ≠ [] → join sep (x :: l) = x +:+ sep +:+ join sep l.
Proof. by destruct l. Qed.

Lemma append_assoc (a b c : string) : (a +:+ b) +:+ c = a +:+ b +:+ c.
Proof.
  induction a as [|x a IH]; [done|]. by rewrite !append_cons, IH.
Qed.

Lemma join_app (sep : string) (l1 l2 : list string) :
  l1 ≠ [] → l2 ≠ [] →
  join sep (l1 ++ l2) = join sep l1 +:+ sep +:+ join sep l2.
Proof.
  intros H1 H2. induction l1 as [|x l1 IH]; [done|].
  destruct l1 as [|y l1].
  - simpl app. by rewrite join_cons.
  - change ((x :: y :: l1) ++ l2) with (x :: (y :: l1) ++ l2).
    rewrite !join_cons by done. rewrite IH by done.
    by rewrite !append_assoc.
Qed.

Lemma length_append (a b : string) :
  String.length (a +:+ b) = String.length a + String.length b.
Proof.
  induction a as [|x a IH]; [done|]. rewrite append_cons. simpl. by rewrite IH.
Qed.

Lemma contains_prefix (sub s : string) :
  String.prefix sub s = true → contains sub s = true.
Proof. intros H. destruct s; cbn [contains]; by rewrite H. Qed.

Lemma contains_append (sub a s : string) :
  contains sub s = true → contains sub (a +:+ s) = true.
Proof.
  intros H. induction a as [|x a IH]; [done|].
  rewrite append_cons. cbn [contains]. rewrite IH. by rewrite orb_true_r.
Qed.

Lemma contains_join_last (sub sep x : string) (l : list string) :
  contains sub x = true → contains sub (join sep (l ++ [x])) = true.
Proof.
  intros H. destruct l as [|y l]; [done|].
  rewrite join_app by done. by do 2 apply contains_append.
Qed.

(** *** The parts of a transcript *)

Lemma prog_bind_Ok {A B} (m : Prog A) (f : A → Prog B) (σ : store) b σ' :
  (m ≫= f) σ = (Ok b, σ') →
  ∃ a σ1, m σ = (Ok a, σ1) ∧ f a σ1 = (Ok b, σ').
Proof.
  unfold mbind, prog_bind, bind. destruct (m σ) as [[a|e] σ1]; [|done].
  eauto.
Qed.

Lemma join_nonempty (sep x : string) (l : list string) :
  0 < String.length x → 0 < String.length (join sep (x :: l)).
Proof.
  intros H. destruct l; [done|]. rewrite join_cons, length_append by done. lia.
Qed.

Lemma join_values_cons (sep x : string) (l : list (value RT)) (t : string) :
  join_values sep (VStr x :: l) = Ok t →
  ∃ ss, t = join sep (x :: ss).
Proof.
  unfold join_values. intros H. apply bind_Ok in H as (ss & Hss & [= <-]).
  cbn [mapM] in Hss. apply bind_Ok in Hss as (y & [= <-] & Hss).
  apply bind_Ok in Hss as (k & _ & [= <-]). eauto.
Qed.

Lemma block_lines_nonempty (block : list (string * pydict)) :
  block ≠ [] → 0 < String.length (join NL (block_lines block)).
Proof.
  destruct block as [|[k0 v0] block]; [done|]. intros _.
  unfold block_lines. cbn [mbind list_bind]. cbn [app].
  apply join_nonempty. rewrite length_append. simpl. lia.
Qed.

(** The four parts, blank parts filtered, are the lines in order. *)
Lemma join_parts (job blocks : list string) (kwline region : string) :
  Forall (λ l, 0 < String.length l) (take 1 job) →
  0 < String.length kwline → 0 < String.length region →
  (blocks ≠ [] → 0 < String.length (join NL blocks)) →
  join NL (filter (λ t, 0 < String.length t)
             [join NL job; kwline;
              if 0 <? length blocks then join NL blocks else EmptyString;
              region])
  = join NL (job ++ [kwline] ++ blocks ++ [region]).
Proof.
  intros Hjob Hkw Hxyz Hblocks.
  assert (filter (λ t, 0 < String.length t)
            [if 0 <? length blocks then join NL blocks else EmptyString;
             region]
          = (if 0 <? length blocks then [join NL blocks] else []) ++ [region])
    as Htail.
  { destruct blocks as [|b blocks].
    - change (0 <? length []) with false. cbv iota.
      rewrite filter_cons_False by (simpl; lia).
      by rewrite filter_cons_True, filter_nil by done.
    - change (0 <? length (b :: blocks)) with true. cbv iota.
      rewrite filter_cons_True by (by apply Hblocks).
      by rewrite filter_cons_True, filter_nil by done. }
  assert (join NL ([kwline] ++
            (if 0 <? length blocks then [join NL blocks] else []) ++ [region])
          = join NL ([kwline] ++ blocks ++ [region])) as Hrest.
  { destruct blocks as [|b blocks]; [done|].
    change (0 <? length (b :: blocks)) with true. cbv iota.
    rewrite (join_app _ [kwline]) by done.
    rewrite (join_app _ [kwline]) by done.
    rewrite (join_app _ (b :: blocks)) by done. done. }
  destruct job as [|j job].
  - rewrite filter_cons_False by (simpl; lia).
    rewrite filter_cons_True by done. by rewrite Htail.
  - rewrite filter_cons_True.
    2:{ apply join_nonempty. by apply Forall_cons in Hjob as [? _]. }
    rewrite filter_cons_True by done. rewrite Htail.
    change (?a :: ?b :: ?c) with ([a] ++ (b :: c)).
    rewrite join_app by done. rewrite join_app by done.
    change (?b :: ?c ++ ?d) with ([b] ++ c ++ d) in Hrest.
    change (?a :: (?c ++ ?d)) with ([a] ++ c ++ d).
    by rewrite Hrest.
Qed.

Lemma deref_newest (σ : store) (d : pydict) : deref (length σ) (σ ++ [d]) = d.
Proof. unfold deref. by rewrite lookup_app_r, Nat.sub_diag by lia. Qed.

Lemma block_lines_length (block : list (string * pydict)) :
  (0 <? length (block_lines block)) = (0 <? length block).
Proof. by destruct block as [|[k0 v0] block]. Qed.

(** The lines of a transcript that [write_aip] returns. *)
Lemma write_aip_lines atoms properties (kw : loc) (σ : store)
    (text : string) (σ' : store) :
  write_aip atoms properties kw σ = (Ok text, σ') →
  let d := deref kw σ in
  ∃ (l1 l2 : list string) (kwline : string) (more : list (value RT))
    (frames : list (Atoms RT)) (charge mult : value RT) (c m : string),
    text = join NL
             (l1 ++ l2 ++ [kwline]
              ++ block_lines
                   (collect_blocks (dict_del "keywords" (dict_del "npara" d)))
              ++ [join EmptyString
                    ([">xyz " +:+ c +:+ " " +:+ m +:+ NL]
                     ++ ((λ line, line +:+ NL) <$> drop 2 (io_write_xyz frames))
                     ++ ["end"])]) ∧
    match dict_get "npara" d with
    | Some v => ∃ s, pct_d v = Ok s ∧ l1 = ["% npara " +:+ s]
    | None => l1 = []
    end ∧
    match dict_get "maxcore" d with
    | Some v => ∃ s, pct_d v = Ok s ∧ l2 = ["% maxcore " +:+ s]
    | None => l2 = []
    end ∧
    iterate (default (VList [VStr "pbe0"; VStr "def2-svp"])
               (dict_get "keywords" d)) = Ok more ∧
    join_values " " (VStr "!" :: more) = Ok kwline ∧
    (∀ a, atoms = One a → frames = [a]) ∧
    match dict_get "charge" d with
    | Some v => charge = v
    | None => ∃ a, frames = [a] ∧
                   charge = VFloat (fsum (get_initial_charges a))
    end ∧
    match dict_get "mult" d with
    | Some v => mult = v
    | None => ∃ a r, frames = [a] ∧
                round_int (fsum (get_initial_magnetic_moments a)) = Ok r ∧
                mult = VInt (Z.abs r + 1)
    end ∧
    pct_d charge = Ok c ∧ pct_d mult = Ok m.
Proof.
  intros H d. unfold write_aip in H. cbv zeta in H.
  rewrite bind_deepcopy in H. fold d in H.
  set (w := length σ) in *. set (σ0 := σ ++ [d]) in *.
  assert (w < length σ0) as Hw by (unfold σ0; rewrite length_app; simpl; lia).
  assert (deref w σ0 = d) as Hd by apply deref_newest.
  apply prog_bind_Ok in H as (job & σ1 & Hjob & H).
  apply prog_bind_Ok in H as (kwline & σ2 & Hkw & H).
  apply prog_bind_Ok in H as (block & σ3 & Hblock & H).
  apply prog_bind_Ok in H as (region & σ4 & Hxyz & H).
  injection H as <- <-.
  destruct (write_job_returns w d σ0 job σ1 Hw Hd Hjob)
    as (Hσ1 & Hd1 & l1 & l2 & -> & Hl1 & Hl2).
  assert (w < length σ1) as Hw1 by (rewrite Hσ1, length_insert; done).
  destruct (write_keywords_returns properties w _ σ1 kwline σ2 Hw1 Hd1 Hkw)
    as (Hσ2 & Hd2 & more & Hmore & Hline).
  assert (w < length σ2) as Hw2 by (rewrite Hσ2, length_insert; done).
  destruct (write_dict_returns w _ σ2 block σ3 Hw2 Hd2 Hblock)
    as (Hσ3 & Hd3 & ->).
  assert (w < length σ3) as Hw3 by (rewrite Hσ3, length_insert; done).
  destruct (write_xyz_returns _ w _ σ3 region σ4 Hw3 Hd3 Hxyz)
    as (Hσ4 & Hd4 & charge & mult & c & m & Hc & Hm & Hpc & Hpm & ->).
  rewrite dict_get_del_ne in Hmore by done.
  rewrite !dict_get_del_ne in Hc, Hm by done.
  eexists l1, l2, kwline, more, _, charge, mult, c, m.
  repeat apply conj; [|done|done|done|done| | | |done|done].
  - rewrite (app_assoc l1 l2). rewrite <- block_lines_length.
    apply join_parts.
    + apply Forall_take, Forall_app. split.
      * destruct (dict_get "npara" d); [|by rewrite Hl1].
        destruct Hl1 as (? & _ & ->). apply Forall_singleton.
        rewrite length_append. simpl. lia.
      * destruct (dict_get "maxcore" d); [|by rewrite Hl2].
        destruct Hl2 as (? & _ & ->). apply Forall_singleton.
        rewrite length_append. simpl. lia.
    + destruct (join_values_cons _ _ _ _ Hline) as [ss ->].
      apply join_nonempty. simpl. lia.
    + cbn [app]. apply join_nonempty. rewrite length_append. simpl. lia.
    + intros Hne. apply block_lines_nonempty. intros HX. apply Hne.
      by rewrite HX.
  - by intros a ->.
  - destruct (dict_get "charge" d); [done|].
    destruct Hc as (a & Ha & ->). exists a. by rewrite Ha.
  - destruct (dict_get "mult" d); [done|].
    destruct Hm as (a & r & Ha & ? & ->). exists a, r. by rewrite Ha.
Qed.


(** *** The keyword line *)

Lemma write_keywords_run properties (w : loc) (σ : store) :
  write_keywords properties w σ
  = match dict_get "keywords" (deref w σ) with
    | Some v =>
        (iterate v ≫= λ more, join_values " " (VStr "!" :: more),
         <[w := dict_del "keywords" (deref w σ)]> σ)
    | None => (Ok "! pbe0 def2-svp", σ)
    end.
Proof.
  unfold write_keywords.
  unfold mbind at 1 2 3, prog_bind, bind, mret, prog_ret, ret, lift,
    kw_in, kw_pop.
  cbn beta iota zeta. rewrite dict_get_in.
  destruct (dict_get "keywords" (deref w σ)) as [v|] eqn:E; [|done].
  rewrite bool_decide_eq_true_2 by done. cbn beta iota zeta. rewrite E.
  destruct (iterate v) as [more|e]; [|done].
  reflexivity.
Qed.

Lemma join_values_strings (sep : string) (ss : list string) :
  join_values sep (VStr <$> ss : list (value RT)) = Ok (join sep ss).
Proof.
  unfold join_values.
  assert (mapM (λ v : value RT,
                  match v with VStr s => Ok s | _ => Raise TypeError end)
            (VStr <$> ss) = Ok ss) as ->; [|done].
  induction ss as [|x ss IH]; [done|]. cbn [fmap list_fmap mapM].
  fold (@fmap list _ _ _ (@VStr RT) ss). by rewrite IH.
Qed.

Lemma join_values_not_strings (sep : string) (l : list (value RT)) :
  Exists (λ v, type_of v ≠ Tstr) l → join_values sep l = Raise TypeError.
Proof.
  unfold join_values. intros H.
  assert (mapM (λ v : value RT,
                  match v with VStr s => Ok s | _ => Raise TypeError end) l
          = Raise TypeError) as ->; [|done].
  induction l as [|x l IH]; [by apply Exists_nil in H|].
  cbn [mapM]. apply Exists_cons in H as [H|H].
  - by destruct x.
  - rewrite IH by done. by destruct x.
Qed.

(** X15 (write_keywords): the keyword line.  Without the parameter
    [keywords] the line is [! pbe0 def2-svp] and nothing is popped; a list
    of strings, and the keys of a mapping, follow the [!] separated by
    blanks; a bare string is taken apart into its characters; a value that
    cannot be iterated, and a list with an item that is not a string, raise
    [TypeError].  The argument [properties] has no influence. *)
Theorem keyword_line_cases properties (w : loc) (σ : store) :
  let d := deref w σ in
  let popped := <[w := dict_del "keywords" d]> σ in
  (dict_get "keywords" d = None →
     write_keywords properties w σ = (Ok "! pbe0 def2-svp", σ)) ∧
  (∀ ss, dict_get "keywords" d = Some (VList (VStr <$> ss)) →
     write_keywords properties w σ = (Ok (join " " ("!" :: ss)), popped)) ∧
  (∀ kd, dict_get "keywords" d = Some (VDict kd) →
     write_keywords properties w σ = (Ok (join " " ("!" :: kd.*1)), popped)) ∧
  (∀ s, dict_get "keywords" d = Some (VStr s) →
     write_keywords properties w σ
     = (Ok (join " " ("!" :: chars s)), popped)) ∧
  (∀ v, dict_get "keywords" d = Some v →
     type_of v ≠ Tstr → type_of v ≠ Tlist → type_of v ≠ Tdict →
     write_keywords properties w σ = (Raise TypeError, popped)) ∧
  (∀ l, dict_get "keywords" d = Some (VList l) →
     Exists (λ v, type_of v ≠ Tstr) l →
     write_keywords properties w σ = (Raise TypeError, popped)).
Proof.
  intros d popped. subst d popped.
  repeat apply conj; intros *; rewrite write_keywords_run; intros ->.
  - done.
  - cbn [iterate mbind result_bind].
    change (VStr "!" :: (VStr <$> ss)) with (VStr <$> ("!" :: ss) : list (value RT)).
    by rewrite join_values_strings.
  - cbn [iterate mbind result_bind].
    replace ((λ kv : string * value RT, VStr kv.1) <$> kd)
      with (VStr <$> kd.*1 : list (value RT))
      by (by rewrite <- list_fmap_compose).
    change (VStr "!" :: (VStr <$> kd.*1))
      with (VStr <$> ("!" :: kd.*1) : list (value RT)).
    by rewrite join_values_strings.
  - cbn [iterate mbind result_bind].
    change (VStr "!" :: (VStr <$> chars s))
      with (VStr <$> ("!" :: chars s) : list (value RT)).
    by rewrite join_values_strings.
  - intros Hs Hl Hd. by destruct v.
  - intros Hex. cbn [iterate mbind result_bind].
    rewrite join_values_not_strings; [done|]. by apply Exists_cons_tl.
Qed.

(** *** Lists of structures *)

Ltac run_goal :=
  unfold mbind, prog_bind, bind, mret, prog_ret, ret, lift, raise,
    kw_in, kw_get, kw_pop, kw_items; cbn beta iota zeta.

Lemma dict_get_in_range (k : string) (w : loc) (σ : store) (v : value RT) :
  dict_get k (deref w σ) = Some v → w < length σ.
Proof.
  intros H. apply lookup_lt_is_Some. unfold deref in H.
  destruct (σ !! w); [done|discriminate].
Qed.

Lemma write_xyz_one_image (a : Atoms RT) (w : loc) (σ : store) :
  dict_in "charge" (deref w σ) = true → dict_in "mult" (deref w σ) = true →
  write_xyz (Images [a]) w σ = write_xyz (One a) w σ.
Proof.
  intros Hc Hm. unfold write_xyz. run_goal. rewrite Hc.
  destruct (dict_in_get _ _ Hc) as [vc Hvc]. rewrite Hvc.
  pose proof (dict_get_in_range _ _ _ _ Hvc) as Hw.
  cbn beta iota zeta.
  rewrite !deref_insert, !dict_in_del_ne, !Hm by done.
  reflexivity.
Qed.

Lemma write_xyz_images_raise (l : list (Atoms RT)) (w : loc) (σ : store) :
  dict_in "charge" (deref w σ) = false ∨ dict_in "mult" (deref w σ) = false →
  (write_xyz (Images l) w σ).1 = Raise AttributeError.
Proof.
  intros H. unfold write_xyz. run_goal.
  destruct (dict_in "charge" (deref w σ)) eqn:Hc; [|done].
  destruct H as [?|Hm]; [done|].
  destruct (dict_in_get _ _ Hc) as [vc Hvc]. rewrite Hvc.
  pose proof (dict_get_in_range _ _ _ _ Hvc) as Hw.
  cbn beta iota zeta.
  rewrite !deref_insert, !dict_in_del_ne, !Hm by done.
  reflexivity.
Qed.

Lemma prog_bind_ext {A B} (m : Prog A) (f g : A → Prog B) (σ : store) :
  (∀ a σ1, m σ = (Ok a, σ1) → f a σ1 = g a σ1) →
  (m ≫= f) σ = (m ≫= g) σ.
Proof.
  intros H. unfold mbind, prog_bind, bind.
  destruct (m σ) as [[a|e] σ1]; [|done]. by apply H.
Qed.

(** The working dictionary when [write_xyz] is reached. *)
Lemma write_aip_reaches_xyz properties (w : loc) (σ0 : store)
    job σ1 kwline σ2 block σ3 :
  w < length σ0 →
  write_job w σ0 = (Ok job, σ1) →
  write_keywords properties w σ1 = (Ok kwline, σ2) →
  write_dict w σ2 = (Ok block, σ3) →
  deref w σ3 = dict_del "keywords" (dict_del "npara" (deref w σ0)).
Proof.
  intros Hw Hjob Hkw Hblock.
  destruct (write_job_returns w _ σ0 job σ1 Hw eq_refl Hjob)
    as (Hσ1 & Hd1 & _).
  assert (w < length σ1) as Hw1 by (rewrite Hσ1, length_insert; done).
  destruct (write_keywords_returns properties w _ σ1 kwline σ2 Hw1 Hd1 Hkw)
    as (Hσ2 & Hd2 & _).
  assert (w < length σ2) as Hw2 by (rewrite Hσ2, length_insert; done).
  by destruct (write_dict_returns w _ σ2 block σ3 Hw2 Hd2 Hblock)
    as (Hσ3 & Hd3 & _).
Qed.

(** X16 (write_aip, write_xyz): lists of structures.  Of two or more
    structures the last one is written.  A list of one structure is
    written as that structure when the parameters give [charge] and
    [mult]; when one of them is missing, the writer does not return for a
    list of at most one structure, and [write_xyz] raises
    [AttributeError] for every list. *)
Theorem image_lists properties (kw : loc) (σ : store) :
  let d := deref kw σ in
  (∀ l a, l ≠ [] →
     write_aip (Images (l ++ [a])) properties kw σ
     = write_aip (One a) properties kw σ) ∧
  (∀ a, dict_in "charge" d = true → dict_in "mult" d = true →
     write_aip (Images [a]) properties kw σ
     = write_aip (One a) properties kw σ) ∧
  (∀ l text σ',
     length l ≤ 1 →
     dict_in "charge" d = false ∨ dict_in "mult" d = false →
     write_aip (Images l) properties kw σ ≠ (Ok text, σ')) ∧
  (∀ l, dict_in "charge" d = false ∨ dict_in "mult" d = false →
     (write_xyz (Images l) kw σ).1 = Raise AttributeError).
Proof.
  intros d. repeat apply conj.
  - intros l a Hl. unfold write_aip.
    rewrite last_snoc, length_app.
    destruct l as [|b l]; [done|].
    by replace (1 <? length (b :: l) + length [a]) with true
      by (symmetry; apply Nat.ltb_lt; simpl; lia).
  - intros a Hc Hm. unfold write_aip. cbv zeta.
    change (1 <? length [a]) with false. cbv iota.
    rewrite !bind_deepcopy. fold d.
    assert (length σ < length (σ ++ [d])) as Hw
      by (rewrite length_app; simpl; lia).
    pose proof (deref_newest σ d) as Hd.
    apply prog_bind_ext. intros job σ1 Hjob.
    apply prog_bind_ext. intros kwline σ2 Hkw.
    apply prog_bind_ext. intros block σ3 Hblock.
    pose proof (write_aip_reaches_xyz _ _ _ _ _ _ _ _ _ Hw Hjob Hkw Hblock)
      as Hd3.
    rewrite Hd in Hd3.
    unfold mbind, prog_bind, bind.
    rewrite write_xyz_one_image; [done| |];
      by rewrite Hd3, !dict_in_del_ne.
  - intros l text σ' Hl Hmissing H. unfold write_aip in H. cbv zeta in H.
    assert ((if 1 <? length l
             then match last l with Some a => One a | None => Images l end
             else Images l) = Images l) as Heq.
    { destruct l as [|a [|b l]]; [done|done|simpl in Hl; lia]. }
    rewrite Heq in H. clear Heq.
    rewrite bind_deepcopy in H. fold d in H.
    assert (length σ < length (σ ++ [d])) as Hw
      by (rewrite length_app; simpl; lia).
    pose proof (deref_newest σ d) as Hd.
    apply prog_bind_Ok in H as (job & σ1 & Hjob & H).
    apply prog_bind_Ok in H as (kwline & σ2 & Hkw & H).
    apply prog_bind_Ok in H as (block & σ3 & Hblock & H).
    apply prog_bind_Ok in H as (region & σ4 & Hxyz & H).
    pose proof (write_aip_reaches_xyz _ _ _ _ _ _ _ _ _ Hw Hjob Hkw Hblock)
      as Hd3.
    rewrite Hd in Hd3.
    assert ((write_xyz (Images l) (length σ) σ3).1 = Raise AttributeError)
      as Hraise.
    { apply write_xyz_images_raise. by rewrite Hd3, !dict_in_del_ne. }
    by rewrite Hxyz in Hraise.
  - intros l. apply write_xyz_images_raise.
Qed.

(** *** Parameters that the writer cannot see *)

Lemma significant_items_cons (kv : string * value RT) (d : pydict) :
  significant_items (kv :: d)
  = if significant kv then kv :: significant_items d else significant_items d.
Proof.
  unfold significant_items. destruct (significant kv) eqn:E.
  - by rewrite filter_cons_True.
  - rewrite filter_cons_False; [done|]. by rewrite E.
Qed.

Lemma insignificant_key (k : string) (kv : string * value RT) :
  existsb (String.eqb k) (distinguished ++ bound_names) = true → significant kv = false →
  String.eqb kv.1 k = false.
Proof.
  intros Hk Hkv. destruct (String.eqb_spec kv.1 k) as [Heq|]; [|done].
  unfold significant in Hkv. by rewrite Heq, Hk in Hkv.
Qed.

Lemma dict_get_significant (k : string) (d : pydict) :
  existsb (String.eqb k) (distinguished ++ bound_names) = true →
  dict_get k (significant_items d) = dict_get k d.
Proof.
  intros Hk. induction d as [|[k' v'] d IH]; [done|].
  rewrite significant_items_cons.
  destruct (significant (k', v')) eqn:E; cbn [dict_get].
  - by rewrite IH.
  - pose proof (insignificant_key k (k', v') Hk E) as Hne.
    simpl in Hne. by rewrite Hne.
Qed.

Lemma dict_del_significant (k : string) (d : pydict) :
  existsb (String.eqb k) (distinguished ++ bound_names) = true →
  significant_items (dict_del k d) = dict_del k (significant_items d).
Proof.
  intros Hk. induction d as [|[k' v'] d IH]; [done|].
  rewrite significant_items_cons. cbn [dict_del].
  destruct (significant (k', v')) eqn:E.
  - cbn [dict_del]. destruct (String.eqb k' k); [done|].
    by rewrite significant_items_cons, E, IH.
  - pose proof (insignificant_key k (k', v') Hk E) as Hne.
    simpl in Hne. by rewrite Hne, significant_items_cons, E.
Qed.

Lemma collect_blocks_significant (d : pydict) :
  collect_blocks (significant_items d) = collect_blocks d.
Proof.
  unfold collect_blocks. generalize (@nil (string * pydict)).
  induction d as [|[k' v'] d IH]; intros acc; [done|].
  rewrite significant_items_cons.
  destruct (significant (k', v')) eqn:E; cbn [foldl].
  - by rewrite IH.
  - rewrite IH. destruct v'; try done.
    unfold significant in E. simpl in E. by rewrite orb_true_r in E.
Qed.

Lemma collides_significant (d : pydict) :
  collides (significant_items d) = collides d.
Proof.
  unfold collides, bound_names. cbn [existsb].
  rewrite !dict_get_in. by rewrite !dict_get_significant.
Qed.

Lemma agree_on_significant_ret {A} (w1 w2 : loc) (a : A) :
  agree_on_significant w1 w2 (mret a : Prog A) (mret a).
Proof. intros σ1 σ2 H. done. Qed.

Lemma agree_on_significant_raise {A} (w1 w2 : loc) (e : exn) :
  agree_on_significant w1 w2 (raise e : Prog A) (raise e).
Proof. intros σ1 σ2 H. done. Qed.

Lemma agree_on_significant_lift {A} (w1 w2 : loc) (r : result A) :
  agree_on_significant w1 w2 (lift r) (lift r).
Proof. intros σ1 σ2 H. done. Qed.

Lemma agree_on_significant_bind {A B} (w1 w2 : loc) (m1 m2 : Prog A)
    (f1 f2 : A → Prog B) :
  agree_on_significant w1 w2 m1 m2 →
  (∀ a, agree_on_significant w1 w2 (f1 a) (f2 a)) →
  agree_on_significant w1 w2 (m1 ≫= f1) (m2 ≫= f2).
Proof.
  intros Hm Hf σ1 σ2 H. unfold mbind, prog_bind, bind.
  destruct (Hm σ1 σ2 H) as [Hr Hs].
  destruct (m1 σ1) as [[a1|e1] σ1'], (m2 σ2) as [[a2|e2] σ2'];
    simpl in *; try done.
  - injection Hr as <-. by apply Hf.
  - by injection Hr as <-.
Qed.

Lemma agree_on_significant_kw_in (w1 w2 : loc) (k : string) :
  existsb (String.eqb k) (distinguished ++ bound_names) = true →
  agree_on_significant w1 w2 (kw_in k w1) (kw_in k w2).
Proof.
  intros Hk σ1 σ2 H. unfold kw_in. simpl. split; [|done].
  rewrite !dict_get_in.
  by rewrite <- (dict_get_significant k (deref w1 σ1)),
             <- (dict_get_significant k (deref w2 σ2)), H.
Qed.

Lemma agree_on_significant_kw_get (w1 w2 : loc) (k : string) :
  existsb (String.eqb k) (distinguished ++ bound_names) = true →
  agree_on_significant w1 w2 (kw_get k w1) (kw_get k w2).
Proof.
  intros Hk σ1 σ2 H. unfold kw_get. simpl. split; [|done].
  by rewrite <- (dict_get_significant k (deref w1 σ1)),
             <- (dict_get_significant k (deref w2 σ2)), H.
Qed.

Lemma agree_on_significant_kw_pop (w1 w2 : loc) (k : string) :
  existsb (String.eqb k) (distinguished ++ bound_names) = true →
  agree_on_significant w1 w2 (kw_pop k w1) (kw_pop k w2).
Proof.
  intros Hk σ1 σ2 H. unfold kw_pop.
  pose proof (dict_get_significant k (deref w1 σ1) Hk) as H1.
  pose proof (dict_get_significant k (deref w2 σ2) Hk) as H2.
  rewrite H in H1. rewrite H1 in H2.
  destruct (dict_get k (deref w1 σ1)) as [v1|] eqn:E1;
    destruct (dict_get k (deref w2 σ2)) as [v2|] eqn:E2;
    try discriminate; simpl; [|done].
  split; [congruence|].
  rewrite !deref_insert by (by eapply dict_get_in_range).
  by rewrite !dict_del_significant, H.
Qed.

Lemma agree_on_significant_write_dict (w1 w2 : loc) :
  agree_on_significant w1 w2 (write_dict w1) (write_dict w2).
Proof.
  intros σ1 σ2 H. unfold write_dict. run_goal.
  rewrite <- (collect_blocks_significant (deref w1 σ1)),
          <- (collect_blocks_significant (deref w2 σ2)), H.
  by destruct (0 <? _).
Qed.

Ltac significant_steps :=
  cbv zeta;
  repeat first
    [ apply agree_on_significant_ret | apply agree_on_significant_raise
    | apply agree_on_significant_lift
    | apply agree_on_significant_kw_in; reflexivity
    | apply agree_on_significant_kw_get; reflexivity
    | apply agree_on_significant_kw_pop; reflexivity
    | apply agree_on_significant_write_dict
    | apply agree_on_significant_bind; [|intros ?]
    | match goal with
      | |- agree_on_significant _ _ (if ?b then _ else _) _ => destruct b
      | |- agree_on_significant _ _ (match ?a with _ => _ end) _ => destruct a
      end ].

Lemma agree_on_significant_write_aip atoms properties (kw1 kw2 : loc)
    (σ1 σ2 : store) :
  significant_items (deref kw1 σ1) = significant_items (deref kw2 σ2) →
  (write_aip atoms properties kw1 σ1).1
  = (write_aip atoms properties kw2 σ2).1.
Proof.
  intros H. unfold write_aip. cbv zeta. rewrite !bind_deepcopy.
  match goal with
  | |- (?m1 _).1 = (?m2 _).1 =>
      assert (agree_on_significant (length σ1) (length σ2)
                (λ σ, m1 σ) (λ σ, m2 σ)) as Hagree
  end.
  { unfold write_job, write_keywords, write_xyz. significant_steps. }
  apply Hagree. by rewrite !deref_newest.
Qed.

(** X17 (Amesp.write_input, write_aip, write_dict): the parameters that
    are not written.  Two parameter sets with the same significant items,
    in the same order, have the same outcome: a parameter that is neither
    one of [npara], [maxcore], [keywords], [charge], [mult], nor named
    [fd], [atoms] or [properties], nor a mapping never changes the
    transcript or the exception.  A parameter named [fd], [atoms] or
    [properties] is not ignored: with it the call raises [TypeError] and
    nothing is written. *)
Theorem ignored_parameters atoms properties (p1 p2 : loc) (σ1 σ2 : store) :
  (significant_items (deref p1 σ1) = significant_items (deref p2 σ2) →
   (write_input atoms properties p1 σ1).1
   = (write_input atoms properties p2 σ2).1) ∧
  (∀ name, In name bound_names → dict_in name (deref p1 σ1) = true →
     write_input atoms properties p1 σ1 = (Raise TypeError, σ1)).
Proof.
  split.
  - intros H. rewrite !write_input_run.
    rewrite <- (collides_significant (deref p1 σ1)),
            <- (collides_significant (deref p2 σ2)), H.
    destruct (collides _); [done|].
    apply agree_on_significant_write_aip. by rewrite !deref_newest.
  - intros name Hname Hin. apply write_input_collides.
    apply existsb_exists. by exists name.
Qed.

(** *** Written transcripts and the reader *)

Lemma region_has_banner (c m : string) (body : list string) :
  contains ">xyz"
    (join EmptyString ([">xyz " +:+ c +:+ " " +:+ m +:+ NL] ++ body ++ ["end"]))
  = true.
Proof.
  cbn [app]. rewrite join_cons by (by destruct body).
  apply contains_prefix.
  rewrite !append_assoc.
  change (">xyz " +:+ ?t) with (String ">" (String "x" (String "y"
                                 (String "z" (String " " t))))).
  reflexivity.
Qed.

(** X18 (write_aip, read_aip): every transcript that the writer returns
    contains the banner of the Cartesian region, so that reading it back
    takes the Cartesian path and never consults the z-matrix resolver. *)
Theorem written_text_is_cartesian atoms properties (p : loc) (σ : store)
    (text : string) (σ' : store) :
  write_input atoms properties p σ = (Ok text, σ') →
  contains ">xyz" text = true ∧
  ∀ zm, read_aip zm text = Some <$> parse_xyz text.
Proof.
  intros H. apply write_input_Ok in H as [_ H].
  destruct (write_aip_lines _ _ _ _ _ _ H)
    as (l1 & l2 & kwline & more & frames & charge & mult & c & m & -> & _).
  assert (contains ">xyz"
            (join NL
               (l1 ++ l2 ++ [kwline] ++
                block_lines
                  (collect_blocks
                     (dict_del "keywords"
                        (dict_del "npara"
                           (deref (length σ) (σ ++ [deref p σ]))))) ++
                [join EmptyString
                   ([">xyz " +:+ c +:+ " " +:+ m +:+ NL] ++
                    ((λ line : string, line +:+ NL) <$>
                     drop 2 (io_write_xyz frames)) ++ ["end"])])) = true)
    as Hbanner.
  { rewrite !app_assoc. apply contains_join_last, region_has_banner. }
  split; [done|]. intros zm. unfold read_aip. by rewrite Hbanner.
Qed.

(** X14 (write_aip and its four parts): the transcript that is written
    for one structure.  Its lines are, in this order: the line
    [% npara n] and the line [% maxcore n] when the parameter is given;
    the keyword line, which begins with [!]; the lines of the named
    blocks, computed from the parameters without [npara] and [keywords];
    and the Cartesian region, whose header holds the parameters [charge]
    and [mult] or else the sum of the initial charges and one more than
    the rounded sum of the initial magnetic moments, followed by one line
    per atom and [end].  Blank parts leave no empty line. *)
Theorem written_lines (a : Atoms RT) properties (p : loc) (σ : store)
    (text : string) (σ' : store) :
  write_input (One a) properties p σ = (Ok text, σ') →
  let d := deref p σ in
  ∃ (l1 l2 : list string) (kwline : string) (more : list (value RT))
    (charge mult : value RT) (c m : string),
    text = join NL
             (l1 ++ l2 ++ [kwline]
              ++ block_lines
                   (collect_blocks (dict_del "keywords" (dict_del "npara" d)))
              ++ [join EmptyString
                    ([">xyz " +:+ c +:+ " " +:+ m +:+ NL]
                     ++ ((λ line, line +:+ NL) <$>
                           zip_with (λ s '(x, y, z),
                               ljust 2 s +:+ " " +:+ pct_22_15f x +:+ " "
                               +:+ pct_22_15f y +:+ " " +:+ pct_22_15f z)
                             (symbols a) (positions a))
                     ++ ["end"])]) ∧
    match dict_get "npara" d with
    | Some v => ∃ s, pct_d v = Ok s ∧ l1 = ["% npara " +:+ s]
    | None => l1 = []
    end ∧
    match dict_get "maxcore" d with
    | Some v => ∃ s, pct_d v = Ok s ∧ l2 = ["% maxcore " +:+ s]
    | None => l2 = []
    end ∧
    iterate (default (VList [VStr "pbe0"; VStr "def2-svp"])
               (dict_get "keywords" d)) = Ok more ∧
    join_values " " (VStr "!" :: more) = Ok kwline ∧
    match dict_get "charge" d with
    | Some v => charge = v
    | None => charge = VFloat (fsum (get_initial_charges a))
    end ∧
    match dict_get "mult" d with
    | Some v => mult = v
    | None => ∃ r, round_int (fsum (get_initial_magnetic_moments a)) = Ok r ∧
                   mult = VInt (Z.abs r + 1)
    end ∧
    pct_d charge = Ok c ∧ pct_d mult = Ok m.
Proof.
  intros H d. apply write_input_Ok in H as [_ H].
  destruct (write_aip_lines _ _ _ _ _ _ H)
    as (l1 & l2 & kwline & more & frames & charge & mult & c & m
        & -> & Hl1 & Hl2 & Hmore & Hline & Hframes & Hc & Hm & Hpc & Hpm).
  rewrite deref_newest in *. fold d in Hl1, Hl2, Hmore, Hc, Hm.
  rewrite (Hframes a eq_refl) in *.
  exists l1, l2, kwline, more, charge, mult, c, m.
  repeat apply conj; try done.
  - unfold io_write_xyz. cbn [mbind list_bind app]. unfold xyz_frame_lines.
    rewrite app_nil_r. cbn [app drop]. done.
  - destruct (dict_get "charge" d); [done|].
    by destruct Hc as (a' & [= <-] & ->).
  - destruct (dict_get "mult" d); [done|].
    destruct Hm as (a' & r & [= <-] & ? & ->). eauto.
Qed.

(** *** Parameters that must be numbers *)

Lemma pct_d_Ok (v : value RT) (s : string) :
  pct_d v = Ok s → type_of v = Tint ∨ type_of v = Tbool ∨ type_of v = Tfloat.
Proof. destruct v; simpl; intros H; try discriminate; eauto. Qed.

(** X20 (write_job, write_xyz, write_aip): the parameters [npara],
    [maxcore], [charge] and [mult] must be numbers.  When one of them is
    given with a value that is neither an integer, a boolean nor a real,
    the writer does not return; for [npara], the first one that is
    formatted, the exception is [TypeError]. *)
Theorem number_parameters atoms properties (p : loc) (σ : store)
    (k : string) (v : value RT) :
  k = "npara" ∨ k = "maxcore" ∨ k = "charge" ∨ k = "mult" →
  dict_get k (deref p σ) = Some v →
  type_of v ≠ Tint → type_of v ≠ Tbool → type_of v ≠ Tfloat →
  (∃ e, (write_input atoms properties p σ).1 = Raise e) ∧
  (k = "npara" → (write_input atoms properties p σ).1 = Raise TypeError).
Proof.
  intros Hk Hv Hint Hbool Hfloat.
  assert (∀ s, pct_d v ≠ Ok s) as Hpct.
  { intros s [?|[?|?]]%pct_d_Ok; done. }
  split.
  - destruct (write_input atoms properties p σ) as [[text|e] σ'] eqn:H;
      [exfalso|by exists e].
    apply write_input_Ok in H as [_ H].
    destruct (write_aip_lines _ _ _ _ _ _ H)
      as (l1 & l2 & kwline & more & frames & charge & mult & c & m
          & _ & Hl1 & Hl2 & _ & _ & _ & Hc & Hm & Hpc & Hpm).
    rewrite deref_newest in *.
    destruct Hk as [-> | [-> | [-> | ->]]]; rewrite Hv in *.
    + destruct Hl1 as (s & Hs & _). by apply Hpct in Hs.
    + destruct Hl2 as (s & Hs & _). by apply Hpct in Hs.
    + subst charge. by apply Hpct in Hpc.
    + subst mult. by apply Hpct in Hpm.
  - intros ->. rewrite write_input_run.
    destruct (collides (deref p σ)); [done|].
    unfold write_aip. cbv zeta. rewrite bind_deepcopy.
    rewrite !deref_newest. unfold write_job. run_goal.
    rewrite !deref_newest, dict_get_in, Hv.
    rewrite bool_decide_eq_true_2 by done. cbn beta iota zeta.
    rewrite !deref_newest, Hv.
    destruct (pct_d v) as [s|e] eqn:E; [by destruct (Hpct s)|].
    by destruct v.
Qed.
End WriterProperties.

(* ===================================================================== *)
(** ** Reading back what was written *)
(* ===================================================================== *)

Section RoundTrip.
Context {RT : Runtime}.

(** *** The matcher on a written region *)

Implicit Types (k : string → caps → option outcome) (st : caps).

Lemma append_empty_r (a : string) : a +:+ EmptyString = a.
Proof. induction a as [|x a IH]; [done|]. by rewrite append_cons, IH. Qed.

Lemma feeds_empty st : feeds EmptyString st = st.
Proof.
  destruct st as [cl [g|]]; unfold feeds; simpl; [|done].
  by rewrite append_empty_r.
Qed.

Lemma feeds_cons (c : ascii) (w : string) st :
  feeds (String c w) st = feeds w (feed c st).
Proof.
  destruct st as [cl [g|]]; unfold feeds, feed; simpl; [|done].
  do 2 f_equal. by rewrite append_assoc.
Qed.

Lemma match_here_lit_append (w : string) (p : pattern) (s : string) st :
  match_here (lit w ++ p) (w +:+ s) st = match_here p s (feeds w st).
Proof.
  revert st. induction w as [|c w IH]; intros st.
  - by rewrite feeds_empty.
  - rewrite append_cons, feeds_cons. cbn. rewrite Ascii.eqb_refl. apply IH.
Qed.

(** A greedy quantifier that takes all of [w], after which [k] matches. *)
Lemma rep_greedy_all (cs : ascii → bool) k (w s : string) (lo : nat) st r :
  free_of (λ c, negb (cs c)) w = true → lo ≤ String.length w →
  free_of cs (match s with String c _ => String c EmptyString | _ => EmptyString end) = true →
  k s (feeds w st) = Some r →
  rep true cs k lo (w +:+ s) st = Some r.
Proof.
  revert lo st. induction w as [|a w IH]; intros lo st Hw Hlo Hs Hk.
  - simpl in Hlo. assert (lo = 0) as -> by lia.
    rewrite feeds_empty in Hk.
    change (EmptyString +:+ s) with s. destruct s as [|c s']; [done|].
    cbn [rep]. cbn [free_of] in Hs. by destruct (cs c).
  - cbn [free_of] in Hw. apply andb_true_iff in Hw as [Ha Hw].
    rewrite negb_involutive in Ha. rewrite feeds_cons in Hk.
    rewrite append_cons. destruct lo as [|lo]; cbn [rep]; rewrite Ha.
    + by rewrite (IH 0 (feed a st)) by (done || lia).
    + apply IH; try done. simpl in Hlo. lia.
Qed.

(** A greedy quantifier gives back a character that [k] needs. *)
Lemma rep_greedy_back (cs : ascii → bool) k (c : ascii) (s : string) st :
  cs c = true → rep true cs k 0 s (feed c st) = None →
  rep true cs k 0 (String c s) st = k (String c s) st.
Proof. intros Hc Hnone. cbn [rep]. by rewrite Hc, Hnone. Qed.

(** A lazy quantifier passes the characters at which [k] fails. *)
Lemma rep_lazy_pass (cs : ascii → bool) k (w s : string) st :
  free_of (λ c, negb (cs c)) w = true →
  (∀ w1 c w2, w = w1 +:+ String c w2 →
     k (String c w2 +:+ s) (feeds w1 st) = None) →
  rep false cs k 0 (w +:+ s) st = rep false cs k 0 s (feeds w st).
Proof.
  revert st. induction w as [|a w IH]; intros st Hw Hk.
  - by rewrite feeds_empty.
  - cbn [free_of] in Hw. apply andb_true_iff in Hw as [Ha Hw].
    rewrite negb_involutive in Ha.
    rewrite append_cons, feeds_cons. cbn [rep].
    pose proof (Hk EmptyString a w eq_refl) as H0.
    rewrite feeds_empty, append_cons in H0. rewrite H0, Ha.
    apply IH; [done|]. intros w1 c w2 ->.
    specialize (Hk (String a w1) c w2 eq_refl).
    by rewrite feeds_cons in Hk.
Qed.

(** *** The end of a region *)

Lemma match_here_lit_prefix (w : string) (p : pattern) (s : string) st :
  String.prefix w s = false → match_here (lit w ++ p) s st = None.
Proof.
  intros H. destruct (match_here (lit w ++ p) s st) as [r|] eqn:E; [|done].
  apply match_here_lit in E. congruence.
Qed.

(** Whitespace that is not followed by [end]. *)
Lemma spaces_without_end (t : string) st :
  String.prefix "end" (lstrip t) = false →
  rep true isspace (match_here (lit "end")) 0 t st = None.
Proof.
  revert st. induction t as [|c t IH]; intros st H; [done|].
  cbn [lstrip] in H. cbn [rep]. destruct (isspace c) eqn:Hc.
  - rewrite IH by done.
    apply (match_here_lit_prefix "end" []).
    cbn [String.prefix]. destruct (ascii_dec "e" c) as [<-|]; [discriminate|done].
  - by apply (match_here_lit_prefix "end" []).
Qed.

Lemma region_end_not_here (c : ascii) (t : string) st :
  Ascii.eqb LF c = false → match_here region_end (String c t) st = None.
Proof.
  intros H. cbn. rewrite Ascii.eqb_sym. by rewrite H.
Qed.

Lemma region_end_not_yet (t : string) st :
  String.prefix "end" (lstrip t) = false →
  match_here region_end (String LF t) st = None.
Proof. intros H. cbn -[rep]. by apply spaces_without_end. Qed.

Lemma region_end_here (cl : list string) (g : string) :
  match_here region_end (NL +:+ "end") (Caps cl (Some g))
  = Some (reverse (g :: cl), EmptyString).
Proof. reflexivity. Qed.

(** The lazy group reads the lines up to the last one. *)
Lemma lazy_group_reads_lines (ls : list string) (cl : list string) (g : string) :
  ls ≠ [] →
  Forall (λ l, free_of (Ascii.eqb LF) l = true) ls →
  Forall opens_no_end ls →
  rep false dotall (match_here region_end) 0
    (join NL ls +:+ NL +:+ "end") (Caps cl (Some g))
  = Some (reverse ((g +:+ join NL ls) :: cl), EmptyString).
Proof.
  revert g. induction ls as [|l ls IH]; intros g Hne Hfree Hopen; [done|].
  apply Forall_cons in Hfree as [Hl Hfree].
  apply Forall_cons in Hopen as [_ Hopen].
  assert (∀ s, rep false dotall (match_here region_end) 0 (l +:+ s)
                 (Caps cl (Some g))
               = rep false dotall (match_here region_end) 0 s
                   (Caps cl (Some (g +:+ l)))) as Hpass.
  { intros s. rewrite rep_lazy_pass; [done| |].
    - clear. induction l as [|c l IHl]; [done|]. cbn [free_of]. by rewrite IHl.
    - intros w1 c w2 ->. rewrite append_cons. apply region_end_not_here.
      rewrite free_of_append in Hl. apply andb_true_iff in Hl as [_ Hl].
      cbn [free_of] in Hl. apply andb_true_iff in Hl as [Hc _].
      by destruct (Ascii.eqb LF c). }
  destruct ls as [|l2 ls].
  - cbn [join]. rewrite Hpass.
    change (NL +:+ "end") with (String LF "end") at 1.
    cbn [rep]. by rewrite region_end_here.
  - change (join NL (l :: l2 :: ls))
      with (l +:+ NL +:+ join NL (l2 :: ls)).
    rewrite !append_assoc. rewrite Hpass.
    change (NL +:+ ?t) with (String LF t).
    cbn [rep]. rewrite region_end_not_yet.
    2:{ apply Forall_cons in Hopen as [Hl2 _].
        destruct ls as [|l3 ls].
        - cbn [join]. apply Hl2.
        - change (join NL (l2 :: l3 :: ls))
            with (l2 +:+ NL +:+ join NL (l3 :: ls)).
          rewrite !append_assoc. apply Hl2. }
    cbn [dotall]. cbv iota.
    change (feed LF (Caps cl (Some (g +:+ l))))
      with (Caps cl (Some ((g +:+ l) +:+ NL))).
    change (String LF "end") with (NL +:+ "end").
    rewrite IH by done. by rewrite !append_assoc.
Qed.

(** *** A whole region *)

Lemma isspace_not_decimal (c : ascii) : isspace c = true → isdecimal c = false.
Proof.
  intros H. destruct (isdecimal c) eqn:E; [|done].
  apply isdecimal_not_space in E. congruence.
Qed.

Lemma caps_feeds_none (w : string) (cl : list string) :
  feeds w (Caps cl None) = Caps cl None.
Proof. reflexivity. Qed.

(** The pattern of a region matches the region that the writer lays out:
    the header, the lines, [end]. *)
Lemma match_region (c m : string) (ls : list string) (x : ascii) (l1 : string) :
  digits c = true → digits m = true →
  head ls = Some (String x l1) → isspace x = false →
  Forall (λ l, free_of (Ascii.eqb LF) l = true) ls →
  Forall opens_no_end ls →
  match_here pattern_xyz
    (">xyz " +:+ c +:+ " " +:+ m +:+ NL +:+ join NL ls +:+ NL +:+ "end")
    (Caps [] None)
  = Some ([join NL ls], EmptyString).
Proof.
  intros Hc Hm Hhead Hx Hfree Hopen.
  assert (ls ≠ []) as Hne by (by destruct ls).
  (* the group *)
  pose proof (lazy_group_reads_lines ls [] EmptyString Hne Hfree Hopen) as A.
  change (EmptyString +:+ join NL ls) with (join NL ls) in A.
  change (reverse [join NL ls]) with [join NL ls] in A.
  (* the end of the header *)
  assert (match_here ([star isspace; Lit LF; GOpen; lazy_star dotall]
                      ++ region_end)
            (NL +:+ join NL ls +:+ NL +:+ "end") (Caps [] None)
          = Some ([join NL ls], EmptyString)) as B.
  { change (NL +:+ ?t) with (String LF t) at 1.
    cbn [app match_here star]. rewrite rep_greedy_back; [|done|].
    - cbn [match_here]. rewrite Ascii.eqb_refl. exact A.
    - destruct ls as [|l ls']; [done|]. injection Hhead as ->.
      assert (∀ t, join NL (String x l1 :: ls') +:+ t
                   = String x ((l1 +:+ match ls' with
                                       | [] => EmptyString
                                       | _ => NL +:+ join NL ls'
                                       end) +:+ t)) as ->.
      { intros t. destruct ls'; cbn [join].
        - by rewrite append_empty_r.
        - by rewrite !append_cons. }
      cbn [rep]. rewrite Hx. cbn [match_here].
      destruct (Ascii.eqb_spec x LF) as [->|]; [discriminate|done]. }
  (* the numbers of the header *)
  unfold pattern_xyz.
  change (">xyz " +:+ ?t) with (">xyz" +:+ String " " t).
  rewrite match_here_lit_append, caps_feeds_none.
  cbn [app match_here plus].
  destruct c as [|c0 c']; [done|]. destruct m as [|m0 m']; [done|].
  unfold digits in Hc, Hm.
  assert (isdecimal c0 = true ∧ isdecimal m0 = true) as [Hc0 Hm0].
  { cbn [free_of] in Hc, Hm.
    apply andb_true_iff in Hc as [Hc _]. apply andb_true_iff in Hm as [Hm _].
    by rewrite negb_involutive in Hc, Hm. }
  change (String " " (String c0 c' +:+ ?t))
    with (" " +:+ String c0 c' +:+ t).
  apply rep_greedy_all; [done|simpl; lia| |].
  { rewrite append_cons. cbn [free_of].
    by rewrite (isdecimal_not_space c0 Hc0). }
  rewrite caps_feeds_none.
  apply rep_greedy_all; [done|simpl; lia|done|].
  rewrite caps_feeds_none.
  apply rep_greedy_all; [done|simpl; lia| |].
  { rewrite append_cons. cbn [free_of].
    by rewrite (isdecimal_not_space m0 Hm0). }
  rewrite caps_feeds_none.
  apply rep_greedy_all; [done|simpl; lia|done|].
  rewrite caps_feeds_none. exact B.
Qed.

(** *** The scan *)

Lemma occurrences_append (w p r : string) :
  occurrences w r ≤ occurrences w (p +:+ r).
Proof.
  induction p as [|x p IH]; [done|].
  rewrite append_cons. cbn [occurrences]. lia.
Qed.

(** The scan passes the text in which the banner does not occur. *)
Lemma scan_before (w : string) (p : pattern) (before r : string) :
  occurrences w (before +:+ r) = occurrences w r →
  scan (lit w ++ p) (before +:+ r) 0 = scan (lit w ++ p) r 0.
Proof.
  induction before as [|x before IH]; intros H; [done|].
  rewrite append_cons in H |- *. cbn [occurrences] in H.
  pose proof (occurrences_append w before r) as Hle.
  destruct (String.prefix w (String x (before +:+ r))) eqn:E; [lia|].
  cbn [scan]. rewrite match_here_lit_prefix by done.
  apply IH. simpl in H. lia.
Qed.

Lemma scan_skip_all (p : pattern) (s : string) :
  match_here p EmptyString (Caps [] None) = None →
  scan p s (String.length s) = [].
Proof.
  intros H. induction s as [|x s IH]; [|done].
  cbn [String.length scan]. by rewrite H.
Qed.

(** One match that ends the text. *)
Lemma scan_last (p : pattern) (x : ascii) (s : string) (gs : list string) :
  match_here p (String x s) (Caps [] None) = Some (gs, EmptyString) →
  match_here p EmptyString (Caps [] None) = None →
  scan p (String x s) 0 = [gs].
Proof.
  intros H Hnone. cbn [scan]. rewrite H. f_equal.
  cbn [String.length]. rewrite Nat.sub_0_r. simpl (S _ - 1).
  rewrite Nat.sub_0_r. by apply scan_skip_all.
Qed.

(** *** The atom lines of the writer *)

(** One atom line of [ase.io.write(..., format='xyz')]. *)
Lemma atom_lines_of (a : Atoms RT) :
  drop 2 (io_write_xyz [a])
  = zip_with (λ s '(x, y, z),
        ljust 2 s +:+ " " +:+ pct_22_15f x +:+ " " +:+ pct_22_15f y
        +:+ " " +:+ pct_22_15f z)
      (symbols a) (positions a).
Proof.
  unfold io_write_xyz. cbn [mbind list_bind app]. unfold xyz_frame_lines.
  by rewrite app_nil_r.
Qed.

Lemma spaces_free_of_LF (n : nat) :
  free_of (Ascii.eqb LF) (spaces n) = true.
Proof. induction n as [|n IH]; [done|]. cbn [spaces free_of]. by rewrite IH. Qed.

Lemma prefix_append_other (w s rest : string) (sp : ascii) :
  free_of (Ascii.eqb sp) w = true → String.prefix w s = false →
  String.prefix w (s +:+ String sp rest) = false.
Proof.
  revert s. induction w as [|a w IH]; intros s Hw H.
  - by destruct s.
  - cbn [free_of] in Hw. apply andb_true_iff in Hw as [Ha Hw].
    destruct s as [|b s].
    + change (EmptyString +:+ String sp rest) with (String sp rest).
      cbn [String.prefix]. destruct (ascii_dec a sp) as [->|]; [|done].
      by rewrite Ascii.eqb_refl in Ha.
    + rewrite append_cons. cbn [String.prefix] in H |- *.
      destruct (ascii_dec a b); [by apply IH|done].
Qed.

(** The atom line of a symbol: the symbol, at least one blank, the rest. *)
Lemma atom_line_shape (s x y z : string) :
  ∃ rest, ljust 2 s +:+ " " +:+ x +:+ " " +:+ y +:+ " " +:+ z
          = s +:+ String " " rest.
Proof.
  unfold ljust. rewrite append_assoc.
  destruct (2 - String.length s) as [|n]; cbn [spaces]; eauto.
Qed.

Lemma atom_line_free_of_LF (s x y z : string) :
  token s = true →
  free_of (Ascii.eqb LF) x = true → free_of (Ascii.eqb LF) y = true →
  free_of (Ascii.eqb LF) z = true →
  free_of (Ascii.eqb LF)
    (ljust 2 s +:+ " " +:+ x +:+ " " +:+ y +:+ " " +:+ z) = true.
Proof.
  intros Hs Hx Hy Hz. unfold ljust.
  rewrite !free_of_append, (token_free_of_LF s Hs), spaces_free_of_LF.
  by rewrite Hx, Hy, Hz.
Qed.

Lemma atom_line_opens_no_end (s x y z : string) :
  token s = true → String.prefix "end" s = false →
  opens_no_end (ljust 2 s +:+ " " +:+ x +:+ " " +:+ y +:+ " " +:+ z).
Proof.
  intros Hs Hend rest.
  destruct (atom_line_shape s x y z) as [t ->].
  rewrite append_assoc, append_cons.
  destruct s as [|c s]; [done|]. unfold token in Hs. cbn [free_of] in Hs.
  apply andb_true_iff in Hs as [Hc _].
  rewrite append_cons. cbn [lstrip].
  destruct (isspace c); [done|].
  rewrite <- append_cons. by apply prefix_append_other.
Qed.

Lemma atom_line_head (s x y z : string) :
  token s = true →
  ∃ c l, ljust 2 s +:+ " " +:+ x +:+ " " +:+ y +:+ " " +:+ z = String c l
         ∧ isspace c = false.
Proof.
  intros Hs. destruct (atom_line_shape s x y z) as [t ->].
  destruct s as [|c s]; [done|]. unfold token in Hs. cbn [free_of] in Hs.
  apply andb_true_iff in Hs as [Hc _].
  exists c, (s +:+ String " " t). split; [done|]. by destruct (isspace c).
Qed.

(** The first word of an atom line is the symbol. *)
Lemma atom_line_symbol (s x y z : string) (sym : string) (r : list float) :
  token s = true →
  xyz_atom_line (ljust 2 s +:+ " " +:+ x +:+ " " +:+ y +:+ " " +:+ z)
    = Ok (sym, r) →
  sym = capitalized s.
Proof.
  intros Hs H. destruct (atom_line_shape s x y z) as [t Ht].
  rewrite Ht in H. clear Ht.
  destruct s as [|c s]; [done|]. unfold token in Hs.
  pose proof Hs as Hs'. cbn [free_of] in Hs.
  apply andb_true_iff in Hs as [Hc Hfree].
  unfold xyz_atom_line, split in H. rewrite append_cons in H.
  cbn [split_ws_from] in H. destruct (isspace c); [done|].
  rewrite split_ws_from_word in H by done.
  cbn [default from_option id] in H.
  change ((EmptyString +:+ String c EmptyString) +:+ s) with (String c s) in H.
  cbn [take] in H.
  destruct (take 3 (split_ws_from None t)) as [|x' [|y' [|z' [|? ?]]]];
    try discriminate.
  apply bind_Ok in H as (fx & _ & H). apply bind_Ok in H as (fy & _ & H).
  apply bind_Ok in H as (fz & _ & H). by injection H as <- _.
Qed.

Lemma atom_lines_symbols (syms : list string)
    (poss : list (float * float * float)) (al : list (string * list float)) :
  length poss = length syms →
  Forall (λ s, token s = true) syms →
  mapM xyz_atom_line
    (zip_with (λ s '(x, y, z),
         ljust 2 s +:+ " " +:+ pct_22_15f x +:+ " " +:+ pct_22_15f y
         +:+ " " +:+ pct_22_15f z) syms poss) = Ok al →
  al.*1 = capitalized <$> syms.
Proof.
  revert poss al. induction syms as [|s syms IH]; intros poss al Hlen Hs H.
  - destruct poss; [|done]. by injection H as <-.
  - destruct poss as [|[[x y] z] poss]; [done|]. injection Hlen as Hlen.
    apply Forall_cons in Hs as [Hs Hsyms].
    cbn [zip_with mapM] in H.
    apply bind_Ok in H as ([sym r] & Hline & H).
    apply bind_Ok in H as (al' & Hal' & H). injection H as <-.
    cbn [fmap list_fmap fst]. f_equal.
    + by eapply atom_line_symbol.
    + by eapply IH.
Qed.

(** *** The written region *)

Lemma join_lines_end (ls : list string) :
  ls ≠ [] →
  join EmptyString (((λ l, l +:+ NL) <$> ls) ++ ["end"])
  = join NL ls +:+ NL +:+ "end".
Proof.
  induction ls as [|l ls IH]; [done|]. intros _.
  destruct ls as [|l2 ls].
  - cbn [fmap list_fmap app join]. by rewrite append_assoc.
  - change (((λ l, l +:+ NL) <$> l :: l2 :: ls) ++ ["end"])
      with ((l +:+ NL) :: (((λ l, l +:+ NL) <$> l2 :: ls) ++ ["end"])).
    rewrite join_cons by done. rewrite IH by done.
    change (join NL (l :: l2 :: ls)) with (l +:+ NL +:+ join NL (l2 :: ls)).
    by rewrite !append_assoc.
Qed.

Lemma join_region (c m : string) (ls : list string) :
  ls ≠ [] →
  join EmptyString
    ([">xyz " +:+ c +:+ " " +:+ m +:+ NL]
     ++ ((λ l, l +:+ NL) <$> ls) ++ ["end"])
  = ">xyz " +:+ c +:+ " " +:+ m +:+ NL +:+ join NL ls +:+ NL +:+ "end".
Proof.
  intros Hne. cbn [app]. rewrite join_cons by (by destruct ls).
  rewrite join_lines_end by done. by rewrite !append_assoc.
Qed.

Lemma dec_digits (z : Z) : (0 ≤ z)%Z → digits (dec z) = true.
Proof.
  intros Hz. rewrite <- (Z2Nat.id z Hz).
  destruct (dec_nat (Z.to_nat z)) as (d & Hd & -> & _).
  pose proof (digits_free_of (λ c, negb (isdecimal c)) d) as Hfree.
  unfold digits. destruct d; [done|..]; cbn [NilEmpty.string_of_uint] in *;
    apply Hfree; by intros c ->.
Qed.

Lemma occurrences_prefix (w s : string) :
  String.prefix w s = true → 0 < occurrences w s.
Proof. intros H. destruct s; cbn [occurrences]; rewrite H; lia. Qed.

Lemma occurrences_contains (w s : string) :
  0 < occurrences w s → contains w s = true.
Proof.
  induction s as [|x s IH]; cbn [occurrences contains].
  - destruct (String.prefix w EmptyString); [done|lia].
  - destruct (String.prefix w (String x s)); [done|]. intros H.
    rewrite IH by lia. done.
Qed.

Lemma atom_lines_free_of_LF (syms : list string)
    (poss : list (float * float * float)) :
  Forall (λ s, token s = true ∧ String.prefix "end" s = false) syms →
  Forall (λ '(x, y, z),
            free_of (Ascii.eqb LF) (pct_22_15f x) = true ∧
            free_of (Ascii.eqb LF) (pct_22_15f y) = true ∧
            free_of (Ascii.eqb LF) (pct_22_15f z) = true) poss →
  Forall (λ l, free_of (Ascii.eqb LF) l = true)
    (zip_with (λ s '(x, y, z),
         ljust 2 s +:+ " " +:+ pct_22_15f x +:+ " " +:+ pct_22_15f y
         +:+ " " +:+ pct_22_15f z) syms poss).
Proof.
  revert poss. induction syms as [|s syms IH]; intros poss Hsyms Hnums;
    [constructor|].
  destruct poss as [|[[x y] z] poss]; [constructor|].
  apply Forall_cons in Hsyms as [[Hs _] Hsyms].
  apply Forall_cons in Hnums as [(Hx & Hy & Hz) Hnums].
  cbn [zip_with]. constructor; [by apply atom_line_free_of_LF|].
  by apply IH.
Qed.

Lemma atom_lines_open_no_end (syms : list string)
    (poss : list (float * float * float)) :
  Forall (λ s, token s = true ∧ String.prefix "end" s = false) syms →
  Forall opens_no_end
    (zip_with (λ s '(x, y, z),
         ljust 2 s +:+ " " +:+ pct_22_15f x +:+ " " +:+ pct_22_15f y
         +:+ " " +:+ pct_22_15f z) syms poss).
Proof.
  revert poss. induction syms as [|s syms IH]; intros poss Hsyms;
    [constructor|].
  destruct poss as [|[[x y] z] poss]; [constructor|].
  apply Forall_cons in Hsyms as [[Hs Hend] Hsyms].
  cbn [zip_with]. constructor; [by apply atom_line_opens_no_end|].
  by apply IH.
Qed.

(** X21 (write_aip, write_xyz, parse_xyz, read_aip): reading back what
    was written.  For a structure of at least one atom, with one position
    per symbol, whose symbols are words that do not begin with [end] and
    whose formatted coordinates hold no line feed, for a charge and a
    multiplicity that are integers and not negative, and when the banner
    [>xyz] occurs once in the transcript written: the reader finds one
    Cartesian region, the atom lines that were written; it returns a
    structure exactly when the xyz reader accepts these lines; and the
    structure it returns has the capitalized symbols, in order, and as many
    positions. *)
Theorem written_structure_is_read_back (a : Atoms RT) properties (p : loc)
    (σ : store) (text : string) (σ' : store) (charge mult : Z) :
  write_input (One a) properties p σ = (Ok text, σ') →
  dict_get "charge" (deref p σ) = Some (VInt charge) → (0 ≤ charge)%Z →
  dict_get "mult" (deref p σ) = Some (VInt mult) → (0 ≤ mult)%Z →
  occurrences ">xyz" text = 1 →
  symbols a ≠ [] → length (positions a) = length (symbols a) →
  Forall (λ s, token s = true ∧ String.prefix "end" s = false) (symbols a) →
  Forall (λ '(x, y, z),
            free_of (Ascii.eqb LF) (pct_22_15f x) = true ∧
            free_of (Ascii.eqb LF) (pct_22_15f y) = true ∧
            free_of (Ascii.eqb LF) (pct_22_15f z) = true) (positions a) →
  let ls := drop 2 (io_write_xyz [a]) in
  findall pattern_xyz text = [join NL ls] ∧
  (∀ zm a',
     read_aip zm text = Ok (Some a') ↔
     ∃ al, mapM xyz_atom_line ls = Ok al ∧ Atoms_init al.*1 al.*2 = Ok a') ∧
  (∀ zm a',
     read_aip zm text = Ok (Some a') →
     symbols a' = capitalized <$> symbols a ∧
     length (positions a') = length (positions a)).
Proof.
  intros H Hcharge Hc0 Hmult Hm0 Hocc Hne Hlen Hsyms Hnums ls.
  apply write_input_Ok in H as [_ H].
  destruct (write_aip_lines _ _ _ _ _ _ H)
    as (l1 & l2 & kwline & more & frames & vc & vm & c & m
        & -> & _ & _ & _ & _ & Hframes & Hvc & Hvm & Hpc & Hpm).
  rewrite deref_newest in Hvc, Hvm. rewrite Hcharge in Hvc.
  rewrite Hmult in Hvm. subst vc vm.
  injection Hpc as <-. injection Hpm as <-.
  rewrite (Hframes a eq_refl) in *. fold ls in Hocc |- *.
  (* the lines *)
  assert (ls = zip_with (λ s '(x, y, z),
                  ljust 2 s +:+ " " +:+ pct_22_15f x +:+ " "
                  +:+ pct_22_15f y +:+ " " +:+ pct_22_15f z)
                (symbols a) (positions a)) as Hls by apply atom_lines_of.
  assert (Forall (λ l, free_of (Ascii.eqb LF) l = true) ls
          ∧ Forall opens_no_end ls
          ∧ ∃ x l, head ls = Some (String x l) ∧ isspace x = false)
    as (Hfree & Hopen & x & l & Hhead & Hx).
  { rewrite Hls. repeat apply conj.
    - by apply atom_lines_free_of_LF.
    - by apply atom_lines_open_no_end.
    - destruct (symbols a) as [|s syms]; [done|].
      destruct (positions a) as [|[[px py] pz] poss]; [done|].
      apply Forall_cons in Hsyms as [[Hs _] _]. cbn [zip_with head].
      destruct (atom_line_head s (pct_22_15f px) (pct_22_15f py)
                  (pct_22_15f pz) Hs) as (x & l & -> & Hx).
      eauto. }
  assert (ls ≠ []) as Hlsne by (by destruct ls).
  (* the region *)
  rewrite join_region in * by done.
  set (region := ">xyz " +:+ dec charge +:+ " " +:+ dec mult +:+ NL +:+
                 join NL ls +:+ NL +:+ "end") in *.
  assert (match_here pattern_xyz region (Caps [] None)
          = Some ([join NL ls], EmptyString)) as Hmatch.
  { apply (match_region _ _ _ x l); auto using dec_digits. }
  (* the text before the region *)
  set (before := l1 ++ l2 ++ [kwline] ++
                 block_lines
                   (collect_blocks
                      (dict_del "keywords"
                         (dict_del "npara"
                            (deref (length σ) (σ ++ [deref p σ])))))) in *.
  assert (before ≠ []) as Hbefore.
  { unfold before. destruct l1, l2; done. }
  rewrite !app_assoc in Hocc |- *. fold before in Hocc |- *.
  rewrite <- !app_assoc in Hocc |- *.
  replace (l1 ++ l2 ++ [kwline] ++ _ ++ [region]) with (before ++ [region])
    in * by (unfold before; by rewrite <- !app_assoc).
  rewrite join_app in * by done. rewrite <- append_assoc in *.
  change (join NL [region]) with region in *.
  assert (findall pattern_xyz ((join NL before +:+ NL) +:+ region)
          = [join NL ls]) as Hfind.
  { unfold findall, findall_groups, pattern_xyz.
    rewrite scan_before.
    - fold pattern_xyz. unfold region at 1.
      change (">xyz " +:+ ?t) with (String ">" ("xyz " +:+ t)).
      erewrite scan_last; [|exact Hmatch|done]. done.
    - pose proof (occurrences_append ">xyz" (join NL before +:+ NL) region).
      assert (0 < occurrences ">xyz" region); [|lia].
      apply occurrences_prefix. unfold region.
      change (">xyz " +:+ ?t)
        with (String ">" (String "x" (String "y" (String "z"
                (String " " t))))).
      reflexivity. }
  assert (contains ">xyz" ((join NL before +:+ NL) +:+ region) = true)
    as Hbanner.
  { apply occurrences_contains. lia. }
  assert (∀ zm a',
            read_aip zm ((join NL before +:+ NL) +:+ region) = Ok (Some a') ↔
            ∃ al, mapM xyz_atom_line ls = Ok al ∧
                  Atoms_init al.*1 al.*2 = Ok a') as Hread.
  { intros zm a'. unfold read_aip. rewrite Hbanner.
    unfold parse_xyz. rewrite Hfind.
    cbn [StringIO default from_option id].
    pose proof (io_read_xyz_region (join NL ls) a') as Hregion.
    rewrite split_on_join in Hregion |- * by done.
    rewrite <- Hregion.
    destruct (io_read_xyz _) as [a''|e]; cbn; split; congruence. }
  repeat apply conj; [done|done|].
  intros zm a' (al & Hal & Ha)%Hread.
  apply Atoms_init_Ok in Ha as (Hs' & _ & Hrows & Hl').
  rewrite Hls in Hal.
  pose proof (atom_lines_symbols _ _ _ Hlen
                (Forall_impl _ _ _ Hsyms (λ s Hs, proj1 Hs)) Hal) as Hal1.
  split; [congruence|].
  apply Forall2_length in Hrows. rewrite <- Hrows, length_fmap.
  rewrite <- (length_fmap fst al), Hal1, length_fmap. done.
Qed.
End RoundTrip.

(* ===================================================================== *)
(** ** The further properties on sample transcripts *)
(* ===================================================================== *)

Section PropertyExamples.
Import QRuntime Samples Cases.

(** Decides a closed statement by evaluation. *)
Ltac run := apply (bool_decide_unpack _); vm_compute; exact I.

(** X1 on [two_steps]: two energy lines and two charges sections, for two
    images. *)
Lemma extractor_lengths_witness :
  length (findall pattern_energy two_steps) = 2 ∧
  length two_steps_energy
    = length (findall pattern_energy two_steps) `min` (2 + 1) ∧
  length two_steps_charge
    = if length (findall pattern_charge two_steps) =? 0 then 2
      else length (findall pattern_charge two_steps) `min` (2 + 1).
Proof.
  destruct (extractor_lengths two_steps 2) as (Hc & _ & _ & He & _).
  repeat apply conj; [run | apply He; run | apply Hc; run].
Defined.

(** X2 on [no_charges]: the charges of the one image read [None]. *)
Lemma absent_sections_are_indexable_witness :
  parse_aop_charge no_charges 1 ≫= (λ l, getitem l (Z.of_nat 0)) = Ok None.
Proof.
  destruct (absent_sections_are_indexable no_charges 1 0) as (Hc & _);
    [lia|].
  apply Hc. run.
Defined.

(** X3 on [second_energy_malformed]: the extractor raises for no image,
    where the cut keeps the first energy line only. *)
Lemma conversion_precedes_truncation_witness :
  length (findall pattern_energy second_energy_malformed) = 2 ∧
  parse_aop_energy second_energy_malformed 0 = Raise ValueError.
Proof.
  destruct (conversion_precedes_truncation
              second_energy_malformed 5 0 ValueError) as (_ & _ & _ & He & _).
  split; [run|]. apply He. run.
Defined.

(** X4 on [two_steps]. *)
Lemma read_results_needs_sections_witness :
  findall_groups pattern_dipole two_steps ≠ [] ∧
  findall pattern_energy two_steps ≠ [].
Proof.
  destruct (read_results_needs_sections two_steps two_steps_results)
    as (Hd & He & _); [run|].
  by split.
Defined.

(** X5 on [two_steps]: two images, two energy lines. *)
Lemma iread_aop_needs_occurrences_witness :
  length two_steps_images ≤ length (findall pattern_energy two_steps) ∧
  length two_steps_images ≤ length (findall_groups pattern_dipole two_steps).
Proof.
  destruct (iread_aop_needs_occurrences two_steps two_steps_images)
    as (He & Hd & _); [run|].
  by split.
Defined.

(** X6 on [two_steps] and on [methane_aip]. *)
Lemma readers_return_valid_structures_witness :
  Forall (λ img, valid_structure (atoms img)) two_steps_images ∧
  valid_structure methane.
Proof.
  destruct (readers_return_valid_structures two_steps) as (Himages & _).
  destruct (readers_return_valid_structures methane_aip)
    as (_ & _ & Hxyz & _).
  split; [apply Himages; run | apply Hxyz; run].
Defined.

(** X7 on the second image of [two_steps]. *)
Lemma image_fields_by_position_witness :
  ∃ img, two_steps_images !! 1 = Some img ∧
    ∃ e x, findall pattern_energy two_steps !! 1 = Some e ∧
           float_of_str e = Some x ∧
           energy (results img) = fmul x Hartree.
Proof.
  destruct (two_steps_images !! 1) as [img|] eqn:Himg; [|discriminate].
  exists img. split; [reflexivity|].
  destruct (image_fields_by_position two_steps two_steps_images 1 img)
    as (He & _); [run | exact Himg | exact He].
Defined.

(** X8 on [two_steps]: two energy lines, all kept; the single result has
    the second. *)
Lemma read_results_takes_last_kept_witness :
  ∃ e x, findall pattern_energy two_steps !! 1 = Some e ∧
         float_of_str e = Some x ∧
         calc_energy two_steps_results = fmul x Hartree.
Proof.
  destruct (read_results_takes_last_kept two_steps two_steps_results)
    as (He & _); [run|].
  assert (length (findall pattern_energy two_steps)
            `min` (length (findall pattern_aop_xyz two_steps) + 1) - 1 = 1)
    as Hindex by run.
  rewrite Hindex in He. exact He.
Defined.

(** X9 on [no_geometry_aip]. *)
Lemma read_aip_None_iff_witness :
  contains ">xyz" no_geometry_aip = false ∧
  contains ">zmat" no_geometry_aip = false.
Proof. apply (proj1 (read_aip_None_iff any_zmatrix no_geometry_aip)). run. Defined.

(** X10 on [two_regions_aip]. *)
Lemma parse_xyz_needs_one_region_witness :
  parse_xyz two_regions_aip = Raise StopIteration ∧
  read_aip any_zmatrix two_regions_aip = Raise StopIteration.
Proof.
  destruct (parse_xyz_needs_one_region any_zmatrix two_regions_aip)
    as [Hxyz Haip]; [run|].
  split; [exact Hxyz | apply Haip; run].
Defined.

(** X11 on [no_charges], which has no force section. *)
Lemma optional_and_required_banners_witness :
  parse_aop_force no_charges = Ok None.
Proof.
  destruct (optional_and_required_banners no_charges) as (Hforce & _).
  apply Hforce. run.
Defined.

(** X12 on [methane_aip]: five lines, five atoms. *)
Lemma parse_xyz_reads_every_line_witness :
  ∃ region al,
    findall pattern_xyz methane_aip = [region] ∧
    mapM xyz_atom_line (split_on LF region) = Ok al ∧
    Atoms_init al.*1 al.*2 = Ok methane.
Proof.
  apply (proj1 (parse_xyz_reads_every_line methane_aip methane)). run.
Defined.

(** X13 on [zmat_coord_aip]: the definitions [r1 0.96] and [a1 104.5]. *)
Lemma parse_zmat_hands_over_witness :
  parse_zmat any_zmatrix zmat_coord_aip
  = any_zmatrix (Some zmat_region) (lines ["r1=0.96"; "a1=104.5"]).
Proof.
  destruct (parse_zmat_hands_over any_zmatrix zmat_coord_aip)
    as (_ & _ & Hcoord).
  apply (Hcoord zmat_region ["r1"; "a1"] ["0.96"; "104.5"]);
    [run | run | done | done | by repeat constructor | by repeat constructor].
Defined.

(** The call that returns [job_written]. *)
Lemma job_written_returned :
  write_input (One hydrogen_atom) None 0 [job_parameters]
  = (Ok job_written,
     (write_input (One hydrogen_atom) None 0 [job_parameters]).2).
Proof.
  assert ((write_input (One hydrogen_atom) None 0 [job_parameters]).1
          = Ok job_written) as H by run.
  rewrite <- H. apply surjective_pairing.
Qed.

(** X14 on [job_parameters]: the two job-control lines, the keyword line,
    the block [method], and the region of the hydrogen atom. *)
Lemma written_lines_witness :
  ∃ kwline c m,
    job_written
    = join NL
        (["% npara 4"] ++ ["% maxcore 1024"] ++ [kwline]
         ++ block_lines
              (collect_blocks
                 (dict_del "keywords" (dict_del "npara" job_parameters)))
         ++ [join EmptyString
               ([">xyz " +:+ c +:+ " " +:+ m +:+ NL]
                ++ ((λ line, line +:+ NL) <$>
                      zip_with (λ s '(x, y, z),
                          ljust 2 s +:+ " " +:+ pct_22_15f x +:+ " "
                          +:+ pct_22_15f y +:+ " " +:+ pct_22_15f z)
                        (symbols hydrogen_atom) (positions hydrogen_atom))
                ++ ["end"])]) ∧
    join_values " " [VStr "!"; VStr "hf"; VStr "3-21g"] = Ok kwline ∧
    pct_d (VInt 0) = Ok c ∧ pct_d (VInt 1) = Ok m.
Proof.
  destruct (written_lines hydrogen_atom None 0 [job_parameters] job_written _
              job_written_returned)
    as (l1 & l2 & kwline & more & charge & mult & c & m
        & Htext & Hl1 & Hl2 & Hmore & Hline & Hc & Hm & Hpc & Hpm).
  cbn in Hl1, Hl2, Hmore, Hc, Hm.
  destruct Hl1 as (s1 & [= <-] & ->). destruct Hl2 as (s2 & [= <-] & ->).
  injection Hmore as <-. subst charge mult.
  exists kwline, c, m. repeat apply conj; [exact Htext|exact Hline|done|done].
Defined.

(** X15 on [job_parameters] (a list of keywords) and on [bare_keywords]
    (one string). *)
Lemma keyword_line_cases_witness :
  write_keywords None 0 [job_parameters]
  = (Ok "! hf 3-21g", [dict_del "keywords" job_parameters]) ∧
  write_keywords None 0 [bare_keywords]
  = (Ok "! b 3 l y p", [dict_del "keywords" bare_keywords]) ∧
  write_keywords None 0 [anion_parameters] = (Ok "! pbe0 def2-svp", [anion_parameters]).
Proof.
  destruct (keyword_line_cases None 0 [job_parameters])
    as (_ & Hlist & _).
  destruct (keyword_line_cases None 0 [bare_keywords])
    as (_ & _ & _ & Hstring & _).
  destruct (keyword_line_cases None 0 [anion_parameters]) as (Hnone & _).
  repeat apply conj.
  - apply (Hlist ["hf"; "3-21g"]). reflexivity.
  - apply (Hstring "b3lyp"). reflexivity.
  - apply Hnone. reflexivity.
Defined.

(** X16: of two structures the second is written; a list of one
    structure without [charge] makes [write_xyz] raise. *)
Lemma image_lists_witness :
  write_aip (Images ([hydrogen_atom] ++ [moved_hydrogen])) None 0
    [job_parameters]
  = write_aip (One moved_hydrogen) None 0 [job_parameters] ∧
  write_aip (Images [hydrogen_atom]) None 0 [job_parameters]
  = write_aip (One hydrogen_atom) None 0 [job_parameters] ∧
  (write_xyz (Images [hydrogen_atom]) 0 [[("mult", VInt 1)]]).1
  = Raise AttributeError.
Proof.
  destruct (image_lists None 0 [job_parameters]) as (Hlast & Hone & _).
  destruct (image_lists None 0 [[("mult", VInt 1)]]) as (_ & _ & _ & Hraise).
  repeat apply conj.
  - by apply Hlast.
  - by apply Hone.
  - apply Hraise. by left.
Defined.

(** X17 on [titled_parameters]: the parameters [title] and [maxiter]
    leave the transcript of [job_parameters] as it is; on
    [bound_parameters], the parameter [atoms] makes the call raise. *)
Lemma ignored_parameters_witness :
  (write_input (One hydrogen_atom) None 0 [titled_parameters]).1
  = (write_input (One hydrogen_atom) None 0 [job_parameters]).1 ∧
  write_input (One hydrogen_atom) None 0 [bound_parameters]
  = (Raise TypeError, [bound_parameters]).
Proof.
  split.
  - apply (ignored_parameters (One hydrogen_atom) None 0 0
             [titled_parameters] [job_parameters]).
    reflexivity.
  - apply (ignored_parameters (One hydrogen_atom) None 0 0
             [bound_parameters] [job_parameters]) with (name := "atoms").
    + right. left. reflexivity.
    + reflexivity.
Defined.

(** X18 on [job_written]. *)
Lemma written_text_is_cartesian_witness :
  contains ">xyz" job_written = true ∧
  read_aip any_zmatrix job_written = Some <$> parse_xyz job_written.
Proof.
  destruct (written_text_is_cartesian (One hydrogen_atom) None 0
              [job_parameters] job_written _ job_written_returned)
    as [Hbanner Hread].
  split; [exact Hbanner | apply Hread].
Defined.

(** X19 on [two_steps] (as many energy lines as geometry sections) and on
    [step_and_summary] (one more): there the last image has the first
    energy, and the single result the second. *)
Lemma single_result_and_last_image_witness :
  calc_energy two_steps_results = energy (results two_steps_last) ∧
  calc_dipole two_steps_results = dipole (results two_steps_last) ∧
  (∃ e x, findall pattern_energy step_and_summary !! 1 = Some e ∧
          float_of_str e = Some x ∧
          calc_energy step_and_summary_results = fmul x Hartree) ∧
  calc_energy step_and_summary_results
    ≠ energy (results step_and_summary_image).
Proof.
  destruct (single_result_and_last_image two_steps two_steps_results
              two_steps_last) as (He2 & Hd2 & _); [run | run |].
  repeat apply conj.
  - apply He2. run.
  - apply Hd2. run.
  - destruct (single_result_and_last_image step_and_summary
                step_and_summary_results step_and_summary_image)
      as (_ & _ & _ & _ & He & _); [run | run |].
    apply He. run.
  - run.
Defined.

(** X20 on [text_charge] and [text_npara]: the text ["0"] and the text
    ["4"] are no numbers. *)
Lemma number_parameters_witness :
  (∃ e, (write_input (One hydrogen_atom) None 0 [text_charge]).1 = Raise e) ∧
  (write_input (One hydrogen_atom) None 0 [text_npara]).1 = Raise TypeError.
Proof.
  destruct (number_parameters (One hydrogen_atom) None 0 [text_charge]
              "charge" (VStr "0")) as [Hraises _];
    [by right; right; left | reflexivity | done | done | done |].
  destruct (number_parameters (One hydrogen_atom) None 0 [text_npara]
              "npara" (VStr "4")) as [_ Htype];
    [by left | reflexivity | done | done | done |].
  split; [exact Hraises | by apply Htype].
Defined.

(** The call that returns [methane_written]. *)
Lemma methane_written_returned :
  write_input (One methane) None 0 [job_parameters]
  = (Ok methane_written,
     (write_input (One methane) None 0 [job_parameters]).2).
Proof.
  assert ((write_input (One methane) None 0 [job_parameters]).1
          = Ok methane_written) as H by run.
  rewrite <- H. apply surjective_pairing.
Qed.

(** X21 on [methane] and [job_parameters] (charge 0, multiplicity 1):
    the five atom lines are found, and the structure read back has the
    five symbols. *)
Lemma written_structure_is_read_back_witness :
  findall pattern_xyz methane_written
    = [join NL (drop 2 (io_write_xyz [methane]))] ∧
  read_aip any_zmatrix methane_written = Ok (Some methane_read_back) ∧
  symbols methane_read_back = capitalized <$> symbols methane ∧
  length (positions methane_read_back) = length (positions methane).
Proof.
  destruct (written_structure_is_read_back methane None 0 [job_parameters]
              methane_written _ 0 1 methane_written_returned)
    as (Hregion & _ & Hsymbols).
  - reflexivity.
  - lia.
  - reflexivity.
  - lia.
  - run.
  - done.
  - reflexivity.
  - repeat constructor.
  - repeat constructor.
  - assert (read_aip any_zmatrix methane_written
            = Ok (Some methane_read_back)) as Hread by run.
    destruct (Hsymbols any_zmatrix methane_read_back Hread) as [Hs Hp].
    repeat apply conj; [exact Hregion | exact Hread | exact Hs | exact Hp].
Defined.
End PropertyExamples.
